(** * Translation assistant: a shallow embedding of [translation-assistant.js]

    The module suggests translations for strings that embed math
    ([$...$]), graphie ([![](...)]) and widget ([[[☃ ...]]]) substrings by
    re-using an already translated string as a template.

    JavaScript strings are sequences of UTF-16 code units, so a string is
    modelled as a list of code units ([N]).  The regular expressions of the
    source are kept as syntax trees and run by a backtracking matcher that
    follows the ECMAScript matching order (leftmost start, greedy
    quantifiers, alternatives tried left to right). *)

From Stdlib Require Import String Ascii.
From Stdlib Require Import List NArith Bool Arith Lia.
Import ListNotations.

Set Implicit Arguments.

(** ** Strings *)

Definition char := N.
Definition jsstring := list char.

Definition ch (a : ascii) : char := N_of_ascii a.

(** An ASCII literal as a JavaScript string. *)
Definition str (s : string) : jsstring := map N_of_ascii (list_ascii_of_string s).

Fixpoint streq (a b : jsstring) : bool :=
  match a, b with
  | [], [] => true
  | x :: a', y :: b' => N.eqb x y && streq a' b'
  | _, _ => false
  end.

Fixpoint starts_with (p s : jsstring) : bool :=
  match p, s with
  | [], _ => true
  | x :: p', y :: s' => N.eqb x y && starts_with p' s'
  | _ :: _, [] => false
  end.

(** [s.indexOf(needle)]; [None] stands for [-1]. *)
Fixpoint indexOf (needle s : jsstring) : option nat :=
  if starts_with needle s then Some 0
  else match s with
       | [] => None
       | _ :: s' => option_map S (indexOf needle s')
       end.

(** [arr.indexOf(x)] on an array of strings. *)
Fixpoint array_indexOf (x : jsstring) (arr : list jsstring) : option nat :=
  match arr with
  | [] => None
  | y :: arr' => if streq y x then Some 0 else option_map S (array_indexOf x arr')
  end.

(** [s.substring(a, b)] for non-negative arguments. *)
Definition substring (a b : nat) (s : jsstring) : jsstring :=
  firstn (Nat.max a b - Nat.min a b) (skipn (Nat.min a b) s).

(** [s.split(sep)] for a non-empty separator: [skip] counts the code units of
    a separator that is being stepped over, [cur] holds the current piece in
    reverse. *)
Fixpoint split_go (sep s : jsstring) (skip : nat) (cur : jsstring) : list jsstring :=
  match s with
  | [] => [rev cur]
  | c :: s' =>
      match skip with
      | S k => split_go sep s' k cur
      | O => if starts_with sep s
             then rev cur :: split_go sep s' (length sep - 1) []
             else split_go sep s' 0 (c :: cur)
      end
  end.

Definition split (sep s : jsstring) : list jsstring := split_go sep s 0 [].

(** [arr.join(sep)] *)
Fixpoint join (sep : jsstring) (ls : list jsstring) : jsstring :=
  match ls with
  | [] => []
  | [l] => l
  | l :: ls' => l ++ sep ++ join sep ls'
  end.

(** White space and line terminators stripped by [String.prototype.trim]. *)
Definition is_space (c : char) : bool :=
  existsb (N.eqb c)
    [9; 10; 11; 12; 13; 32; 160; 5760; 8192; 8193; 8194; 8195; 8196; 8197;
     8198; 8199; 8200; 8201; 8202; 8232; 8233; 8239; 8287; 12288; 65279]%N.

Fixpoint trim_start (s : jsstring) : jsstring :=
  match s with
  | c :: s' => if is_space c then trim_start s' else s
  | [] => []
  end.

Definition trim (s : jsstring) : jsstring := rev (trim_start (rev (trim_start s))).

(** ** Regular expressions *)

(** [Cls neg cs] is a character class: [[cs]] when [neg] is false, [[^cs]]
    when it is true. *)
Inductive regex : Type :=
| Cls (neg : bool) (cs : list char)
| Eps
| Seq (a b : regex)
| Alt (a b : regex)
| Star (a : regex).

Definition chr (a : ascii) : regex := Cls false [ch a].
Definition nchr (a : ascii) : regex := Cls true [ch a].
Definition plus (r : regex) : regex := Seq r (Star r).
(** [.] matches everything but the line terminators. *)
Definition dot : regex := Cls true [10; 13; 8232; 8233]%N.

Fixpoint lit_of (s : jsstring) : regex :=
  match s with
  | [] => Eps
  | c :: s' => Seq (Cls false [c]) (lit_of s')
  end.

Definition lit (s : string) : regex := lit_of (str s).

Fixpoint regex_eqb (r1 r2 : regex) : bool :=
  match r1, r2 with
  | Cls n1 c1, Cls n2 c2 => Bool.eqb n1 n2 && streq c1 c2
  | Eps, Eps => true
  | Seq a1 b1, Seq a2 b2 => regex_eqb a1 a2 && regex_eqb b1 b2
  | Alt a1 b1, Alt a2 b2 => regex_eqb a1 a2 && regex_eqb b1 b2
  | Star a1, Star a2 => regex_eqb a1 a2
  | _, _ => false
  end.

(** The matcher is written in continuation-passing style: [k] receives the
    rest of the input once the expression has matched a prefix, and answers
    with the rest left by the whole match, or [None] to make the matcher
    backtrack. *)
Definition cont := jsstring -> option jsstring.

(** A greedy star: try one more iteration first and fall back on the
    continuation.  An iteration that consumes nothing is rejected, so the
    length of the input bounds the number of iterations. *)
Fixpoint star_loop (body : jsstring -> cont -> option jsstring)
         (fuel : nat) (s : jsstring) (k : cont) : option jsstring :=
  match fuel with
  | O => k s
  | S fuel' =>
      match body s (fun s' => if length s' <? length s
                              then star_loop body fuel' s' k else None) with
      | Some r => Some r
      | None => k s
      end
  end.

Fixpoint rmatch (r : regex) (s : jsstring) (k : cont) {struct r} : option jsstring :=
  match r with
  | Cls neg cs =>
      match s with
      | c :: s' => if xorb neg (existsb (N.eqb c) cs) then k s' else None
      | [] => None
      end
  | Eps => k s
  | Seq a b => rmatch a s (fun s' => rmatch b s' k)
  | Alt a b => match rmatch a s k with
               | Some x => Some x
               | None => rmatch b s k
               end
  | Star a => star_loop (rmatch a) (length s) s k
  end.

(** Length of the match of [r] that starts at the head of [s]. *)
Definition exec (r : regex) (s : jsstring) : option nat :=
  match rmatch r s Some with
  | Some rest => Some (length s - length rest)
  | None => None
  end.

(** [/^r$/.test(s)] *)
Definition test_whole (r : regex) (s : jsstring) : bool :=
  match rmatch r s (fun rest => match rest with [] => Some [] | _ => None end) with
  | Some _ => true
  | None => false
  end.

(** A string cut by a global regular expression: code units outside every
    match and the successive matches. *)
Inductive tok : Type :=
| Lit (c : char)
| Hit (m : jsstring).

Fixpoint scan (r : regex) (fuel : nat) (s : jsstring) : list tok :=
  match fuel with
  | O => []
  | S fuel' =>
      let step := match s with
                  | [] => []
                  | c :: s' => Lit c :: scan r fuel' s'
                  end in
      match exec r s with
      | Some O => Hit [] :: step
      | Some (S n) => Hit (firstn (S n) s) :: scan r fuel' (skipn (S n) s)
      | None => step
      end
  end.

Definition tokens (r : regex) (s : jsstring) : list tok := scan r (S (length s)) s.

Fixpoint hits (ts : list tok) : list jsstring :=
  match ts with
  | [] => []
  | Lit _ :: ts' => hits ts'
  | Hit m :: ts' => m :: hits ts'
  end.

(** [s.match(r) || []] for a global [r]. *)
Definition matches (r : regex) (s : jsstring) : list jsstring := hits (tokens r s).

(** Replacement by a callback that may read and update a state (the
    counters of [populateTemplate]). *)
Fixpoint subst (St : Type) (f : St -> jsstring -> jsstring * St)
         (st : St) (ts : list tok) : jsstring * St :=
  match ts with
  | [] => ([], st)
  | Lit c :: ts' => let (out, st') := subst f st ts' in (c :: out, st')
  | Hit m :: ts' =>
      let (rep, st1) := f st m in
      let (out, st2) := subst f st1 ts' in
      (rep ++ out, st2)
  end.

Definition replace_with (St : Type) (r : regex)
           (f : St -> jsstring -> jsstring * St) (st : St) (s : jsstring)
  : jsstring * St :=
  subst f st (tokens r s).

(** [s.replace(r, f)] for a global [r] and a pure callback. *)
Definition replace_fn (r : regex) (f : jsstring -> jsstring) (s : jsstring) : jsstring :=
  fst (replace_with r (fun (_ : unit) m => (f m, tt)) tt s).

(** [s.replace(r, rep)] where [rep] holds no [$] pattern. *)
Definition replace (r : regex) (rep s : jsstring) : jsstring :=
  replace_fn r (fun _ => rep) s.

(** ** The constants of the module *)

(** [/\$(\\\$|[^\$])+\$/g] *)
Definition MATH_REGEX : regex :=
  Seq (chr "$") (Seq (plus (Alt (Seq (chr "\") (chr "$")) (nchr "$"))) (chr "$")).

(** [/\!\[\]\([^)]+\)/g] *)
Definition GRAPHIE_REGEX : regex :=
  Seq (chr "!") (Seq (chr "[") (Seq (chr "]") (Seq (chr "(")
    (Seq (plus (nchr ")")) (chr ")"))))).

(** [/\[\[[☃][^\]]+\]\]/g] *)
Definition WIDGET_REGEX : regex :=
  Seq (chr "[") (Seq (chr "[") (Seq (Cls false [9731%N])
    (Seq (plus (nchr "]")) (Seq (chr "]") (chr "]"))))).

(** [/\*\*.*\*\*/g] *)
Definition BOLD_REGEX : regex :=
  Seq (chr "*") (Seq (chr "*") (Seq (Star dot) (Seq (chr "*") (chr "*")))).

(** [/__MATH__[\t ]*__WIDGET__/g] *)
Definition MATH_WIDGET_REGEX : regex :=
  Seq (lit "__MATH__") (Seq (Star (Cls false [9; 32]%N)) (lit "__WIDGET__")).

Definition LINE_BREAK : jsstring := [10; 10]%N.

Definition MATH_PH : jsstring := Eval cbv in str "__MATH__".
Definition GRAPHIE_PH : jsstring := Eval cbv in str "__GRAPHIE__".
Definition WIDGET_PH : jsstring := Eval cbv in str "__WIDGET__".
Definition MATH_WIDGET_PH : jsstring := Eval cbv in str "__MATH__ __WIDGET__".
Definition PT : jsstring := Eval cbv in str "pt".

(** Errors: the [Error] objects the module creates, and the [TypeError] the
    engine raises on a call or a property read that cannot be done. *)
Inductive exn : Type :=
| Error (message : string)
| TypeError.

(** Outcome of a call: a value, or an exception that unwinds. *)
Inductive completion (A : Type) : Type :=
| Normal (a : A)
| Throw (e : exn).
Arguments Normal {A} a.
Arguments Throw {A} e.

Definition bind (A B : Type) (c : completion A) (f : A -> completion B) : completion B :=
  match c with
  | Normal a => f a
  | Throw e => Throw e
  end.

Notation "x <- c ;; k" := (bind c (fun x => k))
  (at level 61, c at next level, right associativity).

(** ** normalizeString *)

Definition normalizeString (s : jsstring) : jsstring :=
  let s1 := replace MATH_REGEX MATH_PH s in
  let s2 := replace GRAPHIE_REGEX GRAPHIE_PH s1 in
  let s3 := replace WIDGET_REGEX WIDGET_PH s2 in
  let s4 := replace MATH_WIDGET_REGEX MATH_WIDGET_PH s3 in
  let s5 := replace_fn BOLD_REGEX (fun m => substring 2 (length m - 2) m) s4 in
  join LINE_BREAK (map trim (split LINE_BREAK s5)).

(** ** getMapping *)

Definition SEN_REGEX : regex := lit "\operatorname{sen}".
Definition SIN_REGEX : regex := lit "\sin".
Definition SIN : jsstring := Eval cbv in str "\sin".
Definition SEN : jsstring := Eval cbv in str "\operatorname{sen}".

(** The rewrite applied to a translated occurrence before it is looked up:
    [if (lang === 'pt') output = output.replace(/\\operatorname\{sen\}/g, '\\sin')]. *)
Definition rewrite_output (lang output : jsstring) : jsstring :=
  if streq lang PT then replace SEN_REGEX SIN output else output.

(** The error thrown for an occurrence that is not found; [findRegex] is
    compared with the three constants. *)
Definition mismatch (findRegex : regex) : exn :=
  if regex_eqb findRegex MATH_REGEX then Error "math doesn't match"
  else if regex_eqb findRegex GRAPHIE_REGEX then Error "graphies don't match"
  else if regex_eqb findRegex WIDGET_REGEX then Error "widgets don't match"
  else Error
   "the only acceptable values for getFunc are getMaths, getGraphies, and getWdigets".

(** The body of [outputs.forEach]: the mapping grows by one index per
    output, and the first output that is not found throws. *)
Fixpoint mapOutputs (lang : jsstring) (findRegex : regex)
         (inputs outputs : list jsstring) : completion (list nat) :=
  match outputs with
  | [] => Normal []
  | output :: outputs' =>
      match array_indexOf (rewrite_output lang output) inputs with
      | None => Throw (mismatch findRegex)
      | Some inputIndex =>
          mapping <- mapOutputs lang findRegex inputs outputs' ;;
          Normal (inputIndex :: mapping)
      end
  end.

Definition getMapping (englishStr translatedStr lang : jsstring) (findRegex : regex)
  : completion (list nat) :=
  let inputs := matches findRegex englishStr in
  let outputs := matches findRegex translatedStr in
  mapOutputs lang findRegex inputs outputs.

(** ** createTemplate *)

Record template : Type := {
  lines : list jsstring;
  mathMapping : list nat;
  graphieMapping : list nat;
  widgetMapping : list nat
}.

Definition templateLine_of (line : jsstring) : jsstring :=
  replace WIDGET_REGEX WIDGET_PH
    (replace GRAPHIE_REGEX GRAPHIE_PH
       (replace MATH_REGEX MATH_PH line)).

(** The object literal is evaluated field by field inside [try]; an
    exception is caught and returned. *)
Definition createTemplate (englishStr translatedStr lang : jsstring) : template + exn :=
  let translatedLines := split LINE_BREAK translatedStr in
  let built :=
    mm <- getMapping englishStr translatedStr lang MATH_REGEX ;;
    gm <- getMapping englishStr translatedStr lang GRAPHIE_REGEX ;;
    wm <- getMapping englishStr translatedStr lang WIDGET_REGEX ;;
    Normal {| lines := map templateLine_of translatedLines;
              mathMapping := mm; graphieMapping := gm; widgetMapping := wm |} in
  match built with
  | Normal t => inl t
  | Throw e => inr e
  end.

(** ** translateMath *)

(** What [translateMath] may receive as [lang]: a locale string, or the
    array index that [Array.prototype.map] passes as second argument. *)
Inductive jsval : Type :=
| VStr (s : jsstring)
| VNum (n : nat).

(** [v === 'pt'] *)
Definition is_pt (v : jsval) : bool :=
  match v with
  | VStr s => streq s PT
  | VNum _ => false
  end.

Definition translateMath (math : jsstring) (lang : jsval) : jsstring :=
  if is_pt lang then replace SIN_REGEX SEN math else math.

(** [arr.map(f)] calls [f(element, index, array)]. *)
Fixpoint map_indexed (A B : Type) (f : A -> nat -> B) (i : nat) (l : list A) : list B :=
  match l with
  | [] => []
  | x :: l' => f x i :: map_indexed f (S i) l'
  end.

(** ** populateTemplate *)

Definition UNDEFINED : jsstring := Eval cbv in str "undefined".

(** [arr[mapping[i]]] as a replacement text: a read outside an array is
    [undefined], which [replace] writes as the text [undefined]. *)
Definition pick (arr : list jsstring) (mapping : list nat) (i : nat) : jsstring :=
  match nth_error mapping i with
  | Some j => match nth_error arr j with
              | Some x => x
              | None => UNDEFINED
              end
  | None => UNDEFINED
  end.

(** The callback [() => arr[mapping[index++]]]. *)
Definition fill (arr : list jsstring) (mapping : list nat)
  : nat -> jsstring -> jsstring * nat :=
  fun index _ => (pick arr mapping index, S index).

Record counters : Type := {
  mathIndex : nat;
  graphieIndex : nat;
  widgetIndex : nat
}.

Definition populateLine (t : template) (maths graphies widgets : list jsstring)
           (st : counters) (templateLine : jsstring) : jsstring * counters :=
  let (l1, mi) := replace_with (lit "__MATH__") (fill maths (mathMapping t))
                               (mathIndex st) templateLine in
  let (l2, gi) := replace_with (lit "__GRAPHIE__") (fill graphies (graphieMapping t))
                               (graphieIndex st) l1 in
  let (l3, wi) := replace_with (lit "__WIDGET__") (fill widgets (widgetMapping t))
                               (widgetIndex st) l2 in
  (l3, {| mathIndex := mi; graphieIndex := gi; widgetIndex := wi |}).

(** [englishLines.map((englishLine, index) => ...)]: the English line itself
    is not read, only its index; a template without a line at that index
    makes [templateLine.replace] throw. *)
Fixpoint populateLines (t : template) (maths graphies widgets : list jsstring)
         (englishLines : list jsstring) (index : nat) (st : counters)
  : completion (list jsstring) :=
  match englishLines with
  | [] => Normal []
  | _ :: englishLines' =>
      match nth_error (lines t) index with
      | None => Throw TypeError
      | Some templateLine =>
          let (l, st') := populateLine t maths graphies widgets st templateLine in
          ls <- populateLines t maths graphies widgets englishLines' (S index) st' ;;
          Normal (l :: ls)
      end
  end.

(** [lang] is a parameter of the function and is not read by its body:
    [maths.map(translateMath)] hands every math its array index as [lang]. *)
Definition populateTemplate (t : template) (englishStr lang : jsstring)
  : completion jsstring :=
  let englishLines := split LINE_BREAK englishStr in
  let maths := matches MATH_REGEX englishStr in
  let graphies := matches GRAPHIE_REGEX englishStr in
  let widgets := matches WIDGET_REGEX englishStr in
  let maths := map_indexed (fun math index => translateMath math (VNum index)) 0 maths in
  ls <- populateLines t maths graphies widgets englishLines 0
          {| mathIndex := 0; graphieIndex := 0; widgetIndex := 0 |} ;;
  Normal (join LINE_BREAK ls).

(** ** findTranslationPair *)

(** An element of a translation pair: a string or [null]. *)
Definition truthy (v : option jsstring) : bool :=
  match v with
  | Some (_ :: _) => true
  | _ => false
  end.

Definition or_empty (v : option jsstring) : jsstring :=
  match v with
  | Some s => s
  | None => []
  end.

Fixpoint findTranslationPair (translationPairs : list (option jsstring * option jsstring))
  : (jsstring * jsstring) + exn :=
  match translationPairs with
  | [] => inr (Error "couldn't find translation pair")
  | candidate :: rest =>
      if truthy (fst candidate) && truthy (snd candidate)
      then inl (or_empty (fst candidate), or_empty (snd candidate))
      else findTranslationPair rest
  end.

(** ** Objects used as maps *)

(** A plain object created by [{}]: its own properties in creation order.
    A read of a key that is not an own property goes to [Object.prototype]. *)
Definition object (V : Type) := list (jsstring * V).

Definition Object_prototype : list jsstring :=
  map str ["constructor"; "hasOwnProperty"; "isPrototypeOf";
           "propertyIsEnumerable"; "toLocaleString"; "toString"; "valueOf";
           "__proto__"; "__defineGetter__"; "__defineSetter__";
           "__lookupGetter__"; "__lookupSetter__"]%string.

Definition inherited (key : jsstring) : bool := existsb (streq key) Object_prototype.

Fixpoint own (V : Type) (o : object V) (key : jsstring) : option V :=
  match o with
  | [] => None
  | (k, v) :: o' => if streq k key then Some v else own o' key
  end.

Fixpoint update (V : Type) (o : object V) (key : jsstring) (f : V -> V) : object V :=
  match o with
  | [] => []
  | (k, v) :: o' => if streq k key then (k, f v) :: o' else (k, v) :: update o' key f
  end.

(** [Object.keys(o)], up to the order of the keys. *)
Definition keys (V : Type) (o : object V) : list jsstring := map fst o.

Section Items.

(** Items are opaque; the caller's accessor gives their English string. *)
Variable Item : Type.
Variable getEnglishStr : Item -> jsstring.

(** ** group *)

(** One turn of [items.forEach]: [stringMatches[str]] is an own bucket, or
    a member of [Object.prototype] (truthy, and without a [push] method,
    so the call throws), or [undefined]. *)
Definition group_step (stringMatches : object (list Item)) (obj : Item)
  : completion (object (list Item)) :=
  let str := normalizeString (getEnglishStr obj) in
  match own stringMatches str with
  | Some _ => Normal (update stringMatches str (fun bucket => bucket ++ [obj]))
  | None => if inherited str then Throw TypeError
            else Normal (stringMatches ++ [(str, [obj])])
  end.

Fixpoint group_loop (stringMatches : object (list Item)) (items : list Item)
  : completion (object (list Item)) :=
  match items with
  | [] => Normal stringMatches
  | obj :: items' =>
      stringMatches' <- group_step stringMatches obj ;;
      group_loop stringMatches' items'
  end.

Definition group (items : list Item) : completion (object (list Item)) :=
  group_loop [] items.

(** ** autoTranslatePlaceholders *)

(** First component of a suggestion pair: an item, or a string. *)
Inductive subject : Type :=
| OfItem (item : Item)
| OfString (s : jsstring).

Definition suggestion : Type := (subject * option jsstring)%type.

(** [/^(__MATH__|__GRAPHIE__|__WIDGET__)$/] *)
Definition ONLY_PLACEHOLDER : regex :=
  Alt (lit "__MATH__") (Alt (lit "__GRAPHIE__") (lit "__WIDGET__")).

Definition TEXT : jsstring := Eval cbv in str "\text".

Definition autoTranslate1 (lang : jsstring) (item : Item) : suggestion :=
  let englishStr := getEnglishStr item in
  let normalStr := normalizeString englishStr in
  if test_whole ONLY_PLACEHOLDER normalStr then
    if streq normalStr MATH_PH then
      match indexOf TEXT englishStr with
      | Some _ => (OfString englishStr, None)
      | None => (OfItem item, Some (translateMath englishStr (VStr lang)))
      end
    else (OfItem item, Some englishStr)
  else (OfItem item, None).

Definition autoTranslatePlaceholders (items : list Item) (lang : jsstring)
  : list suggestion :=
  map (autoTranslate1 lang) items.

(** ** suggest *)

Fixpoint populateAll (t : template) (lang : jsstring) (items : list Item)
  : completion (list suggestion) :=
  match items with
  | [] => Normal []
  | item :: items' =>
      s <- populateTemplate t (getEnglishStr item) lang ;;
      rest <- populateAll t lang items' ;;
      Normal ((OfItem item, Some s) :: rest)
  end.

(** The result is an array of pairs or a returned [Error]; an exception
    raised on the way is not caught. *)
Definition suggest (translationPairs : list (option jsstring * option jsstring))
           (items : list Item) (lang : jsstring)
  : completion (list suggestion + exn) :=
  let found := findTranslationPair translationPairs in
  groups <- group items ;;
  match found with
  | inr _ => Normal (inl (autoTranslatePlaceholders items lang))
  | inl (englishStr, translatedStr) =>
      if 1 <? length (keys groups)
      then Normal (inl (autoTranslatePlaceholders items lang))
      else match createTemplate englishStr translatedStr lang with
           | inr e => Normal (inr e)
           | inl t =>
               pairs <- populateAll t lang items ;;
               Normal (inl pairs)
           end
  end.

End Items.

Arguments OfItem {Item} item.
Arguments OfString {Item} s.

(** ** Vocabulary of the properties *)

(** The three kinds of special substring, each with its regular expression
    and with the message of the error raised when an occurrence of that kind
    has no counterpart. *)
Inductive kind : Type := Math | Graphie | Widget.

Definition regex_of (k : kind) : regex :=
  match k with
  | Math => MATH_REGEX
  | Graphie => GRAPHIE_REGEX
  | Widget => WIDGET_REGEX
  end.

Definition message_of (k : kind) : string :=
  match k with
  | Math => "math doesn't match"
  | Graphie => "graphies don't match"
  | Widget => "widgets don't match"
  end.

(** Number of paragraphs of a string. *)
Definition paragraphs (s : jsstring) : nat := length (split LINE_BREAK s).

(** The items of the examples: objects with an [englishStr] and an [id]. *)
Record item : Type := { englishStr : jsstring; id : nat }.

(** The text of a cut string. *)
Fixpoint flat (ts : list tok) : jsstring :=
  match ts with
  | [] => []
  | Lit c :: ts' => c :: flat ts'
  | Hit m :: ts' => m ++ flat ts'
  end.

(** A translated occurrence of kind [k] that has no counterpart in the
    English string. *)
Definition unmatched (k : kind) (englishStr translatedStr lang : jsstring) : Prop :=
  exists o, In o (matches (regex_of k) translatedStr) /\
            ~ In (rewrite_output lang o) (matches (regex_of k) englishStr).

(** The strings of the examples. *)
Definition ES : jsstring := Eval cbv in str "es".

Definition english_ref : jsstring :=
  str "simplify $2/4$" ++ LINE_BREAK ++ str "hint: the denominator is $2$".

(** [233] is the code unit of e with an acute accent. *)
Definition translated_ref : jsstring :=
  str "simplifique $2/4$" ++ LINE_BREAK ++ str "pista: o denominador " ++ [233%N] ++ str " $2$".

Definition english_new : jsstring :=
  str "simplify $3/12$" ++ LINE_BREAK ++ str "hint: the denominator is $4$".

Definition translated_new : jsstring :=
  str "simplifique $3/12$" ++ LINE_BREAK ++ str "pista: o denominador " ++ [233%N] ++ str " $4$".

(** Line feeds: whether a string starts or ends with one, and whether it
    holds the paragraph delimiter. *)
Definition starts_nl (s : jsstring) : bool :=
  match s with
  | c :: _ => N.eqb c 10
  | [] => false
  end.

Definition ends_nl (s : jsstring) : bool := starts_nl (rev s).

Fixpoint has_lb (s : jsstring) : bool :=
  match s with
  | [] => false
  | c :: s' => (N.eqb c 10 && starts_nl s') || has_lb s'
  end.

(** A piece that can stand before a delimiter and be found again by
    [split]: no delimiter inside, no line feed at its end. *)
Definition closed_line (l : jsstring) : Prop := has_lb l = false /\ ends_nl l = false.

(** The shape of the result of [split]: only the last piece may end with a
    line feed. *)
Fixpoint lines_ok (ls : list jsstring) : Prop :=
  match ls with
  | [] => False
  | [l] => has_lb l = false
  | l :: ls' => closed_line l /\ lines_ok ls'
  end.

(** A text that can replace a match without adding a paragraph: not
    empty, no delimiter inside, no line feed at either end. *)
Definition solid (g : jsstring) : Prop :=
  g <> [] /\ has_lb g = false /\ starts_nl g = false /\ ends_nl g = false.

(** The strings an expression denotes, whatever the order in which the
    matcher tries them. *)
Fixpoint accepts (r : regex) (p : jsstring) : Prop :=
  match r with
  | Cls neg cs => exists c, p = [c] /\ xorb neg (existsb (N.eqb c) cs) = true
  | Eps => p = []
  | Seq a b => exists p1 p2, p = p1 ++ p2 /\ accepts a p1 /\ accepts b p2
  | Alt a b => accepts a p \/ accepts b p
  | Star a => exists ps, p = concat ps /\ Forall (accepts a) ps
  end.

(** A normal form on which a second normalization has nothing left to
    replace: no Math, Graphie, Widget or bold match, and no
    [__MATH__]/[__WIDGET__] pair but the one written with a single space. *)
Definition settled (n : jsstring) : Prop :=
  matches MATH_REGEX n = [] /\
  matches GRAPHIE_REGEX n = [] /\
  matches WIDGET_REGEX n = [] /\
  Forall (fun m => m = MATH_WIDGET_PH) (matches MATH_WIDGET_REGEX n) /\
  matches BOLD_REGEX n = [].

Definition snowman : jsstring := [9731%N].

(** What a line keeps when it is rewritten: no delimiter, and no line feed
    at the end. *)
Definition keeps_lines (before after : jsstring) : Prop :=
  (has_lb before = false -> has_lb after = false) /\
  (ends_nl before = false -> ends_nl after = false).

(** The template cut down to its first [n] lines. *)
Definition truncate (n : nat) (t : template) : template :=
  {| lines := firstn n (lines t);
     mathMapping := mathMapping t;
     graphieMapping := graphieMapping t;
     widgetMapping := widgetMapping t |}.

(** ** Translated strings made of plain text and occurrences *)

(** A translated paragraph is read as a leading text followed by chunks: an
    occurrence of some kind, given by its body, and the text that follows
    it. *)
Record chunk : Type := { ckind : kind; cbody : jsstring; cafter : jsstring }.

Record para : Type := { lead : jsstring; chunks : list chunk }.

Definition opener (k : kind) : jsstring :=
  match k with
  | Math => [36]
  | Graphie => [33; 91; 93; 40]
  | Widget => [91; 91; 9731]
  end%N.

Definition closer (k : kind) : jsstring :=
  match k with
  | Math => [36]
  | Graphie => [41]
  | Widget => [93; 93]
  end%N.

(** [$body$], [![](body)] and [[[☃body]]]. *)
Definition wrap (k : kind) (body : jsstring) : jsstring := opener k ++ body ++ closer k.

Definition placeholder (k : kind) : jsstring :=
  match k with
  | Math => MATH_PH
  | Graphie => GRAPHIE_PH
  | Widget => WIDGET_PH
  end.

(** Which kinds are written as placeholders: nothing in the translated
    string, everything in a template line, and the stages in between. *)
Record view : Type := { phMath : bool; phGraphie : bool; phWidget : bool }.

Definition hidden (v : view) (k : kind) : bool :=
  match k with
  | Math => phMath v
  | Graphie => phGraphie v
  | Widget => phWidget v
  end.

Definition shown (v : view) (c : chunk) : jsstring :=
  if hidden v (ckind c) then placeholder (ckind c) else wrap (ckind c) (cbody c).

Definition render_chunks (v : view) (cs : list chunk) : jsstring :=
  flat_map (fun c => shown v c ++ cafter c) cs.

Definition render (v : view) (p : para) : jsstring := lead p ++ render_chunks v (chunks p).

Definition raw : view := {| phMath := false; phGraphie := false; phWidget := false |}.
Definition masked : view := {| phMath := true; phGraphie := true; phWidget := true |}.

(** The paragraph as it stands in the translated string. *)
Definition source (p : para) : jsstring := render raw p.

Definition kind_eqb (a b : kind) : bool :=
  match a, b with
  | Math, Math | Graphie, Graphie | Widget, Widget => true
  | _, _ => false
  end.

(** The occurrences of kind [k] of a paragraph, in order. *)
Definition occurrences (k : kind) (cs : list chunk) : list jsstring :=
  map (fun c => wrap k (cbody c)) (filter (fun c => kind_eqb (ckind c) k) cs).

Definition none_of (cs : list char) (s : jsstring) : bool :=
  forallb (fun c => negb (existsb (N.eqb c) cs)) s.

(** Nowhere [a] followed by [b]. *)
Fixpoint no_pair (a b : char) (s : jsstring) : bool :=
  match s with
  | [] => true
  | c :: s' => negb (N.eqb c a && match s' with c' :: _ => N.eqb c' b | [] => false end)
               && no_pair a b s'
  end.

(** In a math a dollar sign stands only after a backslash that escapes it,
    and the last code unit is no backslash that would escape the closing
    dollar sign: the alternative [\\\$|[^\$]] reads the body one escaped
    dollar or one other code unit at a time, to its end. *)
Fixpoint escaped (s : jsstring) : bool :=
  match s with
  | [] => true
  | c :: s' =>
      if N.eqb c 92
      then match s' with
           | [] => false
           | c' :: s'' => if N.eqb c' 36 then escaped s'' else escaped s'
           end
      else negb (N.eqb c 36) && escaped s'
  end.

(** Plain text holds none of [$], [[] and [_]. *)
Definition plain (t : jsstring) : bool := none_of [36; 91; 95]%N t.

(** The bodies: a math holds no [$] but escaped ones, ends with no
    escaping backslash and has nowhere two underscores, two opening
    brackets, or an exclamation mark and an opening bracket, in a row; a
    graphie holds no [)], [$] or [[] and no two underscores in a row; a
    widget holds no []], [$] or [!].  None is empty. *)
Definition body_ok (k : kind) (body : jsstring) : bool :=
  match body with
  | [] => false
  | _ =>
      match k with
      | Math => escaped body && no_pair 95%N 95%N body && no_pair 91%N 91%N body
                && no_pair 33%N 91%N body
      | Graphie => none_of [41; 36; 91]%N body && no_pair 95%N 95%N body
      | Widget => none_of [93; 36; 33]%N body
      end
  end.

Definition MATH_WORD : jsstring := Eval cbv in str "MATH".
Definition GRAPHIE_WORD : jsstring := Eval cbv in str "GRAPHIE".

(** The text after a graphie or a widget is not the bare name of a
    placeholder that is looked for while that occurrence is still masked. *)
Definition after_ok (k : kind) (after : jsstring) : bool :=
  match k with
  | Math => true
  | Graphie => negb (streq after MATH_WORD)
  | Widget => negb (streq after MATH_WORD) && negb (streq after GRAPHIE_WORD)
  end.

Definition chunk_ok (c : chunk) : bool :=
  body_ok (ckind c) (cbody c) && plain (cafter c) && after_ok (ckind c) (cafter c).

Definition para_ok (p : para) : bool := plain (lead p) && forallb chunk_ok (chunks p).

(** ** Strings cut into plain and special segments *)

(** A string laid out for one pass of [match] or [replace]: the special
    segments are the matches the pass must find, the plain ones hold none. *)
Inductive seg : Type :=
| Plain (s : jsstring)
| Special (m : jsstring).

Fixpoint text_of (segs : list seg) : jsstring :=
  match segs with
  | [] => []
  | Plain s :: rest => s ++ text_of rest
  | Special m :: rest => m ++ text_of rest
  end.

Fixpoint toks_of (segs : list seg) : list tok :=
  match segs with
  | [] => []
  | Plain s :: rest => map Lit s ++ toks_of rest
  | Special m :: rest => Hit m :: toks_of rest
  end.

Fixpoint specials (segs : list seg) : list jsstring :=
  match segs with
  | [] => []
  | Plain _ :: rest => specials rest
  | Special m :: rest => m :: specials rest
  end.

(** The layout is the one the expression finds: no match starts inside a
    plain segment, and each special segment is the match found at its
    start. *)
Fixpoint cut_by (r : regex) (segs : list seg) : Prop :=
  match segs with
  | [] => True
  | Plain s :: rest =>
      (forall s1 c s2, s = s1 ++ c :: s2 -> exec r (c :: s2 ++ text_of rest) = None)
      /\ cut_by r rest
  | Special m :: rest =>
      m <> [] /\ exec r (m ++ text_of rest) = Some (length m) /\ cut_by r rest
  end.

(** The text a stateful replacement writes for a layout. *)
Fixpoint fill_segs (St : Type) (f : St -> jsstring -> jsstring * St)
         (st : St) (segs : list seg) : jsstring * St :=
  match segs with
  | [] => ([], st)
  | Plain s :: rest => let (out, st') := fill_segs f st rest in (s ++ out, st')
  | Special m :: rest =>
      let (rep, st1) := f st m in
      let (out, st2) := fill_segs f st1 rest in
      (rep ++ out, st2)
  end.

(** A string that can hold no start of a match, whatever follows it. *)
Definition inert (r : regex) (s : jsstring) : Prop :=
  forall s1 c s2 R, s = s1 ++ c :: s2 -> exec r (c :: s2 ++ R) = None.

(** What a pass looks for: the occurrences of a kind, by the expression of
    that kind, or the placeholders of a kind, by their text. *)
Inductive needle : Type :=
| Occurrence (k : kind)
| Token (k : kind).

Definition regex_for (n : needle) : regex :=
  match n with
  | Occurrence k => regex_of k
  | Token k => lit_of (placeholder k)
  end.

Definition set_view (v : view) (k : kind) (b : bool) : view :=
  match k with
  | Math => {| phMath := b; phGraphie := phGraphie v; phWidget := phWidget v |}
  | Graphie => {| phMath := phMath v; phGraphie := b; phWidget := phWidget v |}
  | Widget => {| phMath := phMath v; phGraphie := phGraphie v; phWidget := b |}
  end.

(** The layout of a paragraph for a pass on the chunks of kind [k0]. *)
Definition seg_of (v : view) (k0 : kind) (c : chunk) : list seg :=
  [if kind_eqb (ckind c) k0 then Special (shown v c) else Plain (shown v c);
   Plain (cafter c)].

Definition segs_chunks (v : view) (k0 : kind) (cs : list chunk) : list seg :=
  flat_map (seg_of v k0) cs.

Definition segs_of (v : view) (k0 : kind) (p : para) : list seg :=
  Plain (lead p) :: segs_chunks v k0 (chunks p).

(** The code unit every match of a pass starts with. *)
Definition first_of (n : needle) : char :=
  match n with
  | Occurrence Math => 36
  | Occurrence Graphie => 33
  | Occurrence Widget => 91
  | Token _ => 95
  end%N.

(** What may follow a text inside a paragraph: nothing, or the start of an
    occurrence or of a placeholder. *)
Definition opens (R : jsstring) : Prop :=
  match R with
  | [] => True
  | c :: R' => c = 36%N \/ c = 33%N \/
               (c = 91%N /\ exists R'', R' = 91%N :: R'') \/
               (c = 95%N /\ exists R'', R' = 95%N :: R'')
  end.

(** The conditions the occurrence passes need: plain texts and sound
    bodies. *)
Definition chunk_weak (c : chunk) : bool := body_ok (ckind c) (cbody c) && plain (cafter c).

Definition para_weak (p : para) : bool := plain (lead p) && forallb chunk_weak (chunks p).

(** Paragraphs joined by the delimiter, read as one paragraph. *)
Fixpoint snoc_after (cs : list chunk) (t : jsstring) : list chunk :=
  match cs with
  | [] => []
  | [c] => [{| ckind := ckind c; cbody := cbody c; cafter := cafter c ++ t |}]
  | c :: cs' => c :: snoc_after cs' t
  end.

Definition glue (p q : para) : para :=
  match chunks p with
  | [] => {| lead := lead p ++ LINE_BREAK ++ lead q; chunks := chunks q |}
  | cs => {| lead := lead p; chunks := snoc_after cs (LINE_BREAK ++ lead q) ++ chunks q |}
  end.

Fixpoint merge (ps : list para) : para :=
  match ps with
  | [] => {| lead := []; chunks := [] |}
  | [p] => p
  | p :: ps' => glue p (merge ps')
  end.

(** A property of every non-empty suffix of a string. *)
Fixpoint each_suffix (Q : jsstring -> Prop) (s : jsstring) : Prop :=
  match s with
  | [] => True
  | c :: s' => Q (c :: s') /\ each_suffix Q s'
  end.

Definition WIDGET_WORD : jsstring := Eval cbv in str "WIDGET".

(** The bare name inside the placeholder of a kind. *)
Definition word (k : kind) : jsstring :=
  match k with
  | Math => MATH_WORD
  | Graphie => GRAPHIE_WORD
  | Widget => WIDGET_WORD
  end.

(** The view a line is in when [populateTemplate] looks for the
    placeholders of kind [k]: math first, then graphies, then widgets. *)
Definition stage (k : kind) : view :=
  match k with
  | Math => masked
  | Graphie => {| phMath := false; phGraphie := true; phWidget := true |}
  | Widget => {| phMath := false; phGraphie := false; phWidget := true |}
  end.

(** The counters after the lines of some paragraphs. *)
Definition advance (st : counters) (p : para) : counters :=
  {| mathIndex := mathIndex st + length (occurrences Math (chunks p));
     graphieIndex := graphieIndex st + length (occurrences Graphie (chunks p));
     widgetIndex := widgetIndex st + length (occurrences Widget (chunks p)) |}.

Definition index_of (st : counters) (k : kind) : nat :=
  match k with
  | Math => mathIndex st
  | Graphie => graphieIndex st
  | Widget => widgetIndex st
  end.

Definition mapping_of (t : template) (k : kind) : list nat :=
  match k with
  | Math => mathMapping t
  | Graphie => graphieMapping t
  | Widget => widgetMapping t
  end.

(** The occurrences of kind [k] of a list of paragraphs, in order. *)
Definition occs (k : kind) (ps : list para) : list jsstring :=
  flat_map (fun p => occurrences k (chunks p)) ps.

(** A translation with a math that holds an escaped dollar sign, a graphie
    and a widget, in two paragraphs, and its English string, where the math
    and the graphie come in the other order. *)
Definition example_paras : list para :=
  [ {| lead := str "em ";
       chunks := [ {| ckind := Math; cbody := str "x_1 = \$4"; cafter := str " veja! " |};
                   {| ckind := Graphie; cbody := str "web+graphie://a/b"; cafter := [] |} ] |};
    {| lead := str "agora ";
       chunks := [ {| ckind := Widget; cbody := str " radio 1"; cafter := str " escolha" |} ] |} ].

Definition example_translated : jsstring :=
  str "em $x_1 = \$4$ veja! ![](web+graphie://a/b)" ++ LINE_BREAK
  ++ str "agora [[" ++ snowman ++ str " radio 1]] escolha".

Definition example_english : jsstring :=
  str "look! ![](web+graphie://a/b) at $x_1 = \$4$" ++ LINE_BREAK
  ++ str "pick [[" ++ snowman ++ str " radio 1]] now".

(** The items of a list whose English string has the normal form [key], in
    the order of the list. *)
Definition bucket_of (Item : Type) (getEnglishStr : Item -> jsstring)
           (key : jsstring) (items : list Item) : list Item :=
  filter (fun x => streq (normalizeString (getEnglishStr x)) key) items.

(** No item has a normal form that [{}] inherits from [Object.prototype]. *)
Definition no_inherited_key (Item : Type) (getEnglishStr : Item -> jsstring)
           (items : list Item) : Prop :=
  forall x, In x items -> inherited (normalizeString (getEnglishStr x)) = false.

(** The key under which [group] files an item. *)
Definition key_of (Item : Type) (getEnglishStr : Item -> jsstring) (x : Item) : jsstring :=
  normalizeString (getEnglishStr x).

(** The buckets after the items [done]: distinct keys, and under each key
    the items of that normal form, in order. *)
Definition grouped (Item : Type) (getEnglishStr : Item -> jsstring)
           (done : list Item) (g : object (list Item)) : Prop :=
  NoDup (keys g) /\
  forall k, own g k = match bucket_of getEnglishStr k done with
                      | [] => None
                      | b => Some b
                      end.

(** What a paragraph keeps when the bodies of its occurrences are
    forgotten: the leading text, and the kind and the following text of
    each chunk. *)
Definition shape (p : para) : jsstring * list (kind * jsstring) :=
  (lead p, map (fun c => (ckind c, cafter c)) (chunks p)).

(** The doc comment of [getMapping] gives this pair as its example. *)
Definition mapping_english : jsstring :=
  str "simplify $2/4$" ++ LINE_BREAK ++ str "hint: the denominator is $2$".

Definition mapping_translated : jsstring :=
  str "hintz: da denom $2$ iz $2$" ++ LINE_BREAK ++ str "simplifz $2/4$".

(** The pair of a suggestion stands for an item: it starts with the item,
    or, on the one path of the placeholder translator that returns the
    string instead, with its English string and holds [null]. *)
Definition pair_of (Item : Type) (getEnglishStr : Item -> jsstring)
           (x : Item) (r : suggestion Item) : Prop :=
  fst r = OfItem x \/ (fst r = OfString (getEnglishStr x) /\ snd r = None).

(** The layout of a string after a replacement of every match by [v]: the
    code units between the matches stay, each match has become [v]. *)
Fixpoint rewritten (v : jsstring) (ts : list tok) : list seg :=
  match ts with
  | [] => []
  | Lit c :: ts' => Plain [c] :: rewritten v ts'
  | Hit _ :: ts' => Special v :: rewritten v ts'
  end.

(** The reference translation of the documented example and the suggestion
    it gives, laid out as paragraphs. *)
Definition reference_paras : list para :=
  [ {| lead := str "simplifique ";
       chunks := [ {| ckind := Math; cbody := str "2/4"; cafter := [] |} ] |};
    {| lead := str "pista: o denominador " ++ [233%N] ++ str " ";
       chunks := [ {| ckind := Math; cbody := str "2"; cafter := [] |} ] |} ].

Definition suggested_paras : list para :=
  [ {| lead := str "simplifique ";
       chunks := [ {| ckind := Math; cbody := str "3/12"; cafter := [] |} ] |};
    {| lead := str "pista: o denominador " ++ [233%N] ++ str " ";
       chunks := [ {| ckind := Math; cbody := str "4"; cafter := [] |} ] |} ].

Definition reference_template : template :=
  {| lines := [str "simplifique __MATH__";
               str "pista: o denominador " ++ [233%N] ++ str " __MATH__"];
     mathMapping := [0; 1]; graphieMapping := []; widgetMapping := [] |}.

(** A paragraph in which the chunks of the kinds in [K] have been written
    out as the text [undefined]: such a chunk and the text after it join the
    text before it. *)
Fixpoint dissolve (K : kind -> bool) (text : jsstring) (cs : list chunk) : para :=
  match cs with
  | [] => {| lead := text; chunks := [] |}
  | c :: cs' =>
      if K (ckind c)
      then dissolve K (text ++ UNDEFINED ++ cafter c) cs'
      else let p := dissolve K (cafter c) cs' in
           {| lead := text;
              chunks := {| ckind := ckind c; cbody := cbody c; cafter := lead p |}
                        :: chunks p |}
  end.

(** A chunk as a pass writes it: by kind and body. *)
Definition chunk_text (g : kind -> jsstring -> jsstring) (K : kind -> bool) (c : chunk)
  : jsstring :=
  (if K (ckind c) then UNDEFINED else g (ckind c) (cbody c)) ++ cafter c.

Definition shown_as (v : view) (k : kind) (body : jsstring) : jsstring :=
  if hidden v k then placeholder k else wrap k body.

(** The paragraph with the text [undefined] for every occurrence. *)
Definition blank (p : para) : jsstring :=
  lead p ++ flat_map (fun c => UNDEFINED ++ cafter c) (chunks p).

(** A TeX command: a backslash and a name. *)
Definition command (name : jsstring) : jsstring := 92%N :: name.

(** A string made of the code units [cs] only. *)
Definition only_of (cs : list char) (s : jsstring) : bool :=
  forallb (fun c => existsb (N.eqb c) cs) s.

(** The bold marker of Markdown. *)
Definition BOLD_MARK : jsstring := [42; 42]%N.










(** * Properties *)

#[local] Arguments N.eqb !n !m.

(** ** Strings and arrays *)

Lemma streq_spec (a b : jsstring) : reflect (a = b) (streq a b).
Proof.
  revert b; induction a as [|x a IH]; intros [|y b]; simpl; try (constructor; congruence).
  destruct (N.eqb_spec x y) as [->|Hxy]; simpl.
  - destruct (IH b) as [->|Hab]; constructor; congruence.
  - constructor; congruence.
Qed.

Lemma streq_refl (a : jsstring) : streq a a = true.
Proof. destruct (streq_spec a a); congruence. Qed.

Lemma streq_true (a b : jsstring) : streq a b = true <-> a = b.
Proof. destruct (streq_spec a b); split; congruence. Qed.

Lemma array_indexOf_none (x : jsstring) (arr : list jsstring) :
  array_indexOf x arr = None <-> ~ In x arr.
Proof.
  induction arr as [|y arr IH]; simpl.
  - tauto.
  - destruct (streq_spec y x) as [->|Hne].
    + split; [discriminate | intros H; exfalso; apply H; now left].
    + destruct (array_indexOf x arr); simpl.
      * split; [discriminate|]. intros H; exfalso; apply H; right.
        destruct IH as [_ IH]. destruct (in_dec (list_eq_dec N.eq_dec) x arr); auto.
        specialize (IH n0); discriminate.
      * split; [|reflexivity]. intros _ [H|H]; [congruence|]. now apply IH.
Qed.

Lemma array_indexOf_some (x : jsstring) (arr : list jsstring) (i : nat) :
  array_indexOf x arr = Some i -> nth_error arr i = Some x.
Proof.
  revert i; induction arr as [|y arr IH]; simpl; intros i; [discriminate|].
  destruct (streq_spec y x) as [->|Hne].
  - intros [= <-]; reflexivity.
  - destruct (array_indexOf x arr) as [j|]; simpl; [|discriminate].
    intros [= <-]; simpl; now apply IH.
Qed.

(** ** getMapping *)

Lemma mapOutputs_throws (lang : jsstring) (r : regex) (inputs outputs : list jsstring) (e : exn) :
  mapOutputs lang r inputs outputs = Throw e ->
  e = mismatch r /\ exists o, In o outputs /\ ~ In (rewrite_output lang o) inputs.
Proof.
  induction outputs as [|o outputs IH]; simpl; [discriminate|].
  destruct (array_indexOf (rewrite_output lang o) inputs) as [i|] eqn:Hi.
  - destruct (mapOutputs lang r inputs outputs) as [m|e'] eqn:Hm; simpl; [discriminate|].
    intros [= <-]. destruct (IH eq_refl) as [He [o' [Hin Hno]]].
    split; [exact He|]. exists o'; split; [now right | exact Hno].
  - intros [= <-]; split; [reflexivity|].
    exists o; split; [now left|]. now apply array_indexOf_none.
Qed.

Lemma mapOutputs_normal (lang : jsstring) (r : regex) (inputs outputs : list jsstring) (m : list nat) :
  mapOutputs lang r inputs outputs = Normal m ->
  Forall2 (fun o i => nth_error inputs i = Some (rewrite_output lang o)) outputs m.
Proof.
  revert m; induction outputs as [|o outputs IH]; simpl; intros m.
  - intros [= <-]; constructor.
  - destruct (array_indexOf (rewrite_output lang o) inputs) as [i|] eqn:Hi; [|discriminate].
    destruct (mapOutputs lang r inputs outputs) as [m'|e'] eqn:Hm; simpl; [|discriminate].
    intros [= <-]. constructor; [now apply array_indexOf_some | now apply IH].
Qed.

Lemma mapOutputs_normal_in (lang : jsstring) (r : regex) (inputs outputs : list jsstring) (m : list nat) :
  mapOutputs lang r inputs outputs = Normal m ->
  forall o, In o outputs -> In (rewrite_output lang o) inputs.
Proof.
  intros H o Ho. apply mapOutputs_normal in H.
  induction H as [|o' i outputs m Hi _ IH]; [destruct Ho|].
  destruct Ho as [->|Ho]; [eapply nth_error_In; eauto | auto].
Qed.

Lemma mapOutputs_found (lang : jsstring) (r : regex) (inputs outputs : list jsstring) :
  (forall o, In o outputs -> In (rewrite_output lang o) inputs) ->
  exists m, mapOutputs lang r inputs outputs = Normal m.
Proof.
  induction outputs as [|o outputs IH]; simpl; intros H.
  - now exists [].
  - destruct (array_indexOf (rewrite_output lang o) inputs) as [i|] eqn:Hi.
    + destruct IH as [m Hm]; [intros; apply H; now right|].
      rewrite Hm; simpl. now eexists.
    + apply array_indexOf_none in Hi. exfalso; apply Hi, H; now left.
Qed.

Lemma mismatch_kind (k : kind) : mismatch (regex_of k) = Error (message_of k).
Proof. destruct k; reflexivity. Qed.

Lemma getMapping_throws (k : kind) (E T lang : jsstring) (e : exn) :
  getMapping E T lang (regex_of k) = Throw e ->
  e = Error (message_of k) /\ unmatched k E T lang.
Proof.
  unfold getMapping; intros H. apply mapOutputs_throws in H.
  rewrite mismatch_kind in H. exact H.
Qed.

Lemma getMapping_total (k : kind) (E T lang : jsstring) :
  ~ unmatched k E T lang -> exists m, getMapping E T lang (regex_of k) = Normal m.
Proof.
  intros H. apply mapOutputs_found. intros o Ho.
  destruct (in_dec (list_eq_dec N.eq_dec) (rewrite_output lang o) (matches (regex_of k) E)); auto.
  exfalso; apply H; now exists o.
Qed.

(** ** createTemplate *)

Lemma createTemplate_inl (E T lang : jsstring) (t : template) :
  createTemplate E T lang = inl t ->
  lines t = map templateLine_of (split LINE_BREAK T) /\
  getMapping E T lang MATH_REGEX = Normal (mathMapping t) /\
  getMapping E T lang GRAPHIE_REGEX = Normal (graphieMapping t) /\
  getMapping E T lang WIDGET_REGEX = Normal (widgetMapping t).
Proof.
  unfold createTemplate.
  destruct (getMapping E T lang MATH_REGEX) as [mm|]; simpl; [|discriminate].
  destruct (getMapping E T lang GRAPHIE_REGEX) as [gm|]; simpl; [|discriminate].
  destruct (getMapping E T lang WIDGET_REGEX) as [wm|]; simpl; [|discriminate].
  intros [= <-]; simpl; auto.
Qed.

Lemma createTemplate_inr (E T lang : jsstring) (e : exn) :
  createTemplate E T lang = inr e ->
  exists k, e = Error (message_of k) /\ unmatched k E T lang.
Proof.
  unfold createTemplate.
  destruct (getMapping E T lang MATH_REGEX) as [mm|e1] eqn:H1; simpl.
  - destruct (getMapping E T lang GRAPHIE_REGEX) as [gm|e2] eqn:H2; simpl.
    + destruct (getMapping E T lang WIDGET_REGEX) as [wm|e3] eqn:H3; simpl; [discriminate|].
      intros [= <-]. exists Widget. now apply getMapping_throws.
    + intros [= <-]. exists Graphie. now apply getMapping_throws.
  - intros [= <-]. exists Math. now apply getMapping_throws.
Qed.

Lemma createTemplate_unmatched (E T lang : jsstring) (k : kind) :
  unmatched k E T lang -> exists e, createTemplate E T lang = inr e.
Proof.
  intros Hk. destruct (createTemplate E T lang) as [t|e] eqn:Hc; [|now exists e].
  exfalso. apply createTemplate_inl in Hc. destruct Hc as (_ & Hm & Hg & Hw).
  destruct Hk as [o [Ho Hno]].
  assert (Hk : exists m, getMapping E T lang (regex_of k) = Normal m)
    by (destruct k; simpl; eauto).
  destruct Hk as [m Hk]. unfold getMapping in Hk.
  apply Hno. eapply mapOutputs_normal_in; eauto.
Qed.

(** C4: [createTemplate] returns an [Error] exactly when some Math, Graphie
    or Widget occurrence of the translated string, rewritten for Portuguese
    when [lang] is [pt], is no occurrence of that kind of the English
    string; and the error returned carries the message of a kind that has
    such an occurrence. *)
Theorem createTemplate_fails_iff (englishStr translatedStr lang : jsstring) :
  ((exists e, createTemplate englishStr translatedStr lang = inr e) <->
   (exists k, unmatched k englishStr translatedStr lang)) /\
  (forall e, createTemplate englishStr translatedStr lang = inr e ->
             exists k, e = Error (message_of k) /\
                       unmatched k englishStr translatedStr lang).
Proof.
  split; [split|].
  - intros [e He]. apply createTemplate_inr in He. destruct He as [k [_ Hk]]. now exists k.
  - intros [k Hk]. now apply createTemplate_unmatched with k.
  - intros e He. now apply createTemplate_inr.
Qed.

(** ** suggest *)

(** When [group] returns: with a usable reference pair and at most one
    group of items, an error of [createTemplate] is the result of
    [suggest]: no pair is produced and the placeholder translator is not
    run. *)
Theorem suggest_returns_template_error
        (Item : Type) (getEnglishStr : Item -> jsstring)
        (translationPairs : list (option jsstring * option jsstring))
        (items : list Item) (lang englishStr translatedStr : jsstring)
        (groups : object (list Item)) (e : exn) :
  findTranslationPair translationPairs = inl (englishStr, translatedStr) ->
  group getEnglishStr items = Normal groups ->
  length (keys groups) <= 1 ->
  createTemplate englishStr translatedStr lang = inr e ->
  suggest getEnglishStr translationPairs items lang = Normal (inr e).
Proof.
  intros Hp Hg Hk Hc. unfold suggest. rewrite Hp, Hg; simpl.
  destruct (Nat.ltb_spec 1 (length (keys groups))) as [Hlt|_]; [lia|].
  now rewrite Hc.
Qed.

Lemma suggest_returns_template_error_witness :
  suggest englishStr [(None, None); (Some (str "add $1$"), Some (str "some $2$"))]
          [{| englishStr := str "add $5$"; id := 7 |}] PT
  = Normal (inr (Error "math doesn't match")).
Proof.
  apply (@suggest_returns_template_error item englishStr
           [(None, None); (Some (str "add $1$"), Some (str "some $2$"))]
           [{| englishStr := str "add $5$"; id := 7 |}] PT
           (str "add $1$") (str "some $2$")
           [(str "add __MATH__", [{| englishStr := str "add $5$"; id := 7 |}])]).
  - reflexivity.
  - vm_compute; reflexivity.
  - simpl; lia.
  - vm_compute; reflexivity.
Defined.

(** C9: the example of the documentation. *)
Theorem suggest_example :
  suggest englishStr
          [(None, None); (Some english_ref, Some translated_ref)]
          [{| englishStr := english_new; id := 1002 |}] PT
  = Normal (inl [(OfItem {| englishStr := english_new; id := 1002 |},
                  Some translated_new)]).
Proof. vm_compute; reflexivity. Qed.

(** ** Behaviour on particular inputs *)

(** C6: the normal form of [constructor] is [constructor], which [{}] inherits
    from [Object.prototype]: the bucket test succeeds on the inherited
    function and [push] is not a method of it. *)
Example group_throws_on_inherited_key :
  group (fun s : jsstring => s) [str "constructor"] = Throw TypeError.
Proof. vm_compute; reflexivity. Qed.

(** C2: [suggest] groups the items before it looks at the reference pair, so
    the same item makes it throw although no reference pair is usable;
    the placeholder translator alone answers with one pair. *)
Example suggest_throws_on_inherited_key :
  suggest (fun s : jsstring => s) [] [str "constructor"] ES = Throw TypeError /\
  autoTranslatePlaceholders (fun s : jsstring => s) [str "constructor"] ES
  = [(OfItem (str "constructor"), None)].
Proof. split; vm_compute; reflexivity. Qed.

(** C3: a usable reference pair whose template cannot be built and one
    item, hence one group: [suggest] does not return the error of
    [createTemplate], it throws, because the item is grouped first and its
    normal form is a member of [Object.prototype]. *)
Example suggest_throws_before_template_error :
  findTranslationPair [(Some (str "add $1$"), Some (str "some $2$"))]
  = inl (str "add $1$", str "some $2$") /\
  createTemplate (str "add $1$") (str "some $2$") ES = inr (Error "math doesn't match") /\
  suggest (fun s : jsstring => s) [(Some (str "add $1$"), Some (str "some $2$"))]
          [str "constructor"] ES
  = Throw TypeError.
Proof. repeat split; vm_compute; reflexivity. Qed.

(** C5: the math of the English string reaches the suggestion without the
    Portuguese transform: [\sin] stays [\sin]. *)
Example populateTemplate_keeps_sin :
  createTemplate (str "$\sin x$") (str "$\operatorname{sen} x$") PT
  = inl {| lines := [MATH_PH]; mathMapping := [0];
           graphieMapping := []; widgetMapping := [] |} /\
  populateTemplate {| lines := [MATH_PH]; mathMapping := [0];
                      graphieMapping := []; widgetMapping := [] |}
                   (str "$\sin x$") PT
  = Normal (str "$\sin x$") /\
  translateMath (str "$\sin x$") (VStr PT) = str "$\operatorname{sen} x$".
Proof. repeat split; vm_compute; reflexivity. Qed.

(** C8: for math that holds [\text] the pair starts with the English string,
    not with the item. *)
Example autoTranslate_text_pair :
  autoTranslatePlaceholders englishStr
    [{| englishStr := str "$\text{cost}$"; id := 1 |}] PT
  = [(OfString (str "$\text{cost}$"), None)].
Proof. vm_compute; reflexivity. Qed.

(** C1, as stated, fails: the translation has a paragraph more than the
    English string, no special substring is involved, and the extra
    paragraph is lost. *)
Example roundtrip_counterexample :
  (forall k, ~ unmatched k (str "a") (str "a" ++ LINE_BREAK ++ str "b") ES) /\
  exists t, createTemplate (str "a") (str "a" ++ LINE_BREAK ++ str "b") ES = inl t /\
            populateTemplate t (str "a") ES = Normal (str "a") /\
            str "a" <> str "a" ++ LINE_BREAK ++ str "b".
Proof.
  split.
  - intros k [o [Ho _]]. destruct k; vm_compute in Ho; exact Ho.
  - eexists; split; [vm_compute; reflexivity|].
    split; [vm_compute; reflexivity | discriminate].
Qed.


(** C10, as stated, fails: a math of the English string may span a
    paragraph break, and is written into one line of the template. *)
Example paragraphs_counterexample :
  let E := str "$a" ++ LINE_BREAK ++ str "b$" in
  exists t out,
    createTemplate (str "$x$") (str "$x$" ++ LINE_BREAK ++ str "foo") ES = inl t /\
    paragraphs E <= length (lines t) /\
    mathMapping t = [0] /\ length (matches MATH_REGEX E) = 1 /\
    graphieMapping t = [] /\ widgetMapping t = [] /\
    populateTemplate t E ES = Normal out /\
    paragraphs out = 3 /\ paragraphs E = 2.
Proof.
  do 2 eexists. split; [vm_compute; reflexivity|].
  repeat split; vm_compute; reflexivity.
Qed.

(** ** The matcher *)

(** Whatever the matcher answers comes from its continuation, called on
    the input less a prefix that the expression denotes. *)
Lemma star_loop_sound (a : regex) :
  (forall s k x, rmatch a s k = Some x ->
                 exists p s1, s = p ++ s1 /\ accepts a p /\ k s1 = Some x) ->
  forall fuel s k x, star_loop (rmatch a) fuel s k = Some x ->
                     exists p s1, s = p ++ s1 /\ accepts (Star a) p /\ k s1 = Some x.
Proof.
  intros Hbody fuel; induction fuel as [|fuel IH]; simpl; intros s k x H.
  - exists [], s. repeat split; [now exists [] | exact H].
  - destruct (rmatch a s _) as [r|] eqn:Hb.
    + injection H as ->. apply Hbody in Hb. destruct Hb as (p & s1 & -> & Hp & Hk).
      destruct (length s1 <? length (p ++ s1)); [|discriminate].
      apply IH in Hk. destruct Hk as (p' & s2 & -> & (ps & -> & Hps) & Hk).
      exists (p ++ concat ps), s2. rewrite app_assoc. repeat split; [|exact Hk].
      exists (p :: ps). split; [reflexivity | now constructor].
    + exists [], s. repeat split; [now exists [] | exact H].
Qed.

Lemma rmatch_sound (r : regex) :
  forall s k x, rmatch r s k = Some x ->
                exists p s1, s = p ++ s1 /\ accepts r p /\ k s1 = Some x.
Proof.
  induction r as [neg cs| |a IHa b IHb|a IHa b IHb|a IHa]; simpl; intros s k x H.
  - destruct s as [|c s']; [discriminate|].
    destruct (xorb neg (existsb (N.eqb c) cs)) eqn:Hc; [|discriminate].
    exists [c], s'. repeat split; [now exists c | exact H].
  - now exists [], s.
  - apply IHa in H. destruct H as (p & s1 & -> & Hp & H).
    apply IHb in H. destruct H as (p' & s2 & -> & Hp' & H).
    exists (p ++ p'), s2. rewrite app_assoc. repeat split; [|exact H].
    now exists p, p'.
  - destruct (rmatch a s k) as [y|] eqn:Ha.
    + injection H as ->. apply IHa in Ha. destruct Ha as (p & s1 & -> & Hp & Hk).
      exists p, s1. auto.
    + apply IHb in H. destruct H as (p & s1 & -> & Hp & Hk).
      exists p, s1. auto.
  - apply (star_loop_sound a IHa) in H. exact H.
Qed.

Lemma rmatch_inv (r : regex) :
  forall s k x, rmatch r s k = Some x -> exists p s1, s = p ++ s1 /\ k s1 = Some x.
Proof.
  intros s k x H. apply rmatch_sound in H. destruct H as (p & s1 & Hs & _ & Hk).
  now exists p, s1.
Qed.

Lemma exec_le (r : regex) (s : jsstring) (n : nat) : exec r s = Some n -> n <= length s.
Proof.
  unfold exec. destruct (rmatch r s Some); [|discriminate]. intros [= <-]. lia.
Qed.

(** ** Cutting a string by an expression *)

Lemma scan_S (r : regex) (fuel : nat) (s : jsstring) :
  scan r (S fuel) s =
  match exec r s with
  | Some O => Hit [] :: match s with [] => [] | c :: s' => Lit c :: scan r fuel s' end
  | Some (S n) => Hit (firstn (S n) s) :: scan r fuel (skipn (S n) s)
  | None => match s with [] => [] | c :: s' => Lit c :: scan r fuel s' end
  end.
Proof. reflexivity. Qed.

Lemma scan_flat (r : regex) :
  forall fuel s, length s <= fuel -> flat (scan r fuel s) = s.
Proof.
  induction fuel as [|fuel IH]; intros s Hs.
  - destruct s; [reflexivity | simpl in Hs; lia].
  - rewrite scan_S.
    assert (Hstep : flat match s with [] => [] | c :: s' => Lit c :: scan r fuel s' end = s).
    { destruct s as [|c s']; [reflexivity|]. simpl. rewrite IH; [reflexivity | simpl in Hs; lia]. }
    destruct (exec r s) as [[|n]|] eqn:He; auto.
    remember (S n) as n'. change (firstn n' s ++ flat (scan r fuel (skipn n' s)) = s).
    rewrite IH; [apply firstn_skipn | rewrite length_skipn; lia].
Qed.

Lemma tokens_flat (r : regex) (s : jsstring) : flat (tokens r s) = s.
Proof. apply scan_flat. lia. Qed.

Lemma scan_fuel (r : regex) :
  forall f1 f2 s, length s < f1 -> length s < f2 -> scan r f1 s = scan r f2 s.
Proof.
  induction f1 as [|f1 IH]; intros f2 s H1 H2; [lia|].
  destruct f2 as [|f2]; [lia|]. rewrite !scan_S.
  assert (Hstep : match s with [] => [] | c :: s' => Lit c :: scan r f1 s' end =
                  match s with [] => [] | c :: s' => Lit c :: scan r f2 s' end).
  { destruct s as [|c s']; [reflexivity|]. simpl in *. f_equal. apply IH; lia. }
  destruct (exec r s) as [[|n]|] eqn:He; try now rewrite Hstep.
  f_equal. apply exec_le in He.
  apply IH; rewrite length_skipn; lia.
Qed.

Lemma tokens_scan (r : regex) (fuel : nat) (s : jsstring) :
  length s < fuel -> scan r fuel s = tokens r s.
Proof. intros H. apply scan_fuel; [exact H | lia]. Qed.

(** Every match is the text some call of [exec] measured. *)
Lemma scan_hits (r : regex) (Q : jsstring -> Prop) :
  (forall s n, exec r s = Some n -> Q (firstn n s)) ->
  forall fuel s, Forall Q (hits (scan r fuel s)).
Proof.
  intros HQ. induction fuel as [|fuel IH]; intros s; [constructor|].
  rewrite scan_S.
  assert (Hstep : Forall Q (hits match s with [] => [] | c :: s' => Lit c :: scan r fuel s' end)).
  { destruct s as [|c s']; [constructor | simpl; apply IH]. }
  destruct (exec r s) as [[|n]|] eqn:He; simpl; auto.
  - constructor; [apply (HQ s 0 He) | exact Hstep].
  - constructor; [apply (HQ s (S n) He) | apply IH].
Qed.

Lemma matches_forall (r : regex) (Q : jsstring -> Prop) (s : jsstring) :
  (forall s' n, exec r s' = Some n -> Q (firstn n s')) -> Forall Q (matches r s).
Proof. intros HQ. now apply scan_hits. Qed.

Lemma exec_inv (r : regex) (s : jsstring) (n : nat) :
  exec r s = Some n ->
  exists p rest, s = p ++ rest /\ n = length p /\ accepts r p.
Proof.
  unfold exec. destruct (rmatch r s Some) as [rest|] eqn:H; [|discriminate].
  intros [= <-]. destruct (rmatch_sound _ _ _ H) as (p & s1 & Hs & Hp & [= ->]).
  exists p, rest. subst s. rewrite length_app.
  split; [reflexivity|split; [lia|exact Hp]].
Qed.

Lemma exec_accepts (r : regex) (s : jsstring) (n : nat) :
  exec r s = Some n -> accepts r (firstn n s).
Proof.
  intros H. apply exec_inv in H. destruct H as (p & rest & -> & -> & Hp).
  now rewrite firstn_app, Nat.sub_diag, firstn_all, app_nil_r.
Qed.

(** Every match of a global expression is denoted by it. *)
Lemma matches_accepts (r : regex) (s : jsstring) : Forall (accepts r) (matches r s).
Proof. apply matches_forall. intros; now apply exec_accepts. Qed.

(** A callback that gives every match back leaves the string as it is. *)
Lemma subst_same (St : Type) (f : St -> jsstring -> jsstring * St) :
  forall ts st, (forall st' m, In m (hits ts) -> fst (f st' m) = m) ->
                fst (subst f st ts) = flat ts.
Proof.
  induction ts as [|[c|m] ts IH]; intros st H; simpl.
  - reflexivity.
  - specialize (IH st H). destruct (subst f st ts); simpl in *. now f_equal.
  - pose proof (H st m (or_introl eq_refl)) as Hm.
    destruct (f st m) as [rep st1]; simpl in *. subst rep.
    specialize (IH st1 (fun st' m' Hin => H st' m' (or_intror Hin))).
    destruct (subst f st1 ts); simpl in *. now f_equal.
Qed.

Lemma replace_fn_same (r : regex) (f : jsstring -> jsstring) (s : jsstring) :
  (forall m, In m (matches r s) -> f m = m) -> replace_fn r f s = s.
Proof.
  intros H. unfold replace_fn, replace_with.
  rewrite subst_same; [apply tokens_flat | intros; simpl; now apply H].
Qed.

Lemma replace_none (r : regex) (rep s : jsstring) :
  matches r s = [] -> replace r rep s = s.
Proof.
  intros H. apply replace_fn_same. rewrite H. intros m [].
Qed.

(** ** Line feeds *)

Lemma starts_nl_app (a b : jsstring) :
  starts_nl (a ++ b) = match a with [] => starts_nl b | _ => starts_nl a end.
Proof. destruct a; reflexivity. Qed.

Lemma ends_nl_app (a b : jsstring) :
  ends_nl (a ++ b) = match b with [] => ends_nl a | _ => ends_nl b end.
Proof.
  unfold ends_nl. rewrite rev_app_distr, starts_nl_app.
  destruct b as [|c b]; [reflexivity|]. simpl.
  destruct (rev b ++ [c]) eqn:E; [|reflexivity].
  apply app_eq_nil in E. destruct E; discriminate.
Qed.

Lemma ends_nl_cons (c : char) (a : jsstring) :
  ends_nl (c :: a) = match a with [] => N.eqb c 10 | _ => ends_nl a end.
Proof. change (c :: a) with ([c] ++ a). rewrite ends_nl_app. destruct a; reflexivity. Qed.

Lemma has_lb_app (a b : jsstring) :
  has_lb (a ++ b) = has_lb a || has_lb b || (ends_nl a && starts_nl b).
Proof.
  induction a as [|c a IH]; simpl.
  - unfold ends_nl; simpl. now rewrite orb_false_r.
  - rewrite IH, starts_nl_app, ends_nl_cons.
    destruct a as [|c' a]; simpl.
    + unfold ends_nl; simpl. destruct (N.eqb c 10), (starts_nl b), (has_lb b); reflexivity.
    + destruct (N.eqb c 10), (N.eqb c' 10), (has_lb (c' :: a)), (has_lb b),
        (ends_nl (c' :: a)), (starts_nl b); reflexivity.
Qed.

Lemma has_lb_rev (s : jsstring) : has_lb (rev s) = has_lb s.
Proof.
  induction s as [|c s IH]; [reflexivity|]. simpl.
  rewrite has_lb_app, IH. simpl. unfold ends_nl. rewrite rev_involutive.
  destruct (N.eqb c 10), (starts_nl s), (has_lb s); reflexivity.
Qed.

Lemma closed_line_iff (l : jsstring) : closed_line l <-> has_lb (l ++ [10%N]) = false.
Proof.
  unfold closed_line. rewrite has_lb_app. simpl.
  destruct (has_lb l), (ends_nl l); simpl; intuition congruence.
Qed.

Lemma solid_closed (g : jsstring) : solid g -> closed_line g.
Proof. unfold solid, closed_line. tauto. Qed.

(** ** split and join *)

Lemma starts_with_LINE_BREAK (s : jsstring) :
  starts_with LINE_BREAK s =
  match s with
  | c :: s' => N.eqb c 10 && starts_nl s'
  | [] => false
  end.
Proof.
  destruct s as [|c [|c' s]]; try reflexivity;
    unfold LINE_BREAK; cbn [starts_with starts_nl].
  - now rewrite !andb_false_r.
  - rewrite (N.eqb_sym 10 c), (N.eqb_sym 10 c'), andb_true_r. reflexivity.
Qed.

Lemma split_go_0 (c : char) (s cur : jsstring) :
  split_go LINE_BREAK (c :: s) 0 cur =
  if N.eqb c 10 && starts_nl s
  then rev cur :: split_go LINE_BREAK s 1 []
  else split_go LINE_BREAK s 0 (c :: cur).
Proof.
  change (split_go LINE_BREAK (c :: s) 0 cur) with
    (if starts_with LINE_BREAK (c :: s)
     then rev cur :: split_go LINE_BREAK s 1 []
     else split_go LINE_BREAK s 0 (c :: cur)).
  now rewrite starts_with_LINE_BREAK.
Qed.

Lemma split_go_line (l : jsstring) :
  forall cur rest, closed_line l ->
    split_go LINE_BREAK (l ++ LINE_BREAK ++ rest) 0 cur
    = (rev cur ++ l) :: split_go LINE_BREAK rest 0 [].
Proof.
  induction l as [|c l IH]; intros cur rest Hl.
  - simpl app. rewrite split_go_0. simpl. now rewrite app_nil_r.
  - apply closed_line_iff in Hl. simpl in Hl.
    apply orb_false_iff in Hl. destruct Hl as [Hc Hl].
    rewrite <- app_comm_cons, split_go_0.
    replace (starts_nl (l ++ LINE_BREAK ++ rest)) with (starts_nl (l ++ [10%N]))
      by (now destruct l).
    rewrite Hc, IH by now apply closed_line_iff.
    simpl. now rewrite <- app_assoc.
Qed.

Lemma split_go_last (l : jsstring) :
  forall cur, has_lb l = false -> split_go LINE_BREAK l 0 cur = [rev cur ++ l].
Proof.
  induction l as [|c l IH]; intros cur Hl.
  - simpl. now rewrite app_nil_r.
  - simpl in Hl. apply orb_false_iff in Hl. destruct Hl as [Hc Hl].
    rewrite split_go_0, Hc, IH by assumption. simpl. now rewrite <- app_assoc.
Qed.

Lemma lines_ok_cons (l : jsstring) (ls : list jsstring) :
  ls <> [] -> lines_ok (l :: ls) <-> closed_line l /\ lines_ok ls.
Proof. destruct ls; [congruence | reflexivity]. Qed.

Lemma lines_ok_nonempty (ls : list jsstring) : lines_ok ls -> ls <> [].
Proof. destruct ls; simpl; [tauto | discriminate]. Qed.

Lemma split_join (ls : list jsstring) :
  lines_ok ls -> split LINE_BREAK (join LINE_BREAK ls) = ls.
Proof.
  unfold split. induction ls as [|l ls IH]; [intros []|].
  destruct ls as [|l' ls].
  - intros H. simpl in *. now apply split_go_last.
  - intros [Hl Hls]. change (join LINE_BREAK (l :: l' :: ls))
      with (l ++ LINE_BREAK ++ join LINE_BREAK (l' :: ls)).
    rewrite split_go_line by assumption. simpl rev. simpl app at 1.
    f_equal. now apply IH.
Qed.

Lemma split_go_lines_ok (s : jsstring) :
  (forall cur, has_lb (rev cur) = false ->
               (ends_nl (rev cur) = true -> starts_nl s = false) ->
               lines_ok (split_go LINE_BREAK s 0 cur)) /\
  lines_ok (split_go LINE_BREAK s 1 []).
Proof.
  induction s as [|c s [IH0 IH1]]; (split; [intros cur Hcur Hend|]).
  - exact Hcur.
  - reflexivity.
  - rewrite split_go_0. destruct (N.eqb c 10 && starts_nl s) eqn:Hc.
    + apply andb_true_iff in Hc. destruct Hc as [Hc Hs].
      apply lines_ok_cons; [now apply lines_ok_nonempty|].
      split; [|exact IH1]. split; [exact Hcur|].
      destruct (ends_nl (rev cur)); [|reflexivity].
      specialize (Hend eq_refl). simpl in Hend. congruence.
    + apply IH0.
      * simpl. rewrite has_lb_app, Hcur. simpl.
        destruct (ends_nl (rev cur)) eqn:He; [|now rewrite andb_false_r].
        specialize (Hend eq_refl). simpl in Hend. now rewrite Hend.
      * simpl rev. rewrite ends_nl_app. unfold ends_nl at 1. simpl.
        intros Hc'. rewrite Hc' in Hc. simpl in Hc. exact Hc.
  - simpl. apply IH0; [reflexivity | discriminate].
Qed.

Lemma split_lines_ok (s : jsstring) : lines_ok (split LINE_BREAK s).
Proof. apply (split_go_lines_ok s); [reflexivity | discriminate]. Qed.

Lemma lines_ok_forall (ls : list jsstring) :
  lines_ok ls -> Forall (fun l => has_lb l = false) ls.
Proof.
  induction ls as [|l ls IH]; [intros []|].
  destruct ls as [|l' ls].
  - intros H; constructor; [exact H | constructor].
  - intros [[Hl _] Hls]. constructor; auto.
Qed.

Lemma closed_lines_ok (ls : list jsstring) :
  ls <> [] -> Forall closed_line ls -> lines_ok ls.
Proof.
  induction ls as [|l ls IH]; [congruence|]. intros _ H.
  inversion H as [|? ? [Hl He] Hls]; subst. destruct ls as [|l' ls]; [exact Hl|].
  split; [now split|]. apply IH; [discriminate | exact Hls].
Qed.

(** ** trim *)

Lemma trim_start_suffix (s : jsstring) : exists pre, s = pre ++ trim_start s.
Proof.
  induction s as [|c s [pre IH]]; [now exists []|]. simpl.
  destruct (is_space c); [|now exists []].
  exists (c :: pre). simpl. now f_equal.
Qed.

Lemma trim_start_head (s : jsstring) :
  match trim_start s with c :: _ => is_space c = false | [] => True end.
Proof.
  induction s as [|c s IH]; simpl; [exact I|].
  destruct (is_space c) eqn:Hc; [exact IH | exact Hc].
Qed.

Lemma trim_start_fixed (s : jsstring) :
  match s with c :: _ => is_space c = false | [] => True end -> trim_start s = s.
Proof. destruct s as [|c s]; simpl; [reflexivity|]. now intros ->. Qed.

Lemma trim_end_tail (s : jsstring) :
  match rev (trim s) with c :: _ => is_space c = false | [] => True end /\
  match trim s with c :: _ => is_space c = false | [] => True end.
Proof.
  unfold trim. rewrite rev_involutive. split; [apply trim_start_head|].
  pose proof (trim_start_head s) as Hs.
  destruct (trim_start_suffix (rev (trim_start s))) as [pre Hpre].
  apply (f_equal (@rev char)) in Hpre. rewrite rev_involutive, rev_app_distr in Hpre.
  destruct (rev (trim_start (rev (trim_start s)))) as [|c z]; [exact I|].
  rewrite Hpre in Hs. exact Hs.
Qed.

Lemma trim_trim (s : jsstring) : trim (trim s) = trim s.
Proof.
  destruct (trim_end_tail s) as [H1 H2].
  unfold trim at 1. rewrite (trim_start_fixed _ H2), (trim_start_fixed _ H1).
  apply rev_involutive.
Qed.

Lemma trim_closed (s : jsstring) : has_lb s = false -> closed_line (trim s).
Proof.
  intros Hs. destruct (trim_end_tail s) as [H1 _]. split.
  - unfold trim. rewrite has_lb_rev.
    destruct (trim_start_suffix (rev (trim_start s))) as [pre Hpre].
    assert (H : has_lb (rev (trim_start s)) = false).
    { rewrite has_lb_rev. destruct (trim_start_suffix s) as [pre' Hpre'].
      rewrite Hpre', has_lb_app in Hs. apply orb_false_iff in Hs.
      destruct Hs as [Hs _]. apply orb_false_iff in Hs. tauto. }
    rewrite Hpre, has_lb_app in H. apply orb_false_iff in H.
    destruct H as [H _]. apply orb_false_iff in H. tauto.
  - unfold ends_nl. destruct (rev (trim s)) as [|c z]; [reflexivity|]. simpl.
    destruct (N.eqb_spec c 10) as [->|]; [discriminate H1 | reflexivity].
Qed.

(** ** normalizeString *)

Lemma normalizeString_lines (s : jsstring) :
  exists ls, ls <> [] /\ Forall (fun l => has_lb l = false) ls /\
             normalizeString s = join LINE_BREAK (map trim ls).
Proof.
  unfold normalizeString. eexists; split; [|split; [|reflexivity]].
  - apply lines_ok_nonempty, split_lines_ok.
  - apply lines_ok_forall, split_lines_ok.
Qed.

Lemma settled_fixed (n : jsstring) :
  settled n -> normalizeString n = join LINE_BREAK (map trim (split LINE_BREAK n)).
Proof.
  intros (Hm & Hg & Hw & Hmw & Hb). unfold normalizeString.
  rewrite (replace_none _ _ _ Hm), (replace_none _ _ _ Hg), (replace_none _ _ _ Hw).
  unfold replace at 1. rewrite (replace_fn_same MATH_WIDGET_REGEX).
  - rewrite replace_fn_same; [reflexivity|]. rewrite Hb. intros m [].
  - intros m Hin. rewrite Forall_forall in Hmw. symmetry. now apply Hmw.
Qed.


(** ** The occurrences *)

Lemma accepts_chr (c0 : char) (p : jsstring) : accepts (Cls false [c0]) p -> p = [c0].
Proof.
  intros (c & -> & H). simpl in H. rewrite orb_false_r in H.
  apply N.eqb_eq in H. now subst.
Qed.

Lemma accepts_seq_chr (c0 : char) (b : regex) (p : jsstring) :
  accepts (Seq (Cls false [c0]) b) p -> exists q, p = c0 :: q /\ accepts b q.
Proof.
  intros (p1 & p2 & -> & H1 & H2). apply accepts_chr in H1. subst p1. now exists p2.
Qed.

Lemma accepts_seq_last (a : regex) (c0 : char) (p : jsstring) :
  accepts (Seq a (Cls false [c0])) p -> exists q, p = q ++ [c0].
Proof.
  intros (p1 & p2 & -> & _ & H2). apply accepts_chr in H2. subst p2. now exists p1.
Qed.

(** An occurrence of any kind is not empty and has no line feed at its
    ends: it starts with [$], [!] or [[] and ends with [$], [)] or []]. *)
Lemma accepts_kind_ends (k : kind) (p : jsstring) :
  accepts (regex_of k) p -> p <> [] /\ starts_nl p = false /\ ends_nl p = false.
Proof.
  destruct k; unfold regex_of, MATH_REGEX, GRAPHIE_REGEX, WIDGET_REGEX, chr; intros H.
  - apply accepts_seq_chr in H. destruct H as (q & -> & H).
    apply accepts_seq_last in H. destruct H as (q' & ->).
    repeat split; [discriminate|].
    change (ch "$" :: q' ++ [ch "$"]) with ((ch "$" :: q') ++ [ch "$"]).
    now rewrite ends_nl_app.
  - do 4 (apply accepts_seq_chr in H; destruct H as (? & -> & H)).
    apply accepts_seq_last in H. destruct H as (q' & ->).
    repeat split; [discriminate|].
    rewrite !app_comm_cons. now rewrite ends_nl_app.
  - do 3 (apply accepts_seq_chr in H; destruct H as (? & -> & H)).
    destruct H as (p1 & p2 & -> & _ & H).
    apply accepts_seq_chr in H. destruct H as (? & -> & H). apply accepts_chr in H. subst.
    repeat split; [discriminate|].
    rewrite !app_comm_cons. now rewrite ends_nl_app.
Qed.

Lemma matches_solid (k : kind) (s m : jsstring) :
  In m (matches (regex_of k) s) -> has_lb m = false -> solid m.
Proof.
  intros Hin Hlb. pose proof (matches_accepts (regex_of k) s) as H.
  rewrite Forall_forall in H. specialize (H m Hin).
  apply accepts_kind_ends in H. unfold solid. tauto.
Qed.

(** ** Replacement and paragraphs *)

(** Replacing matches by solid texts adds no delimiter and no line feed at
    either end. *)
Lemma subst_lb (St : Type) (f : St -> jsstring -> jsstring * St) :
  (forall st m, solid (fst (f st m))) ->
  forall ts st,
    (has_lb (flat ts) = false -> has_lb (fst (subst f st ts)) = false) /\
    (starts_nl (fst (subst f st ts)) = true -> starts_nl (flat ts) = true) /\
    (ends_nl (fst (subst f st ts)) = true -> ends_nl (flat ts) = true) /\
    (fst (subst f st ts) = [] -> ts = []).
Proof.
  intros Hf. induction ts as [|[c|m] ts IH]; intros st.
  - simpl. auto.
  - specialize (IH st). simpl. destruct (subst f st ts) as [out st']; simpl in *.
    destruct IH as (IH1 & IH2 & IH3 & IH4). repeat split.
    + intros H. apply orb_false_iff in H. destruct H as [Hc Hlb].
      rewrite (IH1 Hlb), orb_false_r.
      destruct (N.eqb c 10); [|reflexivity]. simpl in *.
      destruct (starts_nl out); [|reflexivity]. now rewrite IH2 in Hc.
    + auto.
    + rewrite !ends_nl_cons. destruct out as [|c' out].
      * now rewrite (IH4 eq_refl).
      * intros H. specialize (IH3 H). destruct (flat ts); [discriminate IH3 | exact IH3].
    + discriminate.
  - pose proof (Hf st m) as (Hne & Hlb & Hs & He). simpl.
    destruct (f st m) as [rep st1]; simpl in *.
    specialize (IH st1). destruct (subst f st1 ts) as [out st2]; simpl in *.
    destruct IH as (IH1 & IH2 & IH3 & IH4). repeat split.
    + rewrite !has_lb_app. intros H.
      apply orb_false_iff in H. destruct H as [H _].
      apply orb_false_iff in H. destruct H as [_ H].
      now rewrite Hlb, (IH1 H), He.
    + rewrite starts_nl_app. destruct rep; [congruence|]. congruence.
    + rewrite !ends_nl_app. destruct out as [|c' out]; [congruence|].
      intros H. specialize (IH3 H). destruct (flat ts); [discriminate IH3 | exact IH3].
    + intros H. apply app_eq_nil in H. tauto.
Qed.

Lemma replace_with_lb (St : Type) (r : regex) (f : St -> jsstring -> jsstring * St)
      (st : St) (s : jsstring) :
  (forall st' m, solid (fst (f st' m))) ->
  (has_lb s = false -> has_lb (fst (replace_with r f st s)) = false) /\
  (ends_nl s = false -> ends_nl (fst (replace_with r f st s)) = false).
Proof.
  intros Hf. unfold replace_with.
  destruct (subst_lb f Hf (tokens r s) st) as (H1 & _ & H3 & _).
  rewrite tokens_flat in *. split; [exact H1|].
  intros He. destruct (ends_nl (fst (subst f st (tokens r s)))); [|reflexivity].
  rewrite H3 in He; [discriminate | reflexivity].
Qed.

Lemma keeps_lines_trans (a b c : jsstring) :
  keeps_lines a b -> keeps_lines b c -> keeps_lines a c.
Proof. unfold keeps_lines. tauto. Qed.

Lemma replace_keeps (r : regex) (rep s : jsstring) :
  solid rep -> keeps_lines s (replace r rep s).
Proof. intros H. apply replace_with_lb. intros; exact H. Qed.

Lemma templateLine_of_keeps (line : jsstring) : keeps_lines line (templateLine_of line).
Proof.
  unfold templateLine_of.
  eapply keeps_lines_trans; [|apply replace_keeps; repeat split; easy].
  eapply keeps_lines_trans; [|apply replace_keeps; repeat split; easy].
  apply replace_keeps; repeat split; easy.
Qed.

Lemma lines_ok_keeps (ls ls' : list jsstring) :
  lines_ok ls -> Forall2 keeps_lines ls ls' -> lines_ok ls'.
Proof.
  intros Hok H. induction H as [|l l' ls ls' [H1 H2] Hrest IH]; [exact Hok|].
  destruct Hrest as [|l2 l2' ls ls' H' Hrest].
  - simpl in *. auto.
  - destruct Hok as [[Hl He] Hok]. split; [split; auto|]. apply IH, Hok.
Qed.

Lemma lines_ok_firstn (ls : list jsstring) (n : nat) :
  lines_ok ls -> lines_ok (firstn (S n) ls).
Proof.
  revert n. induction ls as [|l ls IH]; intros n; [intros []|].
  destruct ls as [|l' ls]; intros H.
  - now destruct n.
  - destruct H as [Hl Hok]. destruct n as [|n]; [exact (proj1 Hl)|].
    change (firstn (S (S n)) (l :: l' :: ls)) with (l :: firstn (S n) (l' :: ls)).
    apply lines_ok_cons; [discriminate|]. split; [exact Hl | now apply IH].
Qed.

Lemma templateLines_keep (ls : list jsstring) :
  Forall2 keeps_lines ls (map templateLine_of ls).
Proof.
  induction ls as [|l ls IH]; simpl; constructor; [apply templateLine_of_keeps | exact IH].
Qed.

(** ** populateTemplate *)

(** [maths.map(translateMath)] changes no math: the second argument that
    [map] supplies is an index, never the text [pt]. *)
Lemma map_indexed_translateMath (maths : list jsstring) (i : nat) :
  map_indexed (fun math index => translateMath math (VNum index)) i maths = maths.
Proof.
  revert i. induction maths as [|m maths IH]; intros i; simpl; [reflexivity|].
  now rewrite IH.
Qed.

Lemma UNDEFINED_solid : solid UNDEFINED.
Proof. repeat split; easy. Qed.

Lemma pick_solid (arr : list jsstring) (mapping : list nat) (i : nat) :
  Forall solid arr -> solid (pick arr mapping i).
Proof.
  intros H. unfold pick. destruct (nth_error mapping i) as [j|]; [|apply UNDEFINED_solid].
  destruct (nth_error arr j) as [x|] eqn:Hx; [|apply UNDEFINED_solid].
  rewrite Forall_forall in H. eapply H, nth_error_In; eauto.
Qed.

Lemma populateLine_keeps (t : template) (maths graphies widgets : list jsstring)
      (st : counters) (templateLine : jsstring) :
  Forall solid maths -> Forall solid graphies -> Forall solid widgets ->
  keeps_lines templateLine (fst (populateLine t maths graphies widgets st templateLine)).
Proof.
  intros Hm Hg Hw. unfold populateLine.
  pose proof (replace_with_lb (lit "__MATH__") (fill maths (mathMapping t))
                (mathIndex st) templateLine
                (fun st' m => pick_solid (mathMapping t) st' Hm)) as H1.
  destruct (replace_with (lit "__MATH__") _ _ templateLine) as [l1 mi].
  pose proof (replace_with_lb (lit "__GRAPHIE__") (fill graphies (graphieMapping t))
                (graphieIndex st) l1
                (fun st' m => pick_solid (graphieMapping t) st' Hg)) as H2.
  destruct (replace_with (lit "__GRAPHIE__") _ _ l1) as [l2 gi].
  pose proof (replace_with_lb (lit "__WIDGET__") (fill widgets (widgetMapping t))
                (widgetIndex st) l2
                (fun st' m => pick_solid (widgetMapping t) st' Hw)) as H3.
  destruct (replace_with (lit "__WIDGET__") _ _ l2) as [l3 wi].
  simpl in *. unfold keeps_lines. tauto.
Qed.

Lemma skipn_nth_error (A : Type) (l : list A) (i : nat) (x : A) :
  nth_error l i = Some x -> skipn i l = x :: skipn (S i) l.
Proof.
  revert i. induction l as [|y l IH]; intros [|i]; simpl; try discriminate.
  - now intros [= ->].
  - apply IH.
Qed.

Lemma populateLines_keeps (t : template) (maths graphies widgets : list jsstring) :
  Forall solid maths -> Forall solid graphies -> Forall solid widgets ->
  forall englishLines index st,
    index + length englishLines <= length (lines t) ->
    exists ls,
      populateLines t maths graphies widgets englishLines index st = Normal ls /\
      Forall2 keeps_lines (firstn (length englishLines) (skipn index (lines t))) ls.
Proof.
  intros Hm Hg Hw. induction englishLines as [|e englishLines IH]; intros index st Hlen.
  - exists []. split; [reflexivity | constructor].
  - simpl in Hlen. simpl populateLines.
    destruct (nth_error (lines t) index) as [tl|] eqn:Hnth.
    + pose proof (populateLine_keeps t st tl Hm Hg Hw) as Hk.
      destruct (populateLine t maths graphies widgets st tl) as [l st'].
      destruct (IH (S index) st') as (ls & Hls & Hall); [lia|].
      rewrite Hls. exists (l :: ls). split; [reflexivity|].
      rewrite (skipn_nth_error _ _ Hnth). simpl. now constructor.
    + apply nth_error_None in Hnth. lia.
Qed.

(** Only the lines below the number of English paragraphs are read. *)
Lemma populateLines_truncate (t : template) (maths graphies widgets : list jsstring) (n : nat) :
  forall englishLines index st,
    index + length englishLines <= n ->
    populateLines (truncate n t) maths graphies widgets englishLines index st
    = populateLines t maths graphies widgets englishLines index st.
Proof.
  induction englishLines as [|e englishLines IH]; intros index st Hlen; [reflexivity|].
  simpl in Hlen. simpl populateLines.
  assert (Hn : nth_error (firstn n (lines t)) index = nth_error (lines t) index)
    by (rewrite nth_error_firstn; destruct (Nat.ltb_spec index n); [reflexivity | lia]).
  cbn [lines truncate]. rewrite Hn.
  destruct (nth_error (lines t) index) as [tl|]; [|reflexivity].
  change (populateLine (truncate n t)) with (populateLine t).
  destruct (populateLine t maths graphies widgets st tl) as [l st'].
  rewrite IH by lia. reflexivity.
Qed.

(** C10, amended: for a template built by [createTemplate] and an English
    string with no more paragraphs than the template has lines, whose Math,
    Graphie and Widget occurrences hold no paragraph delimiter,
    [populateTemplate] returns a string with as many paragraphs as the
    English string; and the template lines past that number are not read. *)
Theorem populateTemplate_paragraphs
        (refEnglish refTranslated refLang : jsstring) (t : template)
        (englishStr lang : jsstring) :
  createTemplate refEnglish refTranslated refLang = inl t ->
  paragraphs englishStr <= length (lines t) ->
  (forall k m, In m (matches (regex_of k) englishStr) -> has_lb m = false) ->
  (exists out, populateTemplate t englishStr lang = Normal out /\
               paragraphs out = paragraphs englishStr) /\
  populateTemplate (truncate (paragraphs englishStr) t) englishStr lang
  = populateTemplate t englishStr lang.
Proof.
  intros Hc Hlen Hocc. split.
  - apply createTemplate_inl in Hc. destruct Hc as (Hlines & _).
    assert (Hsolid : forall k, Forall solid (matches (regex_of k) englishStr)).
    { intros k. apply Forall_forall. intros m Hm.
      apply (matches_solid k englishStr m Hm). now apply (Hocc k). }
    unfold populateTemplate. rewrite map_indexed_translateMath.
    destruct (populateLines_keeps t (Hsolid Math) (Hsolid Graphie) (Hsolid Widget)
                (split LINE_BREAK englishStr) 0
                {| mathIndex := 0; graphieIndex := 0; widgetIndex := 0 |})
      as (ls & Hls & Hall); [exact Hlen|].
    cbn [regex_of] in Hls. rewrite Hls. simpl. eexists; split; [reflexivity|].
    unfold paragraphs at 1. rewrite split_join.
    + apply Forall2_length in Hall. rewrite <- Hall, length_firstn.
      unfold paragraphs in *. simpl. lia.
    + eapply lines_ok_keeps; [|exact Hall].
      pose proof (lines_ok_nonempty (split_lines_ok englishStr)) as Hne.
      destruct (split LINE_BREAK englishStr) as [|e es] eqn:He; [congruence|].
      simpl skipn. apply lines_ok_firstn. rewrite Hlines.
      apply lines_ok_keeps with (ls := split LINE_BREAK refTranslated);
        [apply split_lines_ok | apply templateLines_keep].
  - unfold populateTemplate.
    rewrite populateLines_truncate; [reflexivity | exact (le_n _)].
Qed.

Lemma populateTemplate_paragraphs_witness :
  exists t,
    createTemplate english_ref (translated_ref ++ LINE_BREAK ++ str "fim") PT = inl t /\
    length (lines t) = 3 /\
    (exists out, populateTemplate t english_new PT = Normal out /\
                 paragraphs out = paragraphs english_new) /\
    populateTemplate (truncate (paragraphs english_new) t) english_new PT
    = populateTemplate t english_new PT.
Proof.
  eexists. split; [vm_compute; reflexivity|]. split; [reflexivity|].
  apply (@populateTemplate_paragraphs english_ref
           (translated_ref ++ LINE_BREAK ++ str "fim") PT).
  - vm_compute; reflexivity.
  - vm_compute. lia.
  - intros k m Hm.
    destruct k; vm_compute in Hm; intuition (subst; reflexivity).
Defined.

(** ** What the expressions match *)

Lemma rmatch_seq (a b : regex) (s : jsstring) (k : cont) :
  rmatch (Seq a b) s k = rmatch a s (fun s' => rmatch b s' k).
Proof. reflexivity. Qed.

Lemma rmatch_alt (a b : regex) (s : jsstring) (k : cont) :
  rmatch (Alt a b) s k
  = match rmatch a s k with Some x => Some x | None => rmatch b s k end.
Proof. reflexivity. Qed.

Lemma rmatch_chr_cons (c0 : char) (b : regex) (c : char) (s : jsstring) (k : cont) :
  rmatch (Seq (Cls false [c0]) b) (c :: s) k
  = if N.eqb c c0 then rmatch b s k else None.
Proof. simpl. now rewrite orb_false_r. Qed.

Lemma rmatch_not_cons (c0 : char) (c : char) (s : jsstring) (k : cont) :
  rmatch (Cls true [c0]) (c :: s) k = if N.eqb c c0 then None else k s.
Proof. simpl. rewrite orb_false_r. now destruct (N.eqb c c0). Qed.

Lemma starts_with_length (w s : jsstring) :
  starts_with w s = true -> length w <= length s.
Proof.
  revert s. induction w as [|x w IH]; intros [|c s]; simpl; try lia; try discriminate.
  intros H. apply andb_true_iff in H. destruct H as [_ H]. apply IH in H. lia.
Qed.

Lemma starts_with_app (w s : jsstring) : starts_with w (w ++ s) = true.
Proof. induction w as [|x w IH]; simpl; [reflexivity|]. now rewrite N.eqb_refl. Qed.

Lemma rmatch_lit (w : jsstring) :
  forall s k, rmatch (lit_of w) s k
              = if starts_with w s then k (skipn (length w) s) else None.
Proof.
  induction w as [|x w IH]; intros s k; [reflexivity|].
  destruct s as [|c s]; [reflexivity|].
  cbn [lit_of]. rewrite rmatch_chr_cons, IH. cbn [starts_with length skipn].
  rewrite (N.eqb_sym x c). now destruct (N.eqb c x).
Qed.

Lemma exec_lit (w s : jsstring) :
  exec (lit_of w) s = if starts_with w s then Some (length w) else None.
Proof.
  unfold exec. rewrite rmatch_lit. destruct (starts_with w s) eqn:H; [|reflexivity].
  apply starts_with_length in H. rewrite length_skipn. f_equal. lia.
Qed.

(** A greedy star runs over [body] when each code unit of [body] is taken by
    one iteration and the iteration fails on [tail]. *)
Lemma star_loop_run (B : regex) (tail : jsstring) :
  (forall k, rmatch B tail k = None) ->
  forall body,
    (forall s1 c s2 k, body = s1 ++ c :: s2 ->
                       rmatch B (c :: s2 ++ tail) k = k (s2 ++ tail)) ->
    forall fuel k y,
      length (body ++ tail) <= fuel -> k tail = Some y ->
      star_loop (rmatch B) fuel (body ++ tail) k = Some y.
Proof.
  intros Htail. induction body as [|c body IH]; intros Hstep fuel k y Hfuel Hk.
  - destruct fuel as [|fuel]; simpl; [exact Hk|]. now rewrite Htail.
  - destruct fuel as [|fuel]; [simpl in Hfuel; lia|].
    cbn [star_loop app]. rewrite (Hstep [] c body _ eq_refl).
    replace (length (body ++ tail) <? length (c :: body ++ tail)) with true
      by (symmetry; apply Nat.ltb_lt; simpl; lia).
    rewrite (IH (fun s1 c' s2 k' E => Hstep (c :: s1) c' s2 k' (f_equal (cons c) E))
                fuel k y); [reflexivity | simpl in Hfuel; lia | exact Hk].
Qed.

(** [plus B] over a body that is not empty. *)
Lemma plus_run (B : regex) (tail body : jsstring) (k : cont) (y : jsstring) :
  (forall k, rmatch B tail k = None) ->
  (forall s1 c s2 k, body = s1 ++ c :: s2 ->
                     rmatch B (c :: s2 ++ tail) k = k (s2 ++ tail)) ->
  body <> [] -> k tail = Some y ->
  rmatch (plus B) (body ++ tail) k = Some y.
Proof.
  intros Htail Hstep Hne Hk. destruct body as [|c body]; [congruence|].
  unfold plus. cbn [rmatch app]. rewrite (Hstep [] c body _ eq_refl).
  apply star_loop_run; auto.
  intros s1 c' s2 k' E. apply (Hstep (c :: s1) c' s2 k'). now rewrite E.
Qed.

Lemma MATH_REGEX_eq :
  MATH_REGEX = Seq (Cls false [36%N])
                 (Seq (plus (Alt (Seq (Cls false [92%N]) (Cls false [36%N])) (Cls true [36%N])))
                      (Cls false [36%N])).
Proof. reflexivity. Qed.

Lemma GRAPHIE_REGEX_eq :
  GRAPHIE_REGEX = Seq (Cls false [33%N]) (Seq (Cls false [91%N]) (Seq (Cls false [93%N])
                    (Seq (Cls false [40%N]) (Seq (plus (Cls true [41%N])) (Cls false [41%N]))))).
Proof. reflexivity. Qed.

Lemma WIDGET_REGEX_eq :
  WIDGET_REGEX = Seq (Cls false [91%N]) (Seq (Cls false [91%N]) (Seq (Cls false [9731%N])
                   (Seq (plus (Cls true [93%N])) (Seq (Cls false [93%N]) (Cls false [93%N]))))).
Proof. reflexivity. Qed.

Lemma wrap_Math (body : jsstring) : wrap Math body = 36%N :: body ++ [36%N].
Proof. reflexivity. Qed.

Lemma wrap_Graphie (body : jsstring) :
  wrap Graphie body = 33%N :: 91%N :: 93%N :: 40%N :: body ++ [41%N].
Proof. reflexivity. Qed.

Lemma wrap_Widget (body : jsstring) :
  wrap Widget body = 91%N :: 91%N :: 9731%N :: body ++ [93%N; 93%N].
Proof. reflexivity. Qed.

Lemma wrap_Math_app (body R : jsstring) :
  wrap Math body ++ R = 36%N :: body ++ 36%N :: R.
Proof. rewrite wrap_Math. simpl. now rewrite <- app_assoc. Qed.

Lemma wrap_Graphie_app (body R : jsstring) :
  wrap Graphie body ++ R = 33%N :: 91%N :: 93%N :: 40%N :: body ++ 41%N :: R.
Proof. rewrite wrap_Graphie. simpl. now rewrite <- app_assoc. Qed.

Lemma wrap_Widget_app (body R : jsstring) :
  wrap Widget body ++ R = 91%N :: 91%N :: 9731%N :: body ++ 93%N :: 93%N :: R.
Proof. rewrite wrap_Widget. simpl. now rewrite <- app_assoc. Qed.

Lemma none_of_app (cs : list char) (a b : jsstring) :
  none_of cs (a ++ b) = none_of cs a && none_of cs b.
Proof. apply forallb_app. Qed.

Lemma none_of_at (cs : list char) (s1 : jsstring) (c : char) (s2 : jsstring) :
  none_of cs (s1 ++ c :: s2) = true -> existsb (N.eqb c) cs = false.
Proof.
  rewrite none_of_app. intros H. apply andb_true_iff in H. destruct H as [_ H].
  simpl in H. apply andb_true_iff in H. destruct H as [H _].
  now apply negb_true_iff in H.
Qed.

Lemma existsb_eqb_false (c x : char) (cs : list char) :
  existsb (N.eqb c) cs = false -> In x cs -> N.eqb c x = false.
Proof.
  intros H Hin. destruct (N.eqb c x) eqn:E; [|reflexivity].
  assert (existsb (N.eqb c) cs = true) by (apply existsb_exists; eauto). congruence.
Qed.

Lemma none_of_weaken (cs cs' : list char) (s : jsstring) :
  incl cs' cs -> none_of cs s = true -> none_of cs' s = true.
Proof.
  intros Hincl H. unfold none_of in *. rewrite forallb_forall in *.
  intros c Hc. specialize (H c Hc). apply negb_true_iff in H. apply negb_true_iff.
  destruct (existsb (N.eqb c) cs') eqn:E; [|reflexivity].
  apply existsb_exists in E. destruct E as (x & Hx & Hcx).
  rewrite <- H. symmetry. apply existsb_exists. exists x. split; [now apply Hincl | exact Hcx].
Qed.

(** A match of an expression that starts with a literal starts with that
    literal, and with the next one when there are two. *)
Lemma exec_first (a : char) (r : regex) (c : char) (s : jsstring) :
  N.eqb c a = false -> exec (Seq (Cls false [a]) r) (c :: s) = None.
Proof. intros H. unfold exec. now rewrite rmatch_chr_cons, H. Qed.

Lemma exec_second (a b : char) (r : regex) (c : char) (s : jsstring) :
  match s with c' :: _ => N.eqb c' b = false | [] => True end ->
  exec (Seq (Cls false [a]) (Seq (Cls false [b]) r)) (c :: s) = None.
Proof.
  intros H. unfold exec. rewrite rmatch_chr_cons. destruct (N.eqb c a); [|reflexivity].
  destruct s as [|c' s]; [reflexivity|]. now rewrite rmatch_chr_cons, H.
Qed.

Lemma inert_first (a : char) (r : regex) (s : jsstring) :
  none_of [a] s = true -> inert (Seq (Cls false [a]) r) s.
Proof.
  intros H s1 c s2 R ->. apply exec_first. apply none_of_at in H.
  simpl in H. now rewrite orb_false_r in H.
Qed.

Lemma no_pair_at (a b : char) (s1 : jsstring) (c : char) (s2 : jsstring) :
  no_pair a b (s1 ++ c :: s2) = true ->
  N.eqb c a = false \/ match s2 with c' :: _ => N.eqb c' b = false | [] => True end.
Proof.
  induction s1 as [|c1 s1 IH]; cbn [app no_pair]; intros H;
    apply andb_true_iff in H; destruct H as [H1 H2]; [|now apply IH].
  apply negb_true_iff, andb_false_iff in H1. destruct H1 as [H1|H1]; [now left|].
  right. destruct s2; [exact I | exact H1].
Qed.

(** A string with no [a] right before a [b], and no [a] at its end, holds
    no start of a match of an expression that starts with [a] and [b]. *)
Lemma inert_pair (a b : char) (r : regex) (s : jsstring) :
  no_pair a b s = true -> N.eqb (last s 0%N) a = false ->
  inert (Seq (Cls false [a]) (Seq (Cls false [b]) r)) s.
Proof.
  intros H Hlast s1 c s2 R ->.
  destruct (no_pair_at _ _ _ _ _ H) as [Hc|Hc]; [now apply exec_first|].
  destruct s2 as [|c' s2].
  - rewrite last_last in Hlast. now apply exec_first.
  - apply exec_second. exact Hc.
Qed.

Lemma inert_app (r : regex) (a b : jsstring) :
  (forall s1 c s2 R, a = s1 ++ c :: s2 -> exec r (c :: s2 ++ b ++ R) = None) ->
  inert r b -> inert r (a ++ b).
Proof.
  intros Ha Hb s1 c s2 R E.
  destruct (app_eq_app _ _ _ _ E) as [l [[E1 E2]|[E1 E2]]].
  - destruct l as [|c' l].
    + rewrite app_nil_r in E1. subst. simpl in E2. subst b.
      eapply (Hb [] c s2 R). reflexivity.
    + simpl in E2. injection E2 as -> ->. subst a.
      rewrite <- app_assoc. now apply (Ha s1 c' l R).
  - subst. eapply (Hb l c s2 R). reflexivity.
Qed.

Lemma body_ok_nonempty (k : kind) (body : jsstring) : body_ok k body = true -> body <> [].
Proof. destruct body; [discriminate | discriminate]. Qed.

Lemma body_ok_Math (body : jsstring) :
  body_ok Math body = true ->
  escaped body = true /\ no_pair 95%N 95%N body = true /\
  no_pair 91%N 91%N body = true /\ no_pair 33%N 91%N body = true.
Proof.
  destruct body as [|c body]; [discriminate|]. unfold body_ok.
  intros H. apply andb_true_iff in H. destruct H as [H H4].
  apply andb_true_iff in H. destruct H as [H H3].
  apply andb_true_iff in H. destruct H as [H1 H2].
  auto.
Qed.

Lemma body_ok_Graphie (body : jsstring) :
  body_ok Graphie body = true ->
  none_of [41; 36; 91]%N body = true /\ no_pair 95%N 95%N body = true.
Proof.
  destruct body as [|c body]; [discriminate|]. unfold body_ok.
  intros H. apply andb_true_iff in H. exact H.
Qed.

Lemma body_ok_Widget (body : jsstring) :
  body_ok Widget body = true -> none_of [93; 36; 33]%N body = true.
Proof. destruct body as [|c body]; [discriminate|]. unfold body_ok. auto. Qed.

(** One turn of the body of the math expression on a body that is read to
    its end: an escaped dollar sign, or one other code unit. *)
Lemma math_step (c : char) (s R : jsstring) :
  escaped (c :: s) = true ->
  exists rest,
    escaped rest = true /\ length rest < length (c :: s) /\
    forall (K : cont) y,
      K (rest ++ 36%N :: R) = Some y ->
      rmatch (Alt (Seq (Cls false [92%N]) (Cls false [36%N])) (Cls true [36%N]))
             (c :: s ++ 36%N :: R) K = Some y.
Proof.
  cbn [escaped]. destruct (N.eqb c 92) eqn:E92.
  - destruct s as [|c' s]; [discriminate|]. destruct (N.eqb c' 36) eqn:E36; intros Hs.
    + exists s. split; [exact Hs|]. split; [simpl; lia|]. intros K y HK.
      rewrite rmatch_alt, rmatch_chr_cons, E92. cbn [app rmatch existsb xorb].
      now rewrite E36, HK.
    + exists (c' :: s). split; [exact Hs|]. split; [simpl; lia|]. intros K y HK.
      rewrite rmatch_alt, rmatch_chr_cons, E92. cbn [app rmatch existsb xorb].
      rewrite E36. cbn [orb].
      apply N.eqb_eq in E92. subst c. exact HK.
  - intros Hs. apply andb_true_iff in Hs. destruct Hs as [Hc Hs].
    apply negb_true_iff in Hc.
    exists s. split; [exact Hs|]. split; [simpl; lia|]. intros K y HK.
    now rewrite rmatch_alt, rmatch_chr_cons, E92, rmatch_not_cons, Hc.
Qed.

Lemma math_star (R : jsstring) (k : cont) (y : jsstring) :
  k (36%N :: R) = Some y ->
  forall n body fuel,
    length body <= n -> escaped body = true -> length (body ++ 36%N :: R) <= fuel ->
    star_loop (rmatch (Alt (Seq (Cls false [92%N]) (Cls false [36%N])) (Cls true [36%N])))
              fuel (body ++ 36%N :: R) k = Some y.
Proof.
  intros Hk. induction n as [|n IH]; intros body fuel Hn Hesc Hfuel.
  - destruct body; [|simpl in Hn; lia]. destruct fuel; simpl; [exact Hk|].
    now rewrite Hk.
  - destruct body as [|c body].
    + destruct fuel; simpl; [exact Hk|]. now rewrite Hk.
    + destruct fuel as [|fuel]; [simpl in Hfuel; lia|].
      destruct (math_step c body R Hesc) as (rest & Hrest & Hlen & Hstep).
      cbn [star_loop app]. rewrite (Hstep _ y); [reflexivity|].
      replace (length (rest ++ 36%N :: R) <? length (c :: body ++ 36%N :: R)) with true
        by (symmetry; apply Nat.ltb_lt; simpl in *; rewrite !length_app; simpl; lia).
      apply IH; [simpl in *; lia | exact Hrest |].
      simpl in *. rewrite length_app in *. simpl in *. lia.
Qed.

Lemma exec_MATH_hit (body R : jsstring) :
  body_ok Math body = true ->
  exec MATH_REGEX (wrap Math body ++ R) = Some (length (wrap Math body)).
Proof.
  intros Hok. pose proof (body_ok_nonempty _ Hok) as Hne.
  apply body_ok_Math in Hok. destruct Hok as (Hesc & _).
  rewrite wrap_Math_app, wrap_Math, MATH_REGEX_eq. unfold exec.
  rewrite rmatch_chr_cons, N.eqb_refl, rmatch_seq.
  destruct body as [|c body]; [congruence|].
  destruct (math_step c body R Hesc) as (rest & Hrest & Hlen & Hstep).
  unfold plus. rewrite rmatch_seq, (Hstep _ R).
  - f_equal. cbn [length]. rewrite !length_app. cbn [length]. lia.
  - cbn [rmatch]. apply math_star with (n := length rest); auto.
Qed.

Lemma plus_not_run (x : char) (body R : jsstring) (k : cont) (y : jsstring) :
  none_of [x] body = true -> body <> [] -> k (x :: R) = Some y ->
  rmatch (plus (Cls true [x])) (body ++ x :: R) k = Some y.
Proof.
  intros Hnone Hne Hk. apply plus_run; auto.
  - intros k'. now rewrite rmatch_not_cons, N.eqb_refl.
  - intros s1 c s2 k' E. subst body. apply none_of_at in Hnone.
    simpl in Hnone. rewrite orb_false_r in Hnone.
    now rewrite rmatch_not_cons, Hnone.
Qed.

Lemma exec_GRAPHIE_hit (body R : jsstring) :
  body_ok Graphie body = true ->
  exec GRAPHIE_REGEX (wrap Graphie body ++ R) = Some (length (wrap Graphie body)).
Proof.
  intros Hok. pose proof (body_ok_nonempty _ Hok) as Hne.
  apply body_ok_Graphie in Hok. destruct Hok as (Hnone & _).
  rewrite wrap_Graphie_app, wrap_Graphie, GRAPHIE_REGEX_eq. unfold exec.
  do 4 rewrite rmatch_chr_cons, N.eqb_refl. rewrite rmatch_seq.
  rewrite (@plus_not_run 41%N body R _ R).
  - f_equal. cbn [length]. rewrite !length_app. cbn [length]. lia.
  - revert Hnone. apply none_of_weaken. intros x [<-|[]]. now left.
  - exact Hne.
  - reflexivity.
Qed.

Lemma exec_WIDGET_hit (body R : jsstring) :
  body_ok Widget body = true ->
  exec WIDGET_REGEX (wrap Widget body ++ R) = Some (length (wrap Widget body)).
Proof.
  intros Hok. pose proof (body_ok_nonempty _ Hok) as Hne.
  apply body_ok_Widget in Hok.
  rewrite wrap_Widget_app, wrap_Widget, WIDGET_REGEX_eq. unfold exec.
  do 3 rewrite rmatch_chr_cons, N.eqb_refl. rewrite rmatch_seq.
  rewrite (@plus_not_run 93%N body (93%N :: R) _ R).
  - f_equal. cbn [length]. rewrite !length_app. cbn [length]. lia.
  - revert Hok. apply none_of_weaken. intros x [<-|[]]. now left.
  - exact Hne.
  - reflexivity.
Qed.

Lemma exec_kind_hit (k : kind) (body R : jsstring) :
  body_ok k body = true ->
  exec (regex_of k) (wrap k body ++ R) = Some (length (wrap k body)).
Proof.
  destruct k; [apply exec_MATH_hit | apply exec_GRAPHIE_hit | apply exec_WIDGET_hit].
Qed.

Lemma exec_lit_hit (w R : jsstring) : exec (lit_of w) (w ++ R) = Some (length w).
Proof. now rewrite exec_lit, starts_with_app. Qed.

(** ** Layouts *)

Lemma scan_plain (r : regex) (R : jsstring) :
  forall s fuel,
    (forall s1 c s2, s = s1 ++ c :: s2 -> exec r (c :: s2 ++ R) = None) ->
    length (s ++ R) < fuel ->
    scan r fuel (s ++ R) = map Lit s ++ scan r (fuel - length s) R.
Proof.
  induction s as [|c s IH]; intros fuel Hs Hfuel.
  - simpl. now rewrite Nat.sub_0_r.
  - destruct fuel as [|fuel]; [lia|].
    cbn [app]. rewrite scan_S, (Hs [] c s eq_refl). cbn [map app length Nat.sub].
    f_equal. apply IH.
    + intros s1 c' s2 E. apply (Hs (c :: s1) c' s2). now rewrite E.
    + simpl in Hfuel. lia.
Qed.

Lemma scan_special (r : regex) (m R : jsstring) (fuel : nat) :
  m <> [] -> exec r (m ++ R) = Some (length m) ->
  scan r (S fuel) (m ++ R) = Hit m :: scan r fuel R.
Proof.
  intros Hne He. rewrite scan_S, He.
  destruct (length m) as [|n] eqn:Hn; [destruct m; [congruence | discriminate]|].
  rewrite <- Hn, firstn_app, Nat.sub_diag, firstn_all, skipn_app, Nat.sub_diag, skipn_all.
  simpl. now rewrite app_nil_r.
Qed.

Lemma scan_cut (r : regex) :
  exec r [] = None ->
  forall segs fuel, cut_by r segs -> length (text_of segs) < fuel ->
                    scan r fuel (text_of segs) = toks_of segs.
Proof.
  intros Hnil. induction segs as [|[s|m] segs IH]; intros fuel Hcut Hfuel.
  - destruct fuel as [|fuel]; [lia|]. rewrite scan_S. simpl. now rewrite Hnil.
  - destruct Hcut as [Hs Hcut]. cbn [text_of toks_of] in *.
    rewrite scan_plain by assumption. f_equal. apply IH; [exact Hcut|].
    rewrite length_app in Hfuel. lia.
  - destruct Hcut as (Hne & He & Hcut). cbn [text_of toks_of] in *.
    destruct fuel as [|fuel]; [lia|].
    rewrite scan_special by assumption. f_equal. apply IH; [exact Hcut|].
    rewrite length_app in Hfuel. destruct m; [congruence | simpl in Hfuel; lia].
Qed.

Lemma tokens_cut (r : regex) (segs : list seg) :
  exec r [] = None -> cut_by r segs -> tokens r (text_of segs) = toks_of segs.
Proof. intros Hnil Hcut. apply scan_cut; auto. Qed.

Lemma hits_toks_of (segs : list seg) : hits (toks_of segs) = specials segs.
Proof.
  induction segs as [|[s|m] segs IH]; simpl; [reflexivity | | now f_equal].
  induction s as [|c s IHs]; simpl; auto.
Qed.

Lemma subst_toks_of (St : Type) (f : St -> jsstring -> jsstring * St) :
  forall segs st, subst f st (toks_of segs) = fill_segs f st segs.
Proof.
  induction segs as [|[s|m] segs IH]; intros st; simpl.
  - reflexivity.
  - rewrite <- IH. induction s as [|c s IHs]; simpl.
    + now destruct (subst f st (toks_of segs)).
    + rewrite IHs. now destruct (subst f st (toks_of segs)).
  - destruct (f st m) as [rep st1]. now rewrite IH.
Qed.

Lemma matches_cut (r : regex) (segs : list seg) :
  exec r [] = None -> cut_by r segs -> matches r (text_of segs) = specials segs.
Proof. intros Hnil Hcut. unfold matches. now rewrite tokens_cut, hits_toks_of. Qed.

Lemma replace_with_cut (St : Type) (r : regex) (f : St -> jsstring -> jsstring * St)
      (st : St) (segs : list seg) :
  exec r [] = None -> cut_by r segs ->
  replace_with r f st (text_of segs) = fill_segs f st segs.
Proof. intros Hnil Hcut. unfold replace_with. now rewrite tokens_cut, subst_toks_of. Qed.

(** ** Paragraphs as layouts *)

Lemma kind_eqb_eq (a b : kind) : kind_eqb a b = true <-> a = b.
Proof. destruct a, b; simpl; split; congruence. Qed.

Lemma text_of_segs_chunks (v : view) (k0 : kind) (cs : list chunk) :
  text_of (segs_chunks v k0 cs) = render_chunks v cs.
Proof.
  induction cs as [|c cs IH]; [reflexivity|].
  unfold segs_chunks, render_chunks in *. cbn [flat_map seg_of app].
  destruct (kind_eqb (ckind c) k0); cbn [text_of]; now rewrite IH, app_assoc.
Qed.

Lemma text_of_segs_of (v : view) (k0 : kind) (p : para) :
  text_of (segs_of v k0 p) = render v p.
Proof. unfold segs_of, render. cbn [text_of]. now rewrite text_of_segs_chunks. Qed.

Lemma shown_set_view (v : view) (k : kind) (b : bool) (c : chunk) :
  shown (set_view v k b) c
  = if kind_eqb (ckind c) k
    then (if b then placeholder k else wrap k (cbody c))
    else shown v c.
Proof. unfold shown. destruct c as [kc body after], kc, k; reflexivity. Qed.

Lemma specials_segs_chunks (v : view) (k0 : kind) (cs : list chunk) :
  hidden v k0 = false -> specials (segs_chunks v k0 cs) = occurrences k0 cs.
Proof.
  intros Hv. induction cs as [|c cs IH]; [reflexivity|].
  unfold segs_chunks, occurrences in *. cbn [flat_map seg_of app filter].
  destruct (kind_eqb (ckind c) k0) eqn:E; cbn [specials map]; [|exact IH].
  apply kind_eqb_eq in E. unfold shown. rewrite E, Hv. now f_equal.
Qed.

(** A pass that writes the placeholder of [k0] for every chunk of kind
    [k0]. *)
Lemma fill_placeholder (v : view) (k0 : kind) (cs : list chunk) :
  fst (fill_segs (fun (_ : unit) (_ : jsstring) => (placeholder k0, tt)) tt
                 (segs_chunks v k0 cs))
  = render_chunks (set_view v k0 true) cs.
Proof.
  induction cs as [|c cs IH]; [reflexivity|].
  unfold segs_chunks, render_chunks in *. cbn [flat_map seg_of app].
  rewrite shown_set_view.
  destruct (kind_eqb (ckind c) k0); cbn [fill_segs];
    destruct (fill_segs _ tt (flat_map (seg_of v k0) cs)) as [out []];
    simpl in *; now rewrite IH, app_assoc.
Qed.

(** A pass that writes, for the chunks of kind [k0], what the counter
    picks: the occurrences themselves when the picks are the occurrences
    of the paragraph. *)
Lemma fill_pick (v : view) (k0 : kind) (arr : list jsstring) (mapping : list nat) :
  forall cs n,
    (forall j o, nth_error (occurrences k0 cs) j = Some o -> pick arr mapping (n + j) = o) ->
    fill_segs (fill arr mapping) n (segs_chunks v k0 cs)
    = (render_chunks (set_view v k0 false) cs, n + length (occurrences k0 cs)).
Proof.
  induction cs as [|c cs IH]; intros n Hpick.
  - simpl. now rewrite Nat.add_0_r.
  - unfold segs_chunks, render_chunks, occurrences in *. cbn [flat_map seg_of app filter].
    rewrite shown_set_view.
    destruct (kind_eqb (ckind c) k0) eqn:E; cbn [fill_segs fill map length].
    + assert (Hp0 : pick arr mapping n = wrap k0 (cbody c)).
      { rewrite <- (Nat.add_0_r n). apply Hpick.
        unfold occurrences. cbn [filter]. now rewrite E. }
      rewrite (IH (S n)).
      * rewrite Hp0. f_equal; [now rewrite <- app_assoc | lia].
      * intros j o Hj. replace (S n + j) with (n + S j) by lia. apply Hpick.
        unfold occurrences. cbn [filter]. now rewrite E.
    + rewrite (IH n).
      * f_equal. now rewrite <- app_assoc.
      * intros j o Hj. apply Hpick. unfold occurrences. cbn [filter]. now rewrite E.
Qed.

(** ** What a pass steps over *)

Lemma regex_for_first (n : needle) :
  exists r, regex_for n = Seq (Cls false [first_of n]) r.
Proof. destruct n as [[]|[]]; eexists; reflexivity. Qed.

Lemma regex_for_second (n : needle) :
  n <> Occurrence Math ->
  exists b r, regex_for n = Seq (Cls false [first_of n]) (Seq (Cls false [b]) r) /\
              (forall k, n = Token k -> b = 95%N) /\ (n = Occurrence Widget -> b = 91%N).
Proof.
  destruct n as [[]|[]]; intros H; try congruence; do 2 eexists;
    (split; [reflexivity|split; [intros k [=]; reflexivity || congruence | try discriminate; auto]]).
Qed.

Lemma exec_nil (n : needle) : exec (regex_for n) [] = None.
Proof. destruct n as [[]|[]]; reflexivity. Qed.

(** A math or a plain text holds no start of a graphie or of a widget: it
    has no opening bracket. *)
Lemma inert_second (a b : char) (r : regex) (s : jsstring) :
  none_of [b] s = true -> N.eqb (last s 0%N) a = false ->
  inert (Seq (Cls false [a]) (Seq (Cls false [b]) r)) s.
Proof.
  intros H Hlast s1 c s2 R ->. destruct s2 as [|c' s2].
  - rewrite last_last in Hlast. now apply exec_first.
  - apply exec_second. cbn [app].
    change (s1 ++ c :: c' :: s2) with (s1 ++ [c] ++ c' :: s2) in H.
    rewrite app_assoc in H. apply none_of_at in H.
    simpl in H. now rewrite orb_false_r in H.
Qed.

(** Inside a paragraph no match starts in a plain text, whatever the pass:
    the text holds no [$], [[] or [_], and an exclamation mark at its end
    is followed by no [[](]. *)
Lemma text_inert (n : needle) (t R : jsstring) :
  plain t = true -> opens R ->
  forall s1 c s2, t = s1 ++ c :: s2 -> exec (regex_for n) (c :: s2 ++ R) = None.
Proof.
  intros H HR s1 c s2 E.
  assert (Hfree : n <> Occurrence Graphie -> exec (regex_for n) (c :: s2 ++ R) = None).
  { intros Hn. destruct (regex_for_first n) as [r Hr]. rewrite Hr.
    apply (@inert_first (first_of n) r t) with (s1 := s1); [|exact E].
    revert H. apply none_of_weaken. intros x [<-|[]].
    destruct n as [[]|[]]; simpl; tauto. }
  destruct n as [[]|k]; try (apply Hfree; discriminate).
  cbn [regex_for regex_of]. rewrite GRAPHIE_REGEX_eq. subst t.
  destruct s2 as [|c' s2].
  - cbn [app]. destruct (N.eqb_spec c 33) as [->|Hc];
      [|apply exec_first; now apply N.eqb_neq].
    destruct R as [|x R']; [reflexivity|]. simpl in HR.
    destruct HR as [->|[->|[[-> [R'' ->]]|[-> _]]]]; try (now apply exec_second).
    reflexivity.
  - apply exec_second. cbn [app].
    change (s1 ++ c :: c' :: s2) with (s1 ++ [c] ++ c' :: s2) in H.
    rewrite app_assoc in H. apply none_of_at in H.
    eapply existsb_eqb_false; eauto. simpl; tauto.
Qed.


Lemma none_of_wrap (cs : list char) (k : kind) (body : jsstring) :
  none_of cs (opener k) = true -> none_of cs body = true -> none_of cs (closer k) = true ->
  none_of cs (wrap k body) = true.
Proof. intros H1 H2 H3. unfold wrap. now rewrite !none_of_app, H1, H2, H3. Qed.

Lemma no_pair_none_l (a b : char) (s : jsstring) :
  none_of [a] s = true -> no_pair a b s = true.
Proof.
  induction s as [|c s IH]; [reflexivity|]. cbn [none_of forallb existsb no_pair].
  rewrite orb_false_r. intros H. apply andb_true_iff in H. destruct H as [Hc Hs].
  apply negb_true_iff in Hc. rewrite Hc. simpl. now apply IH.
Qed.

Lemma no_pair_none_r (a b : char) (s : jsstring) :
  none_of [b] s = true -> no_pair a b s = true.
Proof.
  induction s as [|c s IH]; [reflexivity|]. cbn [none_of forallb no_pair].
  intros H. apply andb_true_iff in H. destruct H as [_ Hs].
  rewrite (IH Hs), andb_true_r. destruct s as [|c' s]; [now rewrite andb_false_r|].
  cbn [none_of forallb existsb] in Hs. rewrite orb_false_r in Hs.
  apply andb_true_iff in Hs. destruct Hs as [Hc' _]. apply negb_true_iff in Hc'.
  now rewrite Hc', andb_false_r.
Qed.

Lemma no_pair_app_l (a b : char) (pre s : jsstring) :
  none_of [a] pre = true -> no_pair a b (pre ++ s) = no_pair a b s.
Proof.
  induction pre as [|c pre IH]; [reflexivity|].
  cbn [none_of forallb existsb no_pair app].
  rewrite orb_false_r. intros H. apply andb_true_iff in H. destruct H as [Hc Hs].
  apply negb_true_iff in Hc. rewrite Hc. simpl. now apply IH.
Qed.

Lemma no_pair_app_r (a b : char) (s post : jsstring) :
  none_of [b] post = true -> no_pair a b (s ++ post) = no_pair a b s.
Proof.
  intros Hc. induction s as [|y s IH].
  - simpl. now apply no_pair_none_r.
  - cbn [app no_pair]. rewrite IH. f_equal. f_equal. f_equal.
    destruct s as [|y' s]; [|reflexivity]. simpl.
    destruct post as [|z post]; [reflexivity|].
    cbn [none_of forallb existsb] in Hc. rewrite orb_false_r in Hc.
    apply andb_true_iff in Hc. destruct Hc as [Hz _]. now apply negb_true_iff in Hz.
Qed.

Lemma no_pair_wrap (a b : char) (k : kind) (body : jsstring) :
  none_of [a] (opener k) = true -> none_of [b] (closer k) = true ->
  no_pair a b body = true -> no_pair a b (wrap k body) = true.
Proof.
  intros H1 H2 H3. unfold wrap. now rewrite no_pair_app_l, no_pair_app_r.
Qed.

Lemma last_wrap (k : kind) (body : jsstring) :
  last (wrap k body) 0%N = last (closer k) 0%N.
Proof.
  unfold wrap. rewrite app_assoc.
  destruct k; cbn [closer]; try apply last_last.
  change [93%N; 93%N] with ([93%N] ++ [93%N]). rewrite app_assoc. apply last_last.
Qed.

Lemma wrap_nonempty (k : kind) (body : jsstring) : wrap k body <> [].
Proof. destruct k; discriminate. Qed.

Lemma placeholder_nonempty (k : kind) : placeholder k <> [].
Proof. destruct k; discriminate. Qed.

Lemma shown_nonempty (v : view) (c : chunk) : shown v c <> [].
Proof.
  unfold shown. destruct (hidden v (ckind c));
    [apply placeholder_nonempty | apply wrap_nonempty].
Qed.

(** While the occurrences of kind [k0] are looked for, a chunk of another
    kind holds no start of a match, masked or not. *)
Lemma shown_inert_occurrence (k0 : kind) (v : view) (c : chunk) :
  kind_eqb (ckind c) k0 = false -> body_ok (ckind c) (cbody c) = true ->
  inert (regex_of k0) (shown v c).
Proof.
  intros Hk Hok. unfold shown. destruct c as [k body after]. cbn [ckind cbody] in *.
  destruct (hidden v k).
  - destruct (regex_for_first (Occurrence k0)) as [r Hr]. cbn [regex_for] in Hr.
    rewrite Hr. apply inert_first. destruct k, k0; try discriminate Hk; reflexivity.
  - destruct k, k0; try discriminate Hk; cbn [regex_of].
    + (* a math while graphies are looked for: no bracket after a mark *)
      rewrite GRAPHIE_REGEX_eq. apply body_ok_Math in Hok. apply inert_pair.
      * apply no_pair_wrap; try reflexivity. tauto.
      * now rewrite last_wrap.
    + (* a math while widgets are looked for: no two brackets in a row *)
      rewrite WIDGET_REGEX_eq. apply body_ok_Math in Hok. apply inert_pair.
      * apply no_pair_wrap; try reflexivity. tauto.
      * now rewrite last_wrap.
    + rewrite MATH_REGEX_eq. apply inert_first. apply body_ok_Graphie in Hok.
      apply none_of_wrap; try reflexivity.
      eapply none_of_weaken; [|apply Hok]. intros x [<-|[]]; simpl; tauto.
    + (* a graphie while widgets are looked for: one bracket, then a closing one *)
      rewrite WIDGET_REGEX_eq. apply body_ok_Graphie in Hok. apply inert_pair.
      * unfold wrap. cbn [opener app no_pair]. simpl.
        rewrite no_pair_app_r by reflexivity. apply no_pair_none_l.
        eapply none_of_weaken; [|apply Hok]. intros x [<-|[]]; simpl; tauto.
      * now rewrite last_wrap.
    + rewrite MATH_REGEX_eq. apply inert_first. apply body_ok_Widget in Hok.
      apply none_of_wrap; try reflexivity.
      eapply none_of_weaken; [|apply Hok]. intros x [<-|[]]; simpl; tauto.
    + rewrite GRAPHIE_REGEX_eq. apply inert_first. apply body_ok_Widget in Hok.
      apply none_of_wrap; try reflexivity.
      eapply none_of_weaken; [|apply Hok]. intros x [<-|[]]; simpl; tauto.
Qed.

(** A math or a graphie holds no placeholder: it has no two underscores in
    a row. *)
Lemma wrap_inert_token (k0 k : kind) (body : jsstring) :
  k <> Widget -> body_ok k body = true -> inert (lit_of (placeholder k0)) (wrap k body).
Proof.
  intros Hk Hok.
  assert (Hd : no_pair 95%N 95%N body = true)
    by (destruct k; [apply body_ok_Math in Hok | apply body_ok_Graphie in Hok | congruence]; tauto).
  destruct (regex_for_second (n := Token k0)) as (b & r & Hr & Hb & _); [discriminate|].
  cbn [regex_for first_of] in Hr. rewrite Hr, (Hb k0 eq_refl). apply inert_pair.
  - apply no_pair_wrap; [destruct k; reflexivity | destruct k; reflexivity | exact Hd].
  - rewrite last_wrap. destruct k; reflexivity.
Qed.

Lemma each_suffix_spec (Q : jsstring -> Prop) (s : jsstring) :
  each_suffix Q s -> forall s1 x s2, s = s1 ++ x :: s2 -> Q (x :: s2).
Proof.
  induction s as [|c s IH]; intros H s1 x s2 E.
  - destruct s1; discriminate.
  - destruct H as [Hc Hs]. destruct s1 as [|c1 s1]; simpl in E.
    + now injection E as -> ->.
    + injection E as -> E. eapply IH; eauto.
Qed.

Lemma placeholder_word (k : kind) : placeholder k = 95%N :: 95%N :: word k ++ [95%N; 95%N].
Proof. destruct k; reflexivity. Qed.

Lemma opens_not_word (k : kind) (R : jsstring) :
  opens R -> forall c R', R = c :: R' -> ~ In c (word k).
Proof.
  intros H c R' ->. simpl in H.
  destruct H as [->|[->|[[-> _]|[-> _]]]]; destruct k; simpl; intuition discriminate.
Qed.

(** After the two underscores that end a masked chunk, the name of the
    placeholder looked for does not follow. *)
Lemma word_guard (w after R : jsstring) :
  none_of [95%N] after = true -> after <> w ->
  (forall c R', R = c :: R' -> ~ In c w) ->
  starts_with (w ++ [95%N; 95%N]) (after ++ R) = false.
Proof.
  revert after. induction w as [|x w IH]; intros after Hplain Hne HR.
  - destruct after as [|c after]; [congruence|].
    cbn [none_of forallb existsb] in Hplain. rewrite orb_false_r in Hplain.
    apply andb_true_iff in Hplain. destruct Hplain as [Hc _].
    apply negb_true_iff in Hc. cbn [app starts_with].
    now rewrite N.eqb_sym, Hc.
  - destruct after as [|c after].
    + cbn [app]. destruct R as [|c R']; [reflexivity|]. cbn [starts_with].
      destruct (N.eqb_spec x c) as [->|]; [|reflexivity].
      exfalso. apply (HR c R' eq_refl). now left.
    + cbn [app starts_with]. destruct (N.eqb_spec x c) as [->|]; [|reflexivity].
      cbn [none_of forallb] in Hplain. apply andb_true_iff in Hplain.
      destruct Hplain as [_ Hplain]. simpl. apply IH; [exact Hplain | congruence |].
      intros c' R' E Hin. apply (HR c' R' E). now right.
Qed.

Lemma plain_no_underscore (t : jsstring) : plain t = true -> none_of [95%N] t = true.
Proof. apply none_of_weaken. intros x [<-|[]]. simpl; tauto. Qed.

(** A masked chunk of kind [k] holds no placeholder of kind [k0], and none
    starts on its last underscores either. *)
Lemma placeholder_inert_token (k0 k : kind) (after R : jsstring) :
  kind_eqb k k0 = false -> k0 <> Widget ->
  plain after = true -> after <> word k0 -> opens R ->
  forall s1 x s2, placeholder k = s1 ++ x :: s2 ->
                  exec (lit_of (placeholder k0)) (x :: s2 ++ after ++ R) = None.
Proof.
  intros Hk Hk0 Hplain Hne HR.
  apply (each_suffix_spec
           (fun suf => exec (lit_of (placeholder k0)) (suf ++ after ++ R) = None)).
  assert (H2 : starts_with (placeholder k0) (95%N :: 95%N :: after ++ R) = false).
  { rewrite placeholder_word. cbn [starts_with]. rewrite N.eqb_refl. simpl.
    apply word_guard; [now apply plain_no_underscore | exact Hne |].
    now apply opens_not_word. }
  assert (H1 : starts_with (placeholder k0) (95%N :: after ++ R) = false).
  { rewrite placeholder_word. cbn [starts_with]. rewrite N.eqb_refl. simpl.
    destruct after as [|c after].
    - destruct R as [|c R']; [reflexivity|]. simpl in HR. cbn [app starts_with].
      destruct HR as [->|[->|[[-> _]|[-> [R'' ->]]]]]; try reflexivity.
      destruct k0; reflexivity.
    - apply plain_no_underscore in Hplain.
      cbn [none_of forallb existsb] in Hplain. rewrite orb_false_r in Hplain.
      apply andb_true_iff in Hplain. destruct Hplain as [Hc _].
      apply negb_true_iff in Hc. cbn [app starts_with]. now rewrite N.eqb_sym, Hc. }
  destruct k, k0; try discriminate Hk; try congruence;
    cbn [placeholder] in H1, H2;
    cbn [placeholder each_suffix MATH_PH GRAPHIE_PH WIDGET_PH];
    repeat split; rewrite exec_lit;
      try reflexivity;
      match goal with
      | |- (if ?b then _ else _) = _ =>
          first [ replace b with false by (symmetry; exact H2)
                | replace b with false by (symmetry; exact H1) ]
      end; reflexivity.
Qed.

Lemma opens_render_chunks (v : view) (cs : list chunk) : opens (render_chunks v cs).
Proof.
  destruct cs as [|[k body after] cs]; [exact I|].
  unfold render_chunks, shown. cbn [flat_map ckind cbody].
  destruct (hidden v k), k; simpl; eauto 6.
Qed.

(** ** The passes find the chunks *)

Lemma cut_chunks (r : regex) (v : view) (k0 : kind)
      (good : chunk -> Prop) (J : jsstring -> Prop) :
  (forall cs, J (render_chunks v cs)) ->
  (forall c R, good c -> J R ->
     (forall s1 x s2, cafter c = s1 ++ x :: s2 -> exec r (x :: s2 ++ R) = None) /\
     (if kind_eqb (ckind c) k0
      then exec r (shown v c ++ cafter c ++ R) = Some (length (shown v c))
      else forall s1 x s2, shown v c = s1 ++ x :: s2 ->
                           exec r (x :: s2 ++ cafter c ++ R) = None)) ->
  forall cs, Forall good cs -> cut_by r (segs_chunks v k0 cs).
Proof.
  intros HJ Hstep. induction cs as [|c cs IH]; intros Hgood; [exact I|].
  inversion Hgood as [|? ? Hc Hcs]; subst.
  destruct (Hstep c (render_chunks v cs) Hc (HJ cs)) as [Hafter Hshown].
  unfold segs_chunks. cbn [flat_map seg_of app].
  fold (segs_chunks v k0 cs).
  destruct (kind_eqb (ckind c) k0); cbn [cut_by text_of]; rewrite text_of_segs_chunks.
  - split; [apply shown_nonempty|]. split; [exact Hshown|]. split; [exact Hafter | now apply IH].
  - split; [exact Hshown|]. split; [exact Hafter | now apply IH].
Qed.

Lemma para_weak_inv (p : para) :
  para_weak p = true ->
  plain (lead p) = true /\
  Forall (fun c => body_ok (ckind c) (cbody c) = true /\ plain (cafter c) = true) (chunks p).
Proof.
  unfold para_weak. intros H. apply andb_true_iff in H. destruct H as [H1 H2].
  split; [exact H1|]. rewrite forallb_forall in H2. apply Forall_forall.
  intros c Hc. specialize (H2 c Hc). unfold chunk_weak in H2.
  now apply andb_true_iff in H2.
Qed.

Lemma para_ok_inv (p : para) :
  para_ok p = true ->
  plain (lead p) = true /\
  Forall (fun c => body_ok (ckind c) (cbody c) = true /\ plain (cafter c) = true /\
                   after_ok (ckind c) (cafter c) = true) (chunks p).
Proof.
  unfold para_ok. intros H. apply andb_true_iff in H. destruct H as [H1 H2].
  split; [exact H1|]. rewrite forallb_forall in H2. apply Forall_forall.
  intros c Hc. specialize (H2 c Hc). unfold chunk_ok in H2.
  apply andb_true_iff in H2. destruct H2 as [H2 H3].
  apply andb_true_iff in H2. tauto.
Qed.

Lemma para_ok_weak (p : para) : para_ok p = true -> para_weak p = true.
Proof.
  unfold para_ok, para_weak. intros H. apply andb_true_iff in H. destruct H as [H1 H2].
  rewrite H1. simpl. rewrite forallb_forall in *. intros c Hc. specialize (H2 c Hc).
  unfold chunk_ok, chunk_weak in *. apply andb_true_iff in H2. tauto.
Qed.

(** The expression of a kind finds the occurrences of that kind and only
    them, whatever the other kinds are written as. *)
Lemma cut_occurrence (k0 : kind) (v : view) (p : para) :
  hidden v k0 = false -> para_weak p = true ->
  cut_by (regex_of k0) (segs_of v k0 p).
Proof.
  intros Hv Hp. apply para_weak_inv in Hp. destruct Hp as [Hlead Hcs].
  split.
  - rewrite text_of_segs_chunks.
    apply (@text_inert (Occurrence k0) _ _ Hlead (opens_render_chunks v (chunks p))).
  - eapply (@cut_chunks (regex_of k0) v k0 _ opens);
      [apply opens_render_chunks | | exact Hcs].
    intros c R [Hbody Hafter] HR. split.
    + apply (@text_inert (Occurrence k0) _ _ Hafter HR).
    + destruct (kind_eqb (ckind c) k0) eqn:E.
      * apply kind_eqb_eq in E. unfold shown. rewrite E, Hv.
        apply exec_kind_hit. now rewrite <- E.
      * intros s1 x s2 Es. now apply (@shown_inert_occurrence k0 v c E Hbody s1 x s2).
Qed.

Lemma after_ok_word (k0 k : kind) (after : jsstring) :
  kind_eqb k k0 = false -> hidden (stage k0) k = true ->
  after_ok k after = true -> after <> word k0.
Proof.
  intros Hk Hv H ->. destruct k, k0; try discriminate; discriminate H.
Qed.

(** The text of a placeholder finds the masked chunks of that kind and only
    them, at the stage [populateTemplate] looks for it. *)
Lemma cut_token (k0 : kind) (p : para) :
  para_ok p = true -> cut_by (lit_of (placeholder k0)) (segs_of (stage k0) k0 p).
Proof.
  intros Hp. apply para_ok_inv in Hp. destruct Hp as [Hlead Hcs].
  split.
  - rewrite text_of_segs_chunks.
    apply (@text_inert (Token k0) _ _ Hlead (opens_render_chunks (stage k0) (chunks p))).
  - eapply (@cut_chunks (lit_of (placeholder k0)) (stage k0) k0 _ opens);
      [apply opens_render_chunks | | exact Hcs].
    intros c R (Hbody & Hafter & Hword) HR. split.
    + apply (@text_inert (Token k0) _ _ Hafter HR).
    + destruct (kind_eqb (ckind c) k0) eqn:E.
      * apply kind_eqb_eq in E. unfold shown. rewrite E.
        replace (hidden (stage k0) k0) with true by (now destruct k0).
        apply exec_lit_hit.
      * unfold shown. destruct (hidden (stage k0) (ckind c)) eqn:Hh.
        -- apply placeholder_inert_token; auto.
           ++ intros ->. destruct (ckind c); discriminate.
           ++ now apply after_ok_word with (k := ckind c).
        -- intros s1 x s2 Es.
           assert (Hw : ckind c <> Widget)
             by (intros Hw; rewrite Hw in *; destruct k0; discriminate).
           now apply (@wrap_inert_token k0 (ckind c) (cbody c) Hw Hbody s1 x s2).
Qed.

Lemma replace_cut (r : regex) (rep : jsstring) (segs : list seg) :
  exec r [] = None -> cut_by r segs ->
  replace r rep (text_of segs)
  = fst (fill_segs (fun (_ : unit) (_ : jsstring) => (rep, tt)) tt segs).
Proof.
  intros Hnil Hcut. unfold replace, replace_fn. now rewrite replace_with_cut.
Qed.

(** One pass of [createTemplate] on a line: the occurrences of kind [k0]
    become placeholders. *)
Lemma replace_occurrences (k0 : kind) (v : view) (p : para) :
  hidden v k0 = false -> para_weak p = true ->
  replace (regex_of k0) (placeholder k0) (render v p) = render (set_view v k0 true) p.
Proof.
  intros Hv Hp. rewrite <- (text_of_segs_of v k0 p).
  rewrite replace_cut; [|apply (exec_nil (Occurrence k0)) | now apply cut_occurrence].
  unfold segs_of, render. cbn [fill_segs].
  pose proof (fill_placeholder v k0 (chunks p)) as H.
  destruct (fill_segs _ tt (segs_chunks v k0 (chunks p))) as [out u].
  simpl in *. now rewrite H.
Qed.

(** The line of the template made from a paragraph: every occurrence is
    masked. *)
Lemma templateLine_of_source (p : para) :
  para_weak p = true -> templateLine_of (source p) = render masked p.
Proof.
  intros Hp. unfold templateLine_of, source.
  change MATH_REGEX with (regex_of Math). change MATH_PH with (placeholder Math).
  change GRAPHIE_REGEX with (regex_of Graphie). change GRAPHIE_PH with (placeholder Graphie).
  change WIDGET_REGEX with (regex_of Widget). change WIDGET_PH with (placeholder Widget).
  rewrite (@replace_occurrences Math raw p eq_refl Hp).
  rewrite (@replace_occurrences Graphie (set_view raw Math true) p eq_refl Hp).
  rewrite (@replace_occurrences Widget
             (set_view (set_view raw Math true) Graphie true) p eq_refl Hp).
  reflexivity.
Qed.

(** The occurrences [match] finds in a paragraph are its chunks. *)
Lemma matches_source (k : kind) (p : para) :
  para_weak p = true -> matches (regex_of k) (source p) = occurrences k (chunks p).
Proof.
  intros Hp. unfold source. rewrite <- (text_of_segs_of raw k p).
  rewrite matches_cut;
    [|apply (exec_nil (Occurrence k)) | apply cut_occurrence; [now destruct k | exact Hp]].
  unfold segs_of. cbn [specials]. apply specials_segs_chunks. now destruct k.
Qed.

(** One pass of [populateTemplate] on a line: the placeholders of kind
    [k0] become what the counter picks. *)
Lemma replace_tokens (k0 : kind) (p : para) (arr : list jsstring) (mapping : list nat) (n : nat) :
  para_ok p = true ->
  (forall j o, nth_error (occurrences k0 (chunks p)) j = Some o ->
               pick arr mapping (n + j) = o) ->
  replace_with (lit_of (placeholder k0)) (fill arr mapping) n (render (stage k0) p)
  = (render (set_view (stage k0) k0 false) p, n + length (occurrences k0 (chunks p))).
Proof.
  intros Hp Hpick. rewrite <- (text_of_segs_of (stage k0) k0 p).
  rewrite replace_with_cut; [|apply (exec_nil (Token k0)) | now apply cut_token].
  unfold segs_of. cbn [fill_segs]. rewrite fill_pick by assumption.
  reflexivity.
Qed.

(** A template line made from a paragraph is populated back into the
    paragraph when each counter picks the occurrences of the paragraph. *)
Lemma populateLine_source (t : template) (arr : kind -> list jsstring)
      (st : counters) (p : para) :
  para_ok p = true ->
  (forall k j o, nth_error (occurrences k (chunks p)) j = Some o ->
                 pick (arr k) (mapping_of t k) (index_of st k + j) = o) ->
  populateLine t (arr Math) (arr Graphie) (arr Widget) st (render masked p)
  = (source p, advance st p).
Proof.
  intros Hp Hpick. unfold populateLine.
  change (lit "__MATH__") with (lit_of (placeholder Math)).
  change (lit "__GRAPHIE__") with (lit_of (placeholder Graphie)).
  change (lit "__WIDGET__") with (lit_of (placeholder Widget)).
  change masked with (stage Math).
  change (mathMapping t) with (mapping_of t Math).
  change (graphieMapping t) with (mapping_of t Graphie).
  change (widgetMapping t) with (mapping_of t Widget).
  change (mathIndex st) with (index_of st Math).
  change (graphieIndex st) with (index_of st Graphie).
  change (widgetIndex st) with (index_of st Widget).
  rewrite (replace_tokens Math p _ _ _ Hp (Hpick Math)).
  change (set_view (stage Math) Math false) with (stage Graphie).
  rewrite (replace_tokens Graphie p _ _ _ Hp (Hpick Graphie)).
  change (set_view (stage Graphie) Graphie false) with (stage Widget).
  rewrite (replace_tokens Widget p _ _ _ Hp (Hpick Widget)).
  reflexivity.
Qed.

(** ** Paragraphs joined *)

Lemma join_cons (l : jsstring) (ls : list jsstring) :
  ls <> [] -> join LINE_BREAK (l :: ls) = l ++ LINE_BREAK ++ join LINE_BREAK ls.
Proof. destruct ls; [congruence | reflexivity]. Qed.

Lemma split_go_join (s : jsstring) :
  (forall cur, join LINE_BREAK (split_go LINE_BREAK s 0 cur) = rev cur ++ s) /\
  join LINE_BREAK (split_go LINE_BREAK s 1 []) = tl s.
Proof.
  induction s as [|c s [IH0 IH1]]; (split; [intros cur|]).
  - simpl. now rewrite app_nil_r.
  - reflexivity.
  - rewrite split_go_0. destruct (N.eqb c 10 && starts_nl s) eqn:Hc.
    + apply andb_true_iff in Hc. destruct Hc as [Hc Hs].
      rewrite join_cons, IH1
        by (apply lines_ok_nonempty, (split_go_lines_ok s)).
      apply N.eqb_eq in Hc. subst c.
      destruct s as [|c' s]; [discriminate|]. simpl in Hs. apply N.eqb_eq in Hs. now subst.
    + rewrite IH0. simpl. now rewrite <- app_assoc.
  - simpl. apply (IH0 []).
Qed.

Lemma join_split (s : jsstring) : join LINE_BREAK (split LINE_BREAK s) = s.
Proof. unfold split. now rewrite (proj1 (split_go_join s)). Qed.

Lemma render_chunks_app (v : view) (a b : list chunk) :
  render_chunks v (a ++ b) = render_chunks v a ++ render_chunks v b.
Proof. apply flat_map_app. Qed.

Lemma render_chunks_snoc_after (v : view) (cs : list chunk) (t : jsstring) :
  cs <> [] -> render_chunks v (snoc_after cs t) = render_chunks v cs ++ t.
Proof.
  induction cs as [|c cs IH]; [congruence|]. intros _.
  destruct cs as [|c' cs].
  - unfold render_chunks, shown. simpl. now rewrite !app_nil_r, app_assoc.
  - change (snoc_after (c :: c' :: cs) t) with (c :: snoc_after (c' :: cs) t).
    unfold render_chunks in *. cbn [flat_map]. rewrite IH by discriminate.
    now rewrite app_assoc.
Qed.

Lemma occurrences_app (k : kind) (a b : list chunk) :
  occurrences k (a ++ b) = occurrences k a ++ occurrences k b.
Proof. unfold occurrences. now rewrite filter_app, map_app. Qed.

Lemma occurrences_snoc_after (k : kind) (cs : list chunk) (t : jsstring) :
  occurrences k (snoc_after cs t) = occurrences k cs.
Proof.
  induction cs as [|c cs IH]; [reflexivity|]. destruct cs as [|c' cs].
  - unfold occurrences. simpl. now destruct (kind_eqb (ckind c) k).
  - change (snoc_after (c :: c' :: cs) t) with (c :: snoc_after (c' :: cs) t).
    unfold occurrences in *. cbn [filter].
    destruct (kind_eqb (ckind c) k); cbn [map]; [f_equal|]; exact IH.
Qed.

Lemma render_glue (v : view) (p q : para) :
  render v (glue p q) = render v p ++ LINE_BREAK ++ render v q.
Proof.
  unfold glue, render. destruct (chunks p) as [|c cs] eqn:E; cbn [lead chunks].
  - simpl. now rewrite app_nil_r, <- !app_assoc.
  - rewrite render_chunks_app, render_chunks_snoc_after by discriminate.
    now rewrite <- !app_assoc.
Qed.

Lemma occurrences_glue (k : kind) (p q : para) :
  occurrences k (chunks (glue p q)) = occurrences k (chunks p) ++ occurrences k (chunks q).
Proof.
  unfold glue. destruct (chunks p) as [|c cs] eqn:E; cbn [chunks]; [reflexivity|].
  now rewrite occurrences_app, occurrences_snoc_after.
Qed.

Lemma plain_app (a b : jsstring) : plain (a ++ b) = plain a && plain b.
Proof. apply none_of_app. Qed.

Lemma chunks_weak_snoc_after (cs : list chunk) (t : jsstring) :
  plain t = true -> forallb chunk_weak cs = true ->
  forallb chunk_weak (snoc_after cs t) = true.
Proof.
  intros Ht. induction cs as [|c cs IH]; [reflexivity|]. destruct cs as [|c' cs].
  - simpl. unfold chunk_weak. cbn [ckind cbody cafter]. rewrite plain_app, Ht.
    now rewrite !andb_true_r.
  - change (snoc_after (c :: c' :: cs) t) with (c :: snoc_after (c' :: cs) t).
    cbn [forallb]. intros H. apply andb_true_iff in H. destruct H as [H1 H2].
    now rewrite H1, IH.
Qed.

Lemma para_weak_glue (p q : para) :
  para_weak p = true -> para_weak q = true -> para_weak (glue p q) = true.
Proof.
  unfold para_weak, glue. intros Hp Hq.
  apply andb_true_iff in Hp. destruct Hp as [Hp1 Hp2].
  apply andb_true_iff in Hq. destruct Hq as [Hq1 Hq2].
  destruct (chunks p) as [|c cs] eqn:E; cbn [lead chunks].
  - now rewrite !plain_app, Hp1, Hq1, Hq2.
  - rewrite Hp1, forallb_app, Hq2, chunks_weak_snoc_after; auto.
Qed.

Lemma merge_cons (p : para) (ps : list para) :
  ps <> [] -> merge (p :: ps) = glue p (merge ps).
Proof. destruct ps; [congruence | reflexivity]. Qed.

Lemma merge_spec (v : view) (ps : list para) :
  ps <> [] -> Forall (fun p => para_weak p = true) ps ->
  render v (merge ps) = join LINE_BREAK (map (render v) ps) /\
  (forall k, occurrences k (chunks (merge ps)) = occs k ps) /\
  para_weak (merge ps) = true.
Proof.
  induction ps as [|p ps IH]; [congruence|]. intros _ Hall.
  inversion Hall as [|? ? Hp Hps]; subst. destruct ps as [|q ps].
  - simpl. repeat split; auto. intros k. unfold occs. simpl. now rewrite app_nil_r.
  - destruct IH as (IH1 & IH2 & IH3); [discriminate | exact Hps|].
    rewrite merge_cons by discriminate. repeat split.
    + rewrite render_glue, IH1. reflexivity.
    + intros k. rewrite occurrences_glue, IH2. reflexivity.
    + now apply para_weak_glue.
Qed.

(** ** The round trip *)

Lemma pick_mapped (arr outs : list jsstring) (mapping : list nat) :
  Forall2 (fun o i => nth_error arr i = Some o) outs mapping ->
  forall j o, nth_error outs j = Some o -> pick arr mapping j = o.
Proof.
  intros H. induction H as [|o' i outs mapping Hi _ IH]; intros j o Hj.
  - destruct j; discriminate.
  - destruct j as [|j]; simpl in Hj.
    + injection Hj as ->. unfold pick. simpl. now rewrite Hi.
    + unfold pick in *. simpl. now apply IH.
Qed.

Lemma occs_app (k : kind) (a b : list para) : occs k (a ++ b) = occs k a ++ occs k b.
Proof. apply flat_map_app. Qed.

Lemma populateLines_source (t : template) (arr : kind -> list jsstring) :
  forall todo done englishLines st,
    lines t = map (render masked) (done ++ todo) ->
    length englishLines = length todo ->
    Forall (fun p => para_ok p = true) todo ->
    (forall k, index_of st k = length (occs k done)) ->
    (forall k j o, nth_error (occs k (done ++ todo)) j = Some o ->
                   pick (arr k) (mapping_of t k) j = o) ->
    populateLines t (arr Math) (arr Graphie) (arr Widget) englishLines (length done) st
    = Normal (map source todo).
Proof.
  induction todo as [|p todo IH]; intros done englishLines st Hlines Hlen Hok Hst Hpick.
  - destruct englishLines; [reflexivity | discriminate].
  - destruct englishLines as [|e englishLines]; [discriminate|].
    inversion Hok as [|? ? Hp Hrest]; subst.
    cbn [populateLines]. rewrite Hlines.
    rewrite nth_error_map, nth_error_app2, Nat.sub_diag by lia. cbn [nth_error option_map].
    rewrite populateLine_source; [|exact Hp|].
    + replace (S (length done)) with (length (done ++ [p]))
        by (rewrite length_app; simpl; lia).
      rewrite (IH (done ++ [p]) englishLines (advance st p)).
      * reflexivity.
      * now rewrite <- app_assoc.
      * simpl in Hlen. lia.
      * exact Hrest.
      * intros k. rewrite occs_app, length_app. unfold occs at 2. cbn [flat_map].
        rewrite app_nil_r, <- Hst. now destruct k.
      * intros k j o Hj. apply Hpick. now rewrite <- app_assoc in Hj.
    + intros k j o Hj. apply Hpick. rewrite Hst, occs_app.
      rewrite nth_error_app2, Nat.add_comm, Nat.add_sub by lia.
      unfold occs. cbn [flat_map]. rewrite nth_error_app1; [exact Hj|].
      apply nth_error_Some. congruence.
Qed.

Lemma rewrite_output_other (lang output : jsstring) :
  streq lang PT = false -> rewrite_output lang output = output.
Proof. intros H. unfold rewrite_output. now rewrite H. Qed.

(** C1, amended: for a language other than [pt], an English string with as
    many paragraphs as the translation, and a translation whose paragraphs
    are made of plain text and well-formed occurrences, each with a
    counterpart in the English string, the template of the pair populated
    with the English string gives the translation back. *)
Theorem populate_createTemplate_roundtrip
        (ps : list para) (englishStr translatedStr lang : jsstring) :
  split LINE_BREAK translatedStr = map source ps ->
  Forall (fun p => para_ok p = true) ps ->
  paragraphs englishStr = paragraphs translatedStr ->
  streq lang PT = false ->
  (forall k, ~ unmatched k englishStr translatedStr lang) ->
  exists t, createTemplate englishStr translatedStr lang = inl t /\
            populateTemplate t englishStr lang = Normal translatedStr.
Proof.
  intros Hsplit Hok Hpar Hlang Hm.
  assert (Hne : ps <> []).
  { intros ->. pose proof (lines_ok_nonempty (split_lines_ok translatedStr)) as H.
    now rewrite Hsplit in H. }
  assert (HT : translatedStr = join LINE_BREAK (map source ps))
    by (now rewrite <- Hsplit, join_split).
  assert (Hweak : Forall (fun p => para_weak p = true) ps)
    by (revert Hok; apply Forall_impl; intros p; apply para_ok_weak).
  destruct (merge_spec raw Hne Hweak) as (Hr & Ho & Hw).
  assert (Hmatches : forall k, matches (regex_of k) translatedStr = occs k ps).
  { intros k. rewrite HT. change (map source ps) with (map (render raw) ps).
    rewrite <- Hr. change (render raw (merge ps)) with (source (merge ps)).
    now rewrite matches_source, Ho. }
  destruct (createTemplate englishStr translatedStr lang) as [t|e] eqn:Hc.
  2:{ apply createTemplate_inr in Hc. destruct Hc as (k & _ & Hk). now destruct (Hm k). }
  exists t. split; [reflexivity|].
  apply createTemplate_inl in Hc. destruct Hc as (Hlines & HgM & HgG & HgW).
  assert (Hlines' : lines t = map (render masked) ([] ++ ps)).
  { rewrite Hlines, Hsplit, map_map. apply map_ext_in. intros p Hp.
    apply templateLine_of_source. rewrite Forall_forall in Hweak. now apply Hweak. }
  assert (Hpick : forall k j o,
             nth_error (occs k ([] ++ ps)) j = Some o ->
             pick (matches (regex_of k) englishStr) (mapping_of t k) j = o).
  { intros k j o Hj.
    assert (Hg : getMapping englishStr translatedStr lang (regex_of k)
                 = Normal (mapping_of t k)) by (now destruct k).
    unfold getMapping in Hg. apply mapOutputs_normal in Hg.
    rewrite Hmatches in Hg. eapply pick_mapped; [|exact Hj].
    revert Hg. apply Forall2_impl. intros o' i Hi.
    now rewrite rewrite_output_other in Hi. }
  assert (Hrun : populateLines t (matches MATH_REGEX englishStr)
                   (matches GRAPHIE_REGEX englishStr) (matches WIDGET_REGEX englishStr)
                   (split LINE_BREAK englishStr) 0
                   {| mathIndex := 0; graphieIndex := 0; widgetIndex := 0 |}
                 = Normal (map source ps)).
  { apply (@populateLines_source t (fun k => matches (regex_of k) englishStr) ps []
             (split LINE_BREAK englishStr)
             {| mathIndex := 0; graphieIndex := 0; widgetIndex := 0 |} Hlines').
    - unfold paragraphs in Hpar. now rewrite Hpar, Hsplit, length_map.
    - exact Hok.
    - now intros [].
    - exact Hpick. }
  unfold populateTemplate. rewrite map_indexed_translateMath, Hrun.
  simpl. now rewrite <- HT.
Qed.

Lemma populate_createTemplate_roundtrip_witness :
  map source example_paras = split LINE_BREAK example_translated /\
  exists t, createTemplate example_english example_translated ES = inl t /\
            populateTemplate t example_english ES = Normal example_translated.
Proof.
  split; [vm_compute; reflexivity|].
  apply (@populate_createTemplate_roundtrip example_paras).
  - vm_compute; reflexivity.
  - repeat constructor.
  - vm_compute; reflexivity.
  - vm_compute; reflexivity.
  - intros k (o & Ho & Hno). apply Hno.
    destruct k; vm_compute in Ho; vm_compute; intuition.
Defined.

(** ** group *)

Section ItemProperties.

Variable Item : Type.
Variable getEnglishStr : Item -> jsstring.

Lemma own_none (V : Type) (o : object V) (k : jsstring) :
  own o k = None <-> ~ In k (keys o).
Proof.
  induction o as [|[k' v] o IH]; simpl; [tauto|].
  destruct (streq_spec k' k) as [->|Hne].
  - split; [discriminate | intros H; exfalso; apply H; now left].
  - rewrite IH. intuition.
Qed.

Lemma own_update (V : Type) (o : object V) (k k' : jsstring) (f : V -> V) :
  own (update o k f) k' = if streq k k' then option_map f (own o k) else own o k'.
Proof.
  induction o as [|[k0 v] o IH]; simpl.
  - now destruct (streq k k').
  - destruct (streq_spec k0 k) as [->|Hne]; simpl.
    + destruct (streq_spec k k') as [->|Hne']; reflexivity.
    + destruct (streq_spec k0 k') as [->|Hne'].
      * destruct (streq_spec k k'); [congruence | reflexivity].
      * exact IH.
Qed.

Lemma keys_update (V : Type) (o : object V) (k : jsstring) (f : V -> V) :
  keys (update o k f) = keys o.
Proof.
  induction o as [|[k0 v] o IH]; simpl; [reflexivity|].
  destruct (streq k0 k); simpl; [reflexivity | now rewrite IH].
Qed.

Lemma own_snoc (V : Type) (o : object V) (k k' : jsstring) (v : V) :
  own (o ++ [(k, v)]) k'
  = match own o k' with
    | Some b => Some b
    | None => if streq k k' then Some v else None
    end.
Proof.
  induction o as [|[k0 v0] o IH]; simpl; [reflexivity|].
  destruct (streq k0 k'); [reflexivity | exact IH].
Qed.

Lemma bucket_of_snoc (k : jsstring) (done : list Item) (x : Item) :
  bucket_of getEnglishStr k (done ++ [x])
  = bucket_of getEnglishStr k done ++ (if streq (key_of getEnglishStr x) k then [x] else []).
Proof. unfold bucket_of. rewrite filter_app. simpl. unfold key_of. now destruct (streq (key_of getEnglishStr x) k). Qed.

Lemma group_step_grouped (done : list Item) (g : object (list Item)) (x : Item) :
  grouped getEnglishStr done g -> inherited (key_of getEnglishStr x) = false ->
  exists g', group_step getEnglishStr g x = Normal g' /\ grouped getEnglishStr (done ++ [x]) g'.
Proof.
  intros [Hnd Hown] Hx. unfold group_step. change (normalizeString (getEnglishStr x)) with (key_of getEnglishStr x).
  destruct (own g (key_of getEnglishStr x)) as [b|] eqn:Hb.
  - eexists; split; [reflexivity|]. split; [now rewrite keys_update|].
    intros k. rewrite own_update, bucket_of_snoc, Hb. specialize (Hown k).
    destruct (streq_spec (key_of getEnglishStr x) k) as [<-|Hne].
    + rewrite Hb in Hown. simpl.
      destruct (bucket_of getEnglishStr (key_of getEnglishStr x) done) as [|y ys]; [discriminate|].
      injection Hown as ->. reflexivity.
    + rewrite app_nil_r. exact Hown.
  - rewrite Hx. eexists; split; [reflexivity|]. split.
    + unfold keys. rewrite map_app. simpl. fold (keys g).
      apply NoDup_app; [exact Hnd | repeat constructor; intros [] |].
      intros k Hk [<-|[]]. now apply own_none in Hb.
    + intros k. rewrite own_snoc, bucket_of_snoc, (Hown k).
      destruct (streq_spec (key_of getEnglishStr x) k) as [<-|Hne].
      * rewrite Hown in Hb.
        destruct (bucket_of getEnglishStr (key_of getEnglishStr x) done) as [|y ys]; [reflexivity | discriminate].
      * rewrite app_nil_r. now destruct (bucket_of getEnglishStr k done).
Qed.

Lemma group_loop_grouped (items done : list Item) (g : object (list Item)) :
  grouped getEnglishStr done g -> no_inherited_key getEnglishStr items ->
  exists g', group_loop getEnglishStr g items = Normal g' /\ grouped getEnglishStr (done ++ items) g'.
Proof.
  revert done g. induction items as [|x items IH]; intros done g Hg Hk.
  - exists g. rewrite app_nil_r. now split.
  - destruct (group_step_grouped x Hg) as (g1 & Hstep & Hg1); [apply Hk; now left|].
    destruct (IH (done ++ [x]) g1 Hg1) as (g' & Hloop & Hg').
    { intros y Hy. apply Hk. now right. }
    exists g'. simpl. rewrite Hstep. simpl. rewrite <- app_assoc in Hg'. now split.
Qed.

(** When no item has a normal form that is a key of [Object.prototype],
    [group] returns the partition of the items by normal form: the keys are
    distinct, the bucket under a key holds the items of that normal form in
    the order of the input, and no other key has a bucket. *)
Theorem group_partitions (items : list Item) :
  no_inherited_key getEnglishStr items ->
  exists g, group getEnglishStr items = Normal g /\
            NoDup (keys g) /\
            (forall k, own g k = match bucket_of getEnglishStr k items with
                                 | [] => None
                                 | b => Some b
                                 end) /\
            (forall x, In x items -> In (key_of getEnglishStr x) (keys g)).
Proof.
  intros Hk. destruct (@group_loop_grouped items [] []) as (g & Hg & Hnd & Hown); auto.
  - split; [constructor | reflexivity].
  - exists g. repeat split; auto. intros x Hx.
    destruct (in_dec (list_eq_dec N.eq_dec) (key_of getEnglishStr x) (keys g)) as [|Hn]; [assumption|].
    apply own_none in Hn. rewrite Hown in Hn.
    assert (Hin : In x (bucket_of getEnglishStr (key_of getEnglishStr x) items))
      by (apply filter_In; split; [exact Hx | apply streq_refl]).
    simpl in Hn. destruct (bucket_of getEnglishStr (key_of getEnglishStr x) items); [destruct Hin | discriminate].
Qed.

(** [suggest] answers with the placeholder translator when no reference
    pair is usable or the items fall into more than one group, provided
    [group] returns. *)
Theorem suggest_falls_back
        (translationPairs : list (option jsstring * option jsstring))
        (items : list Item) (lang : jsstring) (groups : object (list Item)) :
  group getEnglishStr items = Normal groups ->
  (exists e, findTranslationPair translationPairs = inr e) \/ 1 < length (keys groups) ->
  suggest getEnglishStr translationPairs items lang
  = Normal (inl (autoTranslatePlaceholders getEnglishStr items lang)).
Proof.
  intros Hg H. unfold suggest. rewrite Hg. simpl.
  destruct (findTranslationPair translationPairs) as [[E T]|e]; [|reflexivity].
  destruct H as [[e He]|Hlt]; [discriminate|].
  apply Nat.ltb_lt in Hlt. now rewrite Hlt.
Qed.

(** ** autoTranslatePlaceholders *)

Lemma test_whole_lit (w s : jsstring) : test_whole (lit_of w) s = streq s w.
Proof.
  unfold test_whole. rewrite rmatch_lit. revert s.
  induction w as [|x w IH]; intros [|c s]; try reflexivity.
  cbn [starts_with length skipn streq]. rewrite (N.eqb_sym x c).
  destruct (N.eqb c x); [apply IH | reflexivity].
Qed.

Lemma test_whole_alt (a b : regex) (s : jsstring) :
  test_whole (Alt a b) s = test_whole a s || test_whole b s.
Proof.
  unfold test_whole. rewrite rmatch_alt.
  now destruct (rmatch a s _).
Qed.

(** The placeholder translator, case by case: a string that is one math
    formula is handed to [translateMath], unless it contains [\text], in
    which case the pair holds the English string and [null]; a string that
    is one graphie or one widget is its own translation; any other string
    gets [null]. *)
Theorem autoTranslate1_cases (lang : jsstring) (item : Item) :
  autoTranslate1 getEnglishStr lang item
  = let englishStr := getEnglishStr item in
    let normalStr := normalizeString englishStr in
    if streq normalStr MATH_PH then
      match indexOf TEXT englishStr with
      | Some _ => (OfString englishStr, None)
      | None => (OfItem item, Some (translateMath englishStr (VStr lang)))
      end
    else if streq normalStr GRAPHIE_PH || streq normalStr WIDGET_PH
         then (OfItem item, Some englishStr)
         else (OfItem item, None).
Proof.
  unfold autoTranslate1, ONLY_PLACEHOLDER, lit. cbv zeta.
  rewrite !test_whole_alt, !test_whole_lit.
  change (str "__MATH__") with MATH_PH.
  change (str "__GRAPHIE__") with GRAPHIE_PH.
  change (str "__WIDGET__") with WIDGET_PH.
  now destruct (streq (normalizeString (getEnglishStr item)) MATH_PH).
Qed.

End ItemProperties.

(** The reference pair is the first pair whose two elements are truthy;
    there is an error when no pair is. *)
Theorem findTranslationPair_first
        (translationPairs : list (option jsstring * option jsstring)) :
  match findTranslationPair translationPairs with
  | inl (englishStr, translatedStr) =>
      exists before after,
        translationPairs = before ++ (Some englishStr, Some translatedStr) :: after /\
        englishStr <> [] /\ translatedStr <> [] /\
        Forall (fun p => truthy (fst p) && truthy (snd p) = false) before
  | inr e =>
      e = Error "couldn't find translation pair" /\
      Forall (fun p => truthy (fst p) && truthy (snd p) = false) translationPairs
  end.
Proof.
  induction translationPairs as [|[a b] ps IH]; simpl.
  - split; [reflexivity | constructor].
  - destruct (truthy a && truthy b) eqn:Hab.
    + apply andb_true_iff in Hab. destruct Hab as [Ha Hb].
      destruct a as [[|x a]|]; try discriminate. destruct b as [[|y b]|]; try discriminate.
      exists [], ps. repeat split; try discriminate. constructor.
    + destruct (findTranslationPair ps) as [[E T]|e].
      * destruct IH as (before & after & -> & HE & HT & Hall).
        exists ((a, b) :: before), after. repeat split; auto.
      * destruct IH as [-> Hall]. split; [reflexivity | now constructor].
Qed.


Lemma group_partitions_witness :
  exists g, group englishStr
                  [{| englishStr := str "add $5$"; id := 7 |};
                   {| englishStr := str "hello"; id := 8 |};
                   {| englishStr := str "add $6$"; id := 9 |}] = Normal g /\
            keys g = [str "add __MATH__"; str "hello"].
Proof.
  destruct (@group_partitions item englishStr
              [{| englishStr := str "add $5$"; id := 7 |};
               {| englishStr := str "hello"; id := 8 |};
               {| englishStr := str "add $6$"; id := 9 |}]) as (g & Hg & _).
  - intros x [<-|[<-|[<-|[]]]]; vm_compute; reflexivity.
  - exists g. split; [exact Hg|].
    vm_compute in Hg. injection Hg as <-. reflexivity.
Defined.

Lemma suggest_falls_back_witness :
  suggest englishStr [(Some (str "add $1$"), Some (str "some $2$"))]
          [{| englishStr := str "$5$"; id := 7 |};
           {| englishStr := str "hello"; id := 8 |}] ES
  = Normal (inl [(OfItem {| englishStr := str "$5$"; id := 7 |}, Some (str "$5$"));
                 (OfItem {| englishStr := str "hello"; id := 8 |}, None)]).
Proof.
  rewrite (@suggest_falls_back item englishStr _ _ ES
             [(str "__MATH__", [{| englishStr := str "$5$"; id := 7 |}]);
              (str "hello", [{| englishStr := str "hello"; id := 8 |}])]).
  - vm_compute; reflexivity.
  - vm_compute; reflexivity.
  - right. simpl. lia.
Defined.

(** ** getMapping and createTemplate: what a template holds *)

Lemma array_indexOf_first (x : jsstring) (arr : list jsstring) (i : nat) :
  array_indexOf x arr = Some i ->
  forall j, j < i -> nth_error arr j <> Some x.
Proof.
  revert i. induction arr as [|y arr IH]; intros i; simpl; [discriminate|].
  destruct (streq_spec y x) as [->|Hne].
  - intros [= <-] j Hj. lia.
  - destruct (array_indexOf x arr) as [i'|]; [|discriminate].
    intros [= <-] [|j] Hj; simpl; [congruence|].
    apply (IH i' eq_refl). lia.
Qed.

Lemma mapOutputs_first (lang : jsstring) (r : regex) (inputs : list jsstring) :
  forall outputs m,
    mapOutputs lang r inputs outputs = Normal m ->
    Forall2 (fun o j => array_indexOf (rewrite_output lang o) inputs = Some j) outputs m.
Proof.
  induction outputs as [|o outputs IH]; intros m; simpl.
  - intros [= <-]. constructor.
  - destruct (array_indexOf (rewrite_output lang o) inputs) as [j|] eqn:Hj; [|discriminate].
    destruct (mapOutputs lang r inputs outputs) as [m'|e]; [|discriminate].
    intros [= <-]. constructor; [exact Hj | now apply IH].
Qed.

Lemma Forall2_nth_error (A B : Type) (R : A -> B -> Prop) (l : list A) (l' : list B) :
  Forall2 R l l' ->
  forall i a, nth_error l i = Some a -> exists b, nth_error l' i = Some b /\ R a b.
Proof.
  induction 1 as [|a0 b0 l l' H0 _ IH]; intros [|i] a; simpl; try discriminate.
  - intros [= <-]. now exists b0.
  - apply IH.
Qed.

(** When [getMapping] returns, the mapping has one index per occurrence of
    the translated string, and the index of an occurrence is that of the
    first occurrence of the English string with the same text (after the
    Portuguese rewrite): two occurrences of the translation with the same
    text get the same index. *)
Theorem getMapping_first_index (englishStr translatedStr lang : jsstring)
        (findRegex : regex) (mapping : list nat) :
  getMapping englishStr translatedStr lang findRegex = Normal mapping ->
  length mapping = length (matches findRegex translatedStr) /\
  forall i output,
    nth_error (matches findRegex translatedStr) i = Some output ->
    exists j,
      nth_error mapping i = Some j /\
      nth_error (matches findRegex englishStr) j = Some (rewrite_output lang output) /\
      forall j', j' < j ->
        nth_error (matches findRegex englishStr) j' <> Some (rewrite_output lang output).
Proof.
  unfold getMapping. intros H. apply mapOutputs_first in H. split.
  - symmetry. eapply Forall2_length. exact H.
  - intros i output Hi.
    destruct (Forall2_nth_error H _ Hi) as (j & Hj & Hfound).
    exists j. split; [exact Hj|]. split.
    + now apply array_indexOf_some.
    + now apply array_indexOf_first.
Qed.

Lemma getMapping_first_index_witness :
  length [1; 1; 0] = length (matches MATH_REGEX mapping_translated) /\
  forall i output,
    nth_error (matches MATH_REGEX mapping_translated) i = Some output ->
    exists j,
      nth_error [1; 1; 0] i = Some j /\
      nth_error (matches MATH_REGEX mapping_english) j = Some (rewrite_output ES output) /\
      forall j', j' < j ->
        nth_error (matches MATH_REGEX mapping_english) j' <> Some (rewrite_output ES output).
Proof.
  apply (@getMapping_first_index mapping_english mapping_translated ES MATH_REGEX [1; 1; 0]).
  vm_compute; reflexivity.
Defined.

Lemma getMapping_unmatched (k : kind) (E T lang : jsstring) :
  unmatched k E T lang -> getMapping E T lang (regex_of k) = Throw (Error (message_of k)).
Proof.
  intros (o & Ho & Hno).
  destruct (getMapping E T lang (regex_of k)) as [m|e] eqn:Hg.
  - exfalso. apply Hno. unfold getMapping in Hg.
    now apply (mapOutputs_normal_in _ _ _ _ Hg).
  - apply getMapping_throws in Hg. now destruct Hg as [-> _].
Qed.

(** The three mappings are computed in the order math, graphies, widgets
    and the first failure is the error returned: a math mismatch hides a
    graphie or widget mismatch, and a graphie mismatch hides a widget
    mismatch. *)
Theorem createTemplate_error_order (englishStr translatedStr lang : jsstring) :
  (unmatched Math englishStr translatedStr lang ->
   createTemplate englishStr translatedStr lang = inr (Error "math doesn't match")) /\
  (~ unmatched Math englishStr translatedStr lang ->
   unmatched Graphie englishStr translatedStr lang ->
   createTemplate englishStr translatedStr lang = inr (Error "graphies don't match")) /\
  (~ unmatched Math englishStr translatedStr lang ->
   ~ unmatched Graphie englishStr translatedStr lang ->
   unmatched Widget englishStr translatedStr lang ->
   createTemplate englishStr translatedStr lang = inr (Error "widgets don't match")).
Proof.
  unfold createTemplate. repeat split.
  - intros H. apply getMapping_unmatched in H. simpl in H. now rewrite H.
  - intros HM H. apply getMapping_total in HM. destruct HM as [mm HM].
    apply getMapping_unmatched in H. simpl in HM, H. now rewrite HM, H.
  - intros HM HG H. apply getMapping_total in HM. destruct HM as [mm HM].
    apply getMapping_total in HG. destruct HG as [gm HG].
    apply getMapping_unmatched in H. simpl in HM, HG, H. now rewrite HM, HG, H.
Qed.

(** A template has one line per paragraph of the translation, and each of
    its mappings has one index per occurrence of that kind of the
    translation, every index being the position of an occurrence of the
    English string. *)
Theorem createTemplate_in_bounds (englishStr translatedStr lang : jsstring) (t : template) :
  createTemplate englishStr translatedStr lang = inl t ->
  length (lines t) = paragraphs translatedStr /\
  forall k,
    length (mapping_of t k) = length (matches (regex_of k) translatedStr) /\
    Forall (fun j => j < length (matches (regex_of k) englishStr)) (mapping_of t k).
Proof.
  intros H. apply createTemplate_inl in H. destruct H as (Hlines & HM & HG & HW).
  split; [now rewrite Hlines, length_map|].
  intros k.
  assert (Hg : getMapping englishStr translatedStr lang (regex_of k) = Normal (mapping_of t k))
    by (now destruct k).
  unfold getMapping in Hg. apply mapOutputs_normal in Hg. split.
  - symmetry. eapply Forall2_length. exact Hg.
  - induction Hg as [|o j outs m Hj _ IH]; constructor; [|exact IH].
    apply nth_error_Some. congruence.
Qed.

Lemma createTemplate_in_bounds_witness :
  length (lines {| lines := [str "hintz: da denom __MATH__ iz __MATH__"; str "simplifz __MATH__"];
                   mathMapping := [1; 1; 0]; graphieMapping := []; widgetMapping := [] |})
  = paragraphs mapping_translated /\
  forall k,
    length (mapping_of {| lines := [str "hintz: da denom __MATH__ iz __MATH__";
                                    str "simplifz __MATH__"];
                          mathMapping := [1; 1; 0]; graphieMapping := [];
                          widgetMapping := [] |} k)
    = length (matches (regex_of k) mapping_translated) /\
    Forall (fun j => j < length (matches (regex_of k) mapping_english))
           (mapping_of {| lines := [str "hintz: da denom __MATH__ iz __MATH__";
                                    str "simplifz __MATH__"];
                          mathMapping := [1; 1; 0]; graphieMapping := [];
                          widgetMapping := [] |} k).
Proof.
  apply (@createTemplate_in_bounds mapping_english mapping_translated ES).
  vm_compute; reflexivity.
Defined.

(** ** populateTemplate: the lines it reads *)

Lemma populateLine_total (t : template) (maths graphies widgets : list jsstring)
      (st : counters) (l : jsstring) :
  exists out st', populateLine t maths graphies widgets st l = (out, st').
Proof. destruct (populateLine t maths graphies widgets st l) as [out st']. now exists out, st'. Qed.

Lemma populateLines_bounds (t : template) (maths graphies widgets : list jsstring) :
  forall englishLines index st,
    (index + length englishLines <= length (lines t) ->
     exists ls, populateLines t maths graphies widgets englishLines index st = Normal ls) /\
    (index <= length (lines t) -> length (lines t) < index + length englishLines ->
     populateLines t maths graphies widgets englishLines index st = Throw TypeError).
Proof.
  induction englishLines as [|e englishLines IH]; intros index st; simpl.
  - split; [now exists [] | lia].
  - destruct (nth_error (lines t) index) as [l|] eqn:Hl.
    + assert (Hi : index < length (lines t)) by (apply nth_error_Some; congruence).
      destruct (populateLine t maths graphies widgets st l) as [out st'].
      destruct (IH (S index) st') as [Hok Hthrow]. split; intros H.
      * destruct Hok as [ls Hls]; [lia|]. rewrite Hls. now exists (out :: ls).
      * intros H'. rewrite Hthrow; [reflexivity | lia | lia].
    + apply nth_error_None in Hl. split; intros H; [lia | reflexivity].
Qed.

Lemma populateTemplate_cases (t : template) (englishStr lang : jsstring) :
  (paragraphs englishStr <= length (lines t) ->
   exists out, populateTemplate t englishStr lang = Normal out) /\
  (length (lines t) < paragraphs englishStr ->
   populateTemplate t englishStr lang = Throw TypeError).
Proof.
  unfold populateTemplate, paragraphs.
  set (maths := map_indexed _ 0 _).
  set (st := {| mathIndex := 0; graphieIndex := 0; widgetIndex := 0 |}).
  destruct (populateLines_bounds t maths (matches GRAPHIE_REGEX englishStr)
              (matches WIDGET_REGEX englishStr) (split LINE_BREAK englishStr) 0 st)
    as [Hok Hthrow]. simpl in Hok, Hthrow. split; intros H.
  - destruct (Hok H) as [ls Hls]. rewrite Hls. simpl. now eexists.
  - now rewrite (Hthrow (Nat.le_0_l _) H).
Qed.

(** [populateTemplate] throws a [TypeError] exactly when the English string
    has more paragraphs than the template has lines, and returns a string
    exactly when it has not. *)
Theorem populateTemplate_throws_iff (t : template) (englishStr lang : jsstring) :
  (populateTemplate t englishStr lang = Throw TypeError
   <-> length (lines t) < paragraphs englishStr) /\
  ((exists out, populateTemplate t englishStr lang = Normal out)
   <-> paragraphs englishStr <= length (lines t)).
Proof.
  destruct (populateTemplate_cases t englishStr lang) as [Hok Hthrow].
  destruct (Nat.le_gt_cases (paragraphs englishStr) (length (lines t))) as [Hle|Hgt].
  - destruct (Hok Hle) as [out Hout]. rewrite Hout. split; split; intros H.
    + discriminate.
    + lia.
    + exact Hle.
    + now eexists.
  - rewrite (Hthrow Hgt). split; split; intros H.
    + exact Hgt.
    + reflexivity.
    + destruct H as [out H]. discriminate.
    + lia.
Qed.

Lemma populateLines_length (t : template) (maths graphies widgets : list jsstring) :
  forall englishLines englishLines' index st,
    length englishLines = length englishLines' ->
    populateLines t maths graphies widgets englishLines index st
    = populateLines t maths graphies widgets englishLines' index st.
Proof.
  induction englishLines as [|e englishLines IH]; intros [|e' englishLines'] index st H;
    simpl in *; try discriminate; [reflexivity|].
  destruct (nth_error (lines t) index) as [l|]; [|reflexivity].
  destruct (populateLine t maths graphies widgets st l) as [out st'].
  rewrite (IH englishLines' (S index) st'); [reflexivity | lia].
Qed.

(** Of the English string, [populateTemplate] reads the number of
    paragraphs and the Math, Graphie and Widget occurrences only: neither
    the text around them nor [lang] has a part in the result. *)
Theorem populateTemplate_reads_occurrences (t : template)
        (englishStr englishStr' lang lang' : jsstring) :
  paragraphs englishStr = paragraphs englishStr' ->
  (forall k, matches (regex_of k) englishStr = matches (regex_of k) englishStr') ->
  populateTemplate t englishStr lang = populateTemplate t englishStr' lang'.
Proof.
  intros Hp Hm. unfold populateTemplate.
  pose proof (Hm Math) as HM. pose proof (Hm Graphie) as HG. pose proof (Hm Widget) as HW.
  simpl in HM, HG, HW. rewrite <- HM, <- HG, <- HW.
  now rewrite (populateLines_length t _ _ _ (split LINE_BREAK englishStr)
                 (split LINE_BREAK englishStr') 0 _ Hp).
Qed.

Lemma populateTemplate_reads_occurrences_witness :
  populateTemplate {| lines := [str "resolva __MATH__"]; mathMapping := [0];
                      graphieMapping := []; widgetMapping := [] |}
                   (str "solve $\sin x$") PT
  = populateTemplate {| lines := [str "resolva __MATH__"]; mathMapping := [0];
                        graphieMapping := []; widgetMapping := [] |}
                     (str "anything $\sin x$ else") ES.
Proof.
  apply populateTemplate_reads_occurrences.
  - reflexivity.
  - intros []; vm_compute; reflexivity.
Defined.

(** ** group and suggest: exceptions and the template path *)

Section SuggestProperties.

Variable Item : Type.
Variable getEnglishStr : Item -> jsstring.

Lemma own_some_in (V : Type) (o : object V) (k : jsstring) (v : V) :
  own o k = Some v -> In k (keys o).
Proof.
  intros H. destruct (in_dec (list_eq_dec N.eq_dec) k (keys o)) as [|Hn]; [assumption|].
  apply own_none in Hn. congruence.
Qed.

Lemma group_loop_throws (items : list Item) :
  forall g : object (list Item),
    (forall k, In k (keys g) -> inherited k = false) ->
    Exists (fun x => inherited (key_of getEnglishStr x) = true) items ->
    group_loop getEnglishStr g items = Throw TypeError.
Proof.
  induction items as [|x items IH]; intros g Hg Hex; [inversion Hex|].
  simpl. unfold group_step.
  change (normalizeString (getEnglishStr x)) with (key_of getEnglishStr x).
  destruct (own g (key_of getEnglishStr x)) as [b|] eqn:Hb.
  - pose proof (Hg _ (own_some_in _ _ Hb)) as Hx. simpl. apply IH.
    + intros k. rewrite keys_update. apply Hg.
    + inversion Hex as [? ? H|? ? H]; subst; [congruence | exact H].
  - destruct (inherited (key_of getEnglishStr x)) eqn:Hx; [reflexivity|].
    simpl. apply IH.
    + intros k. unfold keys. rewrite map_app, in_app_iff. simpl.
      intros [Hk|[<-|[]]]; [now apply Hg | exact Hx].
    + inversion Hex as [? ? H|? ? H]; subst; [congruence | exact H].
Qed.

(** [group] throws, and what it throws is a [TypeError], exactly when some
    item has a normalized English string that is the name of a property of
    [Object.prototype]; for every other list of items it returns. *)
Theorem group_throws_iff (items : list Item) :
  (group getEnglishStr items = Throw TypeError
   <-> Exists (fun x => inherited (key_of getEnglishStr x) = true) items) /\
  ((exists g, group getEnglishStr items = Normal g)
   <-> Forall (fun x => inherited (key_of getEnglishStr x) = false) items).
Proof.
  assert (Hthrow : Exists (fun x => inherited (key_of getEnglishStr x) = true) items ->
                   group getEnglishStr items = Throw TypeError).
  { intros H. apply group_loop_throws; [intros k [] | exact H]. }
  assert (Hok : Forall (fun x => inherited (key_of getEnglishStr x) = false) items ->
                exists g, group getEnglishStr items = Normal g).
  { intros H. destruct (@group_loop_grouped Item getEnglishStr items [] []) as (g & Hg & _).
    - split; [constructor | reflexivity].
    - intros x Hx. rewrite Forall_forall in H. now apply H.
    - now exists g. }
  destruct (Forall_Exists_dec (fun x => inherited (key_of getEnglishStr x) = false)
              (fun x => bool_dec _ false) items) as [Hall|Hex].
  - destruct (Hok Hall) as [g Hg]. rewrite Hg. split; split; intros H.
    + discriminate.
    + apply Hthrow in H. congruence.
    + exact Hall.
    + now exists g.
  - assert (Hex' : Exists (fun x => inherited (key_of getEnglishStr x) = true) items).
    { revert Hex. apply Exists_impl. intros x Hx. now destruct (inherited (key_of getEnglishStr x)). }
    rewrite (Hthrow Hex'). split; split; intros H.
    + exact Hex'.
    + reflexivity.
    + destruct H as [g H]. discriminate.
    + apply Hok in H. destruct H as [g H]. rewrite (Hthrow Hex') in H. discriminate.
Qed.

(** Items that share one normal form, none inherited, make one group at
    most. *)
Lemma group_single (items : list Item) :
  no_inherited_key getEnglishStr items ->
  (forall x y, In x items -> In y items ->
               key_of getEnglishStr x = key_of getEnglishStr y) ->
  exists g, group getEnglishStr items = Normal g /\ length (keys g) <= 1.
Proof.
  intros Hk Hsame.
  destruct (@group_loop_grouped Item getEnglishStr items [] []) as (g & Hg & Hnd & Hown); auto.
  { split; [constructor | reflexivity]. }
  exists g. split; [exact Hg|]. simpl in Hown.
  assert (Hkey : forall k, In k (keys g) -> exists x, In x items /\ key_of getEnglishStr x = k).
  { intros k Hin. destruct (own g k) as [b|] eqn:Hb.
    - rewrite Hown in Hb.
      destruct (bucket_of getEnglishStr k items) as [|x b'] eqn:Hbk; [discriminate|].
      assert (Hx : In x (bucket_of getEnglishStr k items)) by (rewrite Hbk; now left).
      apply filter_In in Hx. destruct Hx as [Hx Hkx]. apply streq_true in Hkx. now exists x.
    - apply own_none in Hb. contradiction. }
  destruct (keys g) as [|k1 [|k2 ks]]; simpl; try lia.
  exfalso. destruct (Hkey k1) as (x & Hx & <-); [now left|].
  destruct (Hkey k2) as (y & Hy & <-); [right; now left|].
  inversion Hnd as [|? ? Hnot _]; subst. apply Hnot. left. now apply Hsame.
Qed.

Lemma populateAll_normal (t : template) (lang : jsstring) (items : list Item) :
  Forall (fun x => paragraphs (getEnglishStr x) <= length (lines t)) items ->
  exists outs,
    populateAll getEnglishStr t lang items
    = Normal (combine (map OfItem items) (map Some outs)) /\
    Forall2 (fun x out => populateTemplate t (getEnglishStr x) lang = Normal out) items outs.
Proof.
  induction 1 as [|x items Hx _ IH].
  - exists []. split; [reflexivity | constructor].
  - destruct IH as (outs & Hall & Hf).
    destruct (proj1 (populateTemplate_cases t (getEnglishStr x) lang) Hx) as [out Hout].
    exists (out :: outs). split; [|now constructor].
    simpl. rewrite Hout. simpl. now rewrite Hall.
Qed.

Lemma populateAll_throws (t : template) (lang : jsstring) (items : list Item) :
  Exists (fun x => length (lines t) < paragraphs (getEnglishStr x)) items ->
  populateAll getEnglishStr t lang items = Throw TypeError.
Proof.
  induction items as [|x items IH]; intros Hex; [inversion Hex|]. simpl.
  destruct (populateTemplate_cases t (getEnglishStr x) lang) as [Hok Hthrow].
  destruct (Nat.le_gt_cases (paragraphs (getEnglishStr x)) (length (lines t))) as [Hle|Hgt].
  - destruct (Hok Hle) as [out Hout]. rewrite Hout. simpl.
    inversion Hex as [? ? H|? ? H]; subst; [lia|]. now rewrite (IH H).
  - now rewrite (Hthrow Hgt).
Qed.

(** The template path: with a usable reference pair whose template can be
    built, and items that share one normal form, [suggest] returns one pair
    per item, in order, made of the item and of the template populated
    with its English string, provided no item has more paragraphs than the
    reference translation. *)
Theorem suggest_populates
        (translationPairs : list (option jsstring * option jsstring))
        (items : list Item) (lang englishStr translatedStr : jsstring) (t : template) :
  no_inherited_key getEnglishStr items ->
  (forall x y, In x items -> In y items ->
               key_of getEnglishStr x = key_of getEnglishStr y) ->
  findTranslationPair translationPairs = inl (englishStr, translatedStr) ->
  createTemplate englishStr translatedStr lang = inl t ->
  Forall (fun x => paragraphs (getEnglishStr x) <= paragraphs translatedStr) items ->
  exists outs,
    suggest getEnglishStr translationPairs items lang
    = Normal (inl (combine (map OfItem items) (map Some outs))) /\
    Forall2 (fun x out => populateTemplate t (getEnglishStr x) lang = Normal out) items outs.
Proof.
  intros Hk Hsame Hpair Ht Hpar.
  destruct (group_single Hk Hsame) as (g & Hg & Hlen).
  assert (Hlines : length (lines t) = paragraphs translatedStr).
  { apply createTemplate_inl in Ht. destruct Ht as [-> _]. apply length_map. }
  rewrite <- Hlines in Hpar.
  destruct (populateAll_normal t lang Hpar) as (outs & Hall & Hf).
  exists outs. split; [|exact Hf].
  unfold suggest. rewrite Hg, Hpair. simpl.
  replace (1 <? length (keys g)) with false by (symmetry; apply Nat.ltb_ge; lia).
  now rewrite Ht, Hall.
Qed.

(** On the template path an item with more paragraphs than the reference
    translation makes [suggest] throw a [TypeError]: the template has no
    line for the extra paragraph. *)
Theorem suggest_throws_on_long_item
        (translationPairs : list (option jsstring * option jsstring))
        (items : list Item) (lang englishStr translatedStr : jsstring) (t : template) :
  no_inherited_key getEnglishStr items ->
  (forall x y, In x items -> In y items ->
               key_of getEnglishStr x = key_of getEnglishStr y) ->
  findTranslationPair translationPairs = inl (englishStr, translatedStr) ->
  createTemplate englishStr translatedStr lang = inl t ->
  Exists (fun x => paragraphs translatedStr < paragraphs (getEnglishStr x)) items ->
  suggest getEnglishStr translationPairs items lang = Throw TypeError.
Proof.
  intros Hk Hsame Hpair Ht Hpar.
  destruct (group_single Hk Hsame) as (g & Hg & Hlen).
  assert (Hlines : length (lines t) = paragraphs translatedStr).
  { apply createTemplate_inl in Ht. destruct Ht as [-> _]. apply length_map. }
  rewrite <- Hlines in Hpar.
  unfold suggest. rewrite Hg, Hpair. simpl.
  replace (1 <? length (keys g)) with false by (symmetry; apply Nat.ltb_ge; lia).
  now rewrite Ht, (populateAll_throws t lang Hpar).
Qed.

Lemma autoTranslate_pairs (lang : jsstring) (items : list Item) :
  Forall2 (pair_of getEnglishStr) items (autoTranslatePlaceholders getEnglishStr items lang).
Proof.
  induction items as [|x items IH]; simpl; constructor; [|exact IH].
  unfold autoTranslate1, pair_of.
  destruct (test_whole ONLY_PLACEHOLDER (normalizeString (getEnglishStr x)));
    [|left; reflexivity].
  destruct (streq (normalizeString (getEnglishStr x)) MATH_PH); [|left; reflexivity].
  destruct (indexOf TEXT (getEnglishStr x)); [right; now split | left; reflexivity].
Qed.

Lemma populateAll_pairs (t : template) (lang : jsstring) :
  forall items rs,
    populateAll getEnglishStr t lang items = Normal rs ->
    Forall2 (pair_of getEnglishStr) items rs.
Proof.
  induction items as [|x items IH]; intros rs; simpl.
  - intros [= <-]. constructor.
  - destruct (populateTemplate t (getEnglishStr x) lang) as [s|e]; [|discriminate]. simpl.
    destruct (populateAll getEnglishStr t lang items) as [rest|e]; [|discriminate]. simpl.
    intros [= <-]. constructor; [now left | now apply IH].
Qed.

(** Whenever [suggest] returns an array, the array has one pair per item,
    in the order of the items, and the pair of an item starts with the
    item, or with its English string when it holds [null] for math that
    contains [\text]. *)
Theorem suggest_one_pair_per_item
        (translationPairs : list (option jsstring * option jsstring))
        (items : list Item) (lang : jsstring) (rs : list (suggestion Item)) :
  suggest getEnglishStr translationPairs items lang = Normal (inl rs) ->
  Forall2 (pair_of getEnglishStr) items rs.
Proof.
  unfold suggest. destruct (group getEnglishStr items) as [g|e]; [|discriminate]. simpl.
  destruct (findTranslationPair translationPairs) as [[E T]|e].
  - destruct (1 <? length (keys g)).
    + intros [= <-]. apply autoTranslate_pairs.
    + destruct (createTemplate E T lang) as [t|e]; [|discriminate].
      destruct (populateAll getEnglishStr t lang items) as [pairs|e] eqn:Hp; [|discriminate].
      simpl. intros [= <-]. now apply (populateAll_pairs t lang).
  - intros [= <-]. apply autoTranslate_pairs.
Qed.

End SuggestProperties.

(** ** normalizeString: what it keeps and what it forgets *)

Lemma matches_none (r : regex) (s : jsstring) :
  exec r [] = None ->
  (forall s1 c s2, s = s1 ++ c :: s2 -> exec r (c :: s2) = None) ->
  matches r s = [].
Proof.
  intros Hnil H. pose proof (@matches_cut r [Plain s] Hnil) as Hcut.
  simpl in Hcut. rewrite app_nil_r in Hcut. apply Hcut. split; [|exact I].
  intros s1 c s2 E. rewrite app_nil_r. now apply (H s1).
Qed.

Lemma matches_none_first (a : char) (r : regex) (s : jsstring) :
  none_of [a] s = true -> matches (Seq (Cls false [a]) r) s = [].
Proof.
  intros Hs. apply matches_none; [reflexivity|].
  intros s1 c s2 E. apply exec_first. rewrite E in Hs. apply none_of_at in Hs.
  eapply existsb_eqb_false; [exact Hs | now left].
Qed.

Lemma matches_none_nested (a : char) (r r' : regex) (s : jsstring) :
  none_of [a] s = true -> matches (Seq (Seq (Cls false [a]) r) r') s = [].
Proof.
  intros Hs. apply matches_none; [reflexivity|].
  intros s1 c s2 E. rewrite E in Hs. apply none_of_at in Hs.
  assert (Hc : N.eqb c a = false) by (eapply existsb_eqb_false; [exact Hs | now left]).
  unfold exec. rewrite rmatch_seq, rmatch_chr_cons, Hc. reflexivity.
Qed.

Lemma plain_settled (s : jsstring) :
  none_of [36; 91; 42; 95]%N s = true -> settled s.
Proof.
  intros Hs.
  assert (H36 : none_of [36%N] s = true)
    by (revert Hs; apply none_of_weaken; intros x [<-|[]]; simpl; tauto).
  assert (H91 : none_of [91%N] s = true)
    by (revert Hs; apply none_of_weaken; intros x [<-|[]]; simpl; tauto).
  assert (H42 : none_of [42%N] s = true)
    by (revert Hs; apply none_of_weaken; intros x [<-|[]]; simpl; tauto).
  assert (H95 : none_of [95%N] s = true)
    by (revert Hs; apply none_of_weaken; intros x [<-|[]]; simpl; tauto).
  repeat split.
  - rewrite MATH_REGEX_eq. now apply matches_none_first.
  - apply matches_none; [reflexivity|]. intros s1 c s2 E.
    rewrite GRAPHIE_REGEX_eq. apply exec_second.
    destruct s2 as [|c' s2]; [exact I|].
    assert (E' : s = (s1 ++ [c]) ++ c' :: s2) by (now rewrite <- app_assoc).
    rewrite E' in H91. apply none_of_at in H91.
    eapply existsb_eqb_false; [exact H91 | now left].
  - rewrite WIDGET_REGEX_eq. now apply matches_none_first.
  - replace (matches MATH_WIDGET_REGEX s) with (@nil jsstring); [constructor|].
    symmetry. now apply (@matches_none_nested 95%N).
  - now apply (@matches_none_first 42%N).
Qed.

(** A string that holds none of [$], [[], [*] and [_] has nothing to
    replace: its normal form is the string with every paragraph trimmed. *)
Theorem normalizeString_plain (s : jsstring) :
  none_of [36; 91; 42; 95]%N s = true ->
  normalizeString s = join LINE_BREAK (map trim (split LINE_BREAK s)).
Proof. intros Hs. now apply settled_fixed, plain_settled. Qed.

Lemma normalizeString_plain_witness :
  normalizeString (str "  hello, world!  ") = str "hello, world!".
Proof.
  rewrite (@normalizeString_plain (str "  hello, world!  ")).
  - vm_compute; reflexivity.
  - vm_compute; reflexivity.
Defined.

(** The paragraphs of a normal form are trimmed: no paragraph of
    [normalizeString s] starts or ends with white space, so that trimming
    it again changes nothing. *)
Theorem normalizeString_paragraphs_trimmed (s : jsstring) :
  Forall (fun l => trim l = l) (split LINE_BREAK (normalizeString s)).
Proof.
  destruct (normalizeString_lines s) as (ls & Hne & Hls & ->).
  assert (Hok : lines_ok (map trim ls)).
  { apply closed_lines_ok; [now destruct ls|].
    rewrite Forall_map. revert Hls. apply Forall_impl. intros l. apply trim_closed. }
  rewrite (split_join _ Hok). rewrite Forall_map.
  apply Forall_forall. intros l _. apply trim_trim.
Qed.

Lemma render_masked_shape (p q : para) : shape p = shape q -> render masked p = render masked q.
Proof.
  destruct p as [lp cp], q as [lq cq]. unfold shape, render. simpl.
  intros [= -> H]. f_equal. revert cq H.
  induction cp as [|c cp IH]; intros [|c' cq] H; simpl in *; try discriminate; [reflexivity|].
  injection H as Hk Ha H. unfold shown. simpl. rewrite Hk, Ha, (IH cq H).
  now destruct (ckind c').
Qed.

Lemma map_render_masked_shape (ps qs : list para) :
  map shape qs = map shape ps -> map (render masked) ps = map (render masked) qs.
Proof.
  revert qs. induction ps as [|p ps IH]; intros [|q qs] H; cbn [map] in *; try discriminate;
    [reflexivity|].
  inversion H as [[Hq H']]. f_equal; [apply render_masked_shape; congruence | now apply IH].
Qed.

Lemma templateLine_of_join (ps : list para) :
  Forall (fun p => para_weak p = true) ps ->
  templateLine_of (join LINE_BREAK (map source ps))
  = join LINE_BREAK (map (render masked) ps).
Proof.
  intros Hweak. destruct ps as [|p ps]; [reflexivity|].
  assert (Hne : p :: ps <> []) by discriminate.
  destruct (merge_spec raw Hne Hweak) as (Hr & _ & Hw).
  destruct (merge_spec masked Hne Hweak) as (Hm & _ & _).
  change (map source (p :: ps)) with (map (render raw) (p :: ps)).
  rewrite <- Hr, <- Hm. now apply templateLine_of_source.
Qed.

Lemma normalizeString_templateLine (a b : jsstring) :
  templateLine_of a = templateLine_of b -> normalizeString a = normalizeString b.
Proof. unfold normalizeString, templateLine_of. now intros ->. Qed.

(** Strings that differ in the bodies of their Math, Graphie and Widget
    occurrences only have the same normal form, hence the same group: the
    normal form depends on the text around the occurrences and on their
    kinds. *)
Theorem normalizeString_same_shape (ps qs : list para) :
  Forall (fun p => para_weak p = true) ps ->
  Forall (fun q => para_weak q = true) qs ->
  map shape ps = map shape qs ->
  normalizeString (join LINE_BREAK (map source ps))
  = normalizeString (join LINE_BREAK (map source qs)).
Proof.
  intros Hp Hq Hs. apply normalizeString_templateLine.
  rewrite !templateLine_of_join by assumption. f_equal.
  now apply map_render_masked_shape.
Qed.

(** ** populateTemplate: the suggestion for another English string *)

Lemma createTemplate_lines (ps : list para) (E T lang : jsstring) (t : template) :
  createTemplate E T lang = inl t ->
  split LINE_BREAK T = map source ps ->
  Forall (fun p => para_weak p = true) ps ->
  lines t = map (render masked) ps.
Proof.
  intros Hc Hsplit Hweak. apply createTemplate_inl in Hc. destruct Hc as (-> & _).
  rewrite Hsplit, map_map. apply map_ext_in. intros p Hp.
  apply templateLine_of_source. rewrite Forall_forall in Hweak. now apply Hweak.
Qed.

(** The suggestion for a new English string is the reference translation
    with its occurrences exchanged: when the reference translation is laid
    out as plain texts and occurrences, and [qs] is the same layout in which
    the [i]-th occurrence of each kind is the occurrence of the new English
    string at the index the mapping of that kind gives for [i], then
    [populateTemplate] returns [qs], provided the new string has as many
    paragraphs as the reference translation. *)
Theorem populateTemplate_transfers
        (ps qs : list para) (englishStr translatedStr lang : jsstring) (t : template)
        (newEnglishStr lang' : jsstring) :
  createTemplate englishStr translatedStr lang = inl t ->
  split LINE_BREAK translatedStr = map source ps ->
  Forall (fun p => para_weak p = true) ps ->
  map shape qs = map shape ps ->
  Forall (fun q => para_ok q = true) qs ->
  paragraphs newEnglishStr = paragraphs translatedStr ->
  (forall k, Forall2 (fun o j => nth_error (matches (regex_of k) newEnglishStr) j = Some o)
                     (occs k qs) (mapping_of t k)) ->
  populateTemplate t newEnglishStr lang' = Normal (join LINE_BREAK (map source qs)).
Proof.
  intros Hc Hsplit Hweak Hshape Hok Hpar Hocc.
  pose proof (@createTemplate_lines ps _ _ _ _ Hc Hsplit Hweak) as Hlines.
  rewrite (@map_render_masked_shape ps qs Hshape) in Hlines.
  assert (Hlen : length qs = length ps).
  { rewrite <- (length_map shape qs), Hshape. apply length_map. }
  assert (Hrun : populateLines t (matches MATH_REGEX newEnglishStr)
                   (matches GRAPHIE_REGEX newEnglishStr) (matches WIDGET_REGEX newEnglishStr)
                   (split LINE_BREAK newEnglishStr) 0
                   {| mathIndex := 0; graphieIndex := 0; widgetIndex := 0 |}
                 = Normal (map source qs)).
  { apply (@populateLines_source t (fun k => matches (regex_of k) newEnglishStr) qs []
             (split LINE_BREAK newEnglishStr)
             {| mathIndex := 0; graphieIndex := 0; widgetIndex := 0 |} Hlines).
    - unfold paragraphs in Hpar. now rewrite Hpar, Hsplit, length_map, Hlen.
    - exact Hok.
    - now intros [].
    - intros k j o Hj. eapply pick_mapped; [apply (Hocc k) | exact Hj]. }
  unfold populateTemplate. now rewrite map_indexed_translateMath, Hrun.
Qed.

(** ** translateMath and the rewrite of getMapping *)

Section Rewriting.

(** Two commands [\u] and [\v]; the name [v] holds no backslash. *)
Variables u v : jsstring.
Hypothesis Hv : none_of [92%N] v = true.

Lemma starts_with_split (w s : jsstring) :
  starts_with w s = true -> s = w ++ skipn (length w) s.
Proof.
  revert s. induction w as [|x w IH]; intros [|c s]; simpl; try discriminate; [reflexivity..|].
  intros H. apply andb_true_iff in H. destruct H as [Hx H].
  apply N.eqb_eq in Hx. subst. f_equal. now apply IH.
Qed.

Lemma indexOf_none (w s : jsstring) :
  indexOf w s = None -> forall s1 s2, s = s1 ++ s2 -> starts_with w s2 = false.
Proof.
  revert w. induction s as [|c s IH]; intros w H s1 s2 E.
  - destruct s1; [|discriminate]. simpl in E. subst s2. simpl in H.
    now destruct (starts_with w []).
  - simpl in H. destruct (starts_with w (c :: s)) eqn:Hw; [discriminate|].
    destruct s1 as [|c1 s1]; simpl in E.
    + now subst s2.
    + injection E as _ E. apply (IH w) with (s1 := s1); [|exact E].
      now destruct (indexOf w s).
Qed.

(** Up to the first backslash the rewritten string reads as the
    original. *)
Lemma starts_with_rewritten (ts : list tok) :
  Forall (fun m => m = command u) (hits ts) ->
  forall w, none_of [92%N] w = true ->
            starts_with w (text_of (rewritten (command v) ts)) = starts_with w (flat ts).
Proof.
  induction ts as [|[c|m] ts IH]; intros Hh w Hw; [reflexivity| |].
  - destruct w as [|x w]; [reflexivity|]. simpl in *.
    apply andb_true_iff in Hw. destruct Hw as [_ Hw]. now rewrite IH.
  - destruct w as [|x w]; [reflexivity|]. simpl in Hh. inversion Hh; subst.
    simpl in Hw. apply andb_true_iff in Hw. destruct Hw as [Hx _].
    rewrite orb_false_r in Hx. apply negb_true_iff in Hx.
    cbn [rewritten text_of flat]. unfold command. cbn [app starts_with]. now rewrite Hx.
Qed.

Lemma scan_rewritten :
  forall fuel s,
    length s < fuel ->
    (forall s1 s2, s = s1 ++ s2 -> starts_with (command v) s2 = false) ->
    cut_by (lit_of (command v)) (rewritten (command v) (scan (lit_of (command u)) fuel s)) /\
    Forall (fun m => m = command u) (hits (scan (lit_of (command u)) fuel s)).
Proof.
  induction fuel as [|fuel IH]; intros s Hfuel Hs; [lia|].
  rewrite scan_S, exec_lit.
  destruct (starts_with (command u) s) eqn:Hus.
  - apply starts_with_split in Hus. set (rest := skipn (length (command u)) s) in *.
    assert (Hl : length (command u) = S (length u)) by reflexivity.
    rewrite Hl.
    assert (Hf : firstn (S (length u)) s = command u).
    { rewrite Hus, <- Hl, firstn_app, Nat.sub_diag, firstn_all. apply app_nil_r. }
    rewrite Hf. destruct (IH rest) as [Hcut Hall].
    + rewrite Hus, length_app, Hl in Hfuel. lia.
    + intros s1 s2 E. apply (Hs (command u ++ s1) s2). now rewrite Hus, E, app_assoc.
    + split.
      * cbn [rewritten cut_by]. split; [discriminate|]. split; [apply exec_lit_hit | exact Hcut].
      * cbn [hits]. now constructor.
  - destruct s as [|c s]; [split; [exact I | constructor]|].
    destruct (IH s) as [Hcut Hall].
    + simpl in Hfuel. lia.
    + intros s1 s2 E. apply (Hs (c :: s1) s2). now rewrite E.
    + split; [|exact Hall]. cbn [rewritten cut_by]. split; [|exact Hcut].
      intros s1 c' s2 E. destruct s1 as [|x s1]; [|destruct s1; discriminate].
      injection E as <- <-. cbn [app]. rewrite exec_lit.
      replace (starts_with (command v)
                 (c :: text_of (rewritten (command v) (scan (lit_of (command u)) fuel s))))
        with (starts_with (command v) (c :: s)); [now rewrite (Hs [] (c :: s) eq_refl)|].
      unfold command at 1 2. cbn [starts_with]. f_equal.
      rewrite (@starts_with_rewritten _ Hall _ Hv), scan_flat; [reflexivity|].
      simpl in Hfuel. lia.
Qed.

Lemma subst_rewritten (ts : list tok) :
  fst (subst (fun (_ : unit) (_ : jsstring) => (command v, tt)) tt ts)
  = text_of (rewritten (command v) ts).
Proof.
  induction ts as [|[c|m] ts IH]; simpl; [reflexivity| |].
  - destruct (subst _ tt ts); simpl in *. now rewrite IH.
  - destruct (subst _ tt ts); simpl in *. now rewrite IH.
Qed.

Lemma fill_rewritten (ts : list tok) :
  Forall (fun m => m = command u) (hits ts) ->
  fst (fill_segs (fun (_ : unit) (_ : jsstring) => (command u, tt)) tt
                 (rewritten (command v) ts))
  = flat ts.
Proof.
  induction ts as [|[c|m] ts IH]; intros Hh; simpl; [reflexivity| |].
  - specialize (IH Hh). destruct (fill_segs _ tt (rewritten (command v) ts)); simpl in *.
    now rewrite IH.
  - simpl in Hh. inversion Hh; subst. specialize (IH H2).
    destruct (fill_segs _ tt (rewritten (command v) ts)); simpl in *. now rewrite IH.
Qed.

(** Writing [\v] for every [\u] and then [\u] for every [\v] gives a
    string back when it held no [\v]. *)
Lemma replace_back (s : jsstring) :
  indexOf (command v) s = None ->
  replace (lit_of (command v)) (command u) (replace (lit_of (command u)) (command v) s) = s.
Proof.
  intros Hs.
  destruct (@scan_rewritten (S (length s)) s (Nat.lt_succ_diag_r _) (indexOf_none _ Hs))
    as [Hcut Hall].
  fold (tokens (lit_of (command u)) s) in Hcut, Hall.
  unfold replace at 2. unfold replace_fn, replace_with. rewrite subst_rewritten.
  rewrite replace_cut; [|reflexivity | exact Hcut].
  rewrite (@fill_rewritten _ Hall). apply tokens_flat.
Qed.

End Rewriting.

(** For Portuguese the rewrite of [getMapping] undoes [translateMath]: a
    math that holds no [\operatorname{sen}] is found again, as it was, after
    [\sin] has been written [\operatorname{sen}] and back. *)
Theorem rewrite_output_translateMath (math : jsstring) :
  indexOf SEN math = None ->
  rewrite_output PT (translateMath math (VStr PT)) = math.
Proof.
  intros H. unfold rewrite_output, translateMath. simpl.
  apply (@replace_back (str "sin") (str "operatorname{sen}")); [reflexivity | exact H].
Qed.

Lemma rewrite_output_translateMath_witness :
  rewrite_output PT (translateMath (str "$\sin x + \sinh y$") (VStr PT))
  = str "$\sin x + \sinh y$".
Proof. apply rewrite_output_translateMath. vm_compute; reflexivity. Defined.

(** And [translateMath] undoes the rewrite: a translated math that holds
    no [\sin] is the Portuguese form of what [getMapping] looks up for
    it. *)
Theorem translateMath_rewrite_output (output : jsstring) :
  indexOf SIN output = None ->
  translateMath (rewrite_output PT output) (VStr PT) = output.
Proof.
  intros H. unfold rewrite_output, translateMath. simpl.
  apply (@replace_back (str "operatorname{sen}") (str "sin")); [reflexivity | exact H].
Qed.

Lemma translateMath_rewrite_output_witness :
  translateMath (rewrite_output PT (str "$\operatorname{sen} x$")) (VStr PT)
  = str "$\operatorname{sen} x$".
Proof. apply translateMath_rewrite_output. vm_compute; reflexivity. Defined.

(** ** The documented example, through the general statements *)

Lemma normalizeString_same_shape_witness :
  normalizeString (join LINE_BREAK (map source reference_paras))
  = normalizeString (join LINE_BREAK (map source suggested_paras)).
Proof.
  apply normalizeString_same_shape.
  - repeat constructor.
  - repeat constructor.
  - reflexivity.
Defined.

Lemma populateTemplate_transfers_witness :
  populateTemplate reference_template english_new PT = Normal translated_new.
Proof.
  apply (@populateTemplate_transfers reference_paras suggested_paras
           english_ref translated_ref PT reference_template english_new PT).
  - vm_compute; reflexivity.
  - vm_compute; reflexivity.
  - repeat constructor.
  - reflexivity.
  - repeat constructor.
  - vm_compute; reflexivity.
  - intros []; vm_compute; repeat constructor.
Defined.

Lemma suggest_populates_witness :
  exists outs,
    suggest englishStr [(None, None); (Some english_ref, Some translated_ref)]
            [{| englishStr := english_new; id := 1002 |};
             {| englishStr := english_ref; id := 1001 |}] PT
    = Normal (inl (combine (map OfItem [{| englishStr := english_new; id := 1002 |};
                                        {| englishStr := english_ref; id := 1001 |}])
                           (map Some outs))) /\
    Forall2 (fun x out => populateTemplate reference_template (englishStr x) PT = Normal out)
            [{| englishStr := english_new; id := 1002 |};
             {| englishStr := english_ref; id := 1001 |}] outs.
Proof.
  apply (@suggest_populates item englishStr _ _ PT english_ref translated_ref).
  - intros x [<-|[<-|[]]]; vm_compute; reflexivity.
  - intros x y [<-|[<-|[]]] [<-|[<-|[]]]; vm_compute; reflexivity.
  - reflexivity.
  - vm_compute; reflexivity.
  - repeat constructor; vm_compute; lia.
Defined.

Lemma suggest_throws_on_long_item_witness :
  suggest englishStr [(Some (str "add $1$"), Some (str "some $1$"))]
          [{| englishStr := str "add $5$" ++ LINE_BREAK ++ str "then stop"; id := 7 |}] ES
  = Throw TypeError.
Proof.
  apply (@suggest_throws_on_long_item item englishStr _ _ ES (str "add $1$") (str "some $1$")
           {| lines := [str "some __MATH__"]; mathMapping := [0];
              graphieMapping := []; widgetMapping := [] |}).
  - intros x [<-|[]]; vm_compute; reflexivity.
  - intros x y [<-|[]] [<-|[]]; reflexivity.
  - reflexivity.
  - vm_compute; reflexivity.
  - constructor. vm_compute; lia.
Defined.

Lemma suggest_one_pair_per_item_witness :
  Forall2 (pair_of englishStr)
          [{| englishStr := english_new; id := 1002 |}]
          [(OfItem {| englishStr := english_new; id := 1002 |}, Some translated_new)].
Proof.
  apply (@suggest_one_pair_per_item item englishStr
           [(None, None); (Some english_ref, Some translated_ref)] _ PT).
  vm_compute; reflexivity.
Defined.

(** ** createTemplate: the lines of a template *)

(** The lines of a template are the paragraphs of the translation with the
    placeholder of its kind for every occurrence and the text around the
    occurrences as it was, and each mapping has one index per occurrence of
    its kind. *)
Theorem createTemplate_masks_occurrences
        (ps : list para) (englishStr translatedStr lang : jsstring) (t : template) :
  createTemplate englishStr translatedStr lang = inl t ->
  split LINE_BREAK translatedStr = map source ps ->
  Forall (fun p => para_weak p = true) ps ->
  lines t = map (render masked) ps /\
  forall k, length (mapping_of t k) = length (occs k ps).
Proof.
  intros Hc Hsplit Hweak. split; [now apply (@createTemplate_lines ps _ _ _ _ Hc)|].
  intros k.
  assert (Hne : ps <> []).
  { intros ->. pose proof (lines_ok_nonempty (split_lines_ok translatedStr)) as H.
    now rewrite Hsplit in H. }
  destruct (merge_spec raw Hne Hweak) as (Hr & Ho & Hw).
  assert (Hm : matches (regex_of k) translatedStr = occs k ps).
  { rewrite <- (join_split translatedStr), Hsplit.
    change (map source ps) with (map (render raw) ps).
    rewrite <- Hr. change (render raw (merge ps)) with (source (merge ps)).
    now rewrite matches_source, Ho. }
  apply createTemplate_inl in Hc. destruct Hc as (_ & HM & HG & HW).
  assert (Hg : getMapping englishStr translatedStr lang (regex_of k) = Normal (mapping_of t k))
    by (now destruct k).
  unfold getMapping in Hg. apply mapOutputs_normal in Hg.
  rewrite <- Hm. symmetry. eapply Forall2_length. exact Hg.
Qed.

Lemma createTemplate_masks_occurrences_witness :
  lines reference_template = map (render masked) reference_paras /\
  forall k, length (mapping_of reference_template k) = length (occs k reference_paras).
Proof.
  apply (@createTemplate_masks_occurrences reference_paras english_ref translated_ref PT).
  - vm_compute; reflexivity.
  - vm_compute; reflexivity.
  - repeat constructor.
Defined.

(** ** populateTemplate: an English string without occurrences *)

Lemma pick_nil (mapping : list nat) (i : nat) : pick [] mapping i = UNDEFINED.
Proof.
  unfold pick. destruct (nth_error mapping i) as [j|]; [|reflexivity]. now destruct j.
Qed.

Lemma shown_shown_as (v : view) (c : chunk) : shown v c = shown_as v (ckind c) (cbody c).
Proof. reflexivity. Qed.

Lemma render_chunk_text (v : view) (p : para) :
  render v p = lead p ++ flat_map (chunk_text (shown_as v) (fun _ => false)) (chunks p).
Proof. reflexivity. Qed.

Lemma dissolve_text (g : kind -> jsstring -> jsstring) (K K' : kind -> bool) :
  forall cs text,
    lead (dissolve K text cs) ++ flat_map (chunk_text g K') (chunks (dissolve K text cs))
    = text ++ flat_map (chunk_text g (fun k => K k || K' k)) cs.
Proof.
  induction cs as [|c cs IH]; intros text; [reflexivity|].
  cbn [dissolve flat_map]. destruct (K (ckind c)) eqn:HK.
  - rewrite IH. unfold chunk_text at 2. rewrite HK. cbn [orb].
    now rewrite <- !app_assoc.
  - cbn [lead chunks flat_map]. unfold chunk_text at 1 3. cbn [ckind cbody cafter].
    rewrite HK. cbn [orb]. rewrite <- !app_assoc. do 2 f_equal. apply IH.
Qed.

Lemma dissolve_lead (K : kind -> bool) :
  forall cs text,
    lead (dissolve K text cs) = text \/
    exists rest, lead (dissolve K text cs) = text ++ UNDEFINED ++ rest.
Proof.
  induction cs as [|c cs IH]; intros text; [now left|].
  cbn [dissolve]. destruct (K (ckind c)); [|now left].
  right. destruct (IH (text ++ UNDEFINED ++ cafter c)) as [->|[rest ->]].
  - now exists (cafter c).
  - exists (cafter c ++ UNDEFINED ++ rest). now rewrite <- !app_assoc.
Qed.

Lemma streq_length (a b : jsstring) : length a <> length b -> streq a b = false.
Proof.
  intros H. destruct (streq_spec a b) as [->|]; [congruence | reflexivity].
Qed.

Lemma after_ok_undefined (k : kind) (a rest : jsstring) :
  after_ok k (a ++ UNDEFINED ++ rest) = true.
Proof.
  assert (H : forall w, length w < 9 -> streq (a ++ UNDEFINED ++ rest) w = false).
  { intros w Hw. apply streq_length. rewrite !length_app. simpl. lia. }
  destruct k; simpl; rewrite ?H; simpl; auto; lia.
Qed.

Lemma para_ok_dissolve (K : kind -> bool) :
  forall cs text,
    plain text = true -> forallb chunk_ok cs = true ->
    para_ok (dissolve K text cs) = true.
Proof.
  induction cs as [|c cs IH]; intros text Ht Hcs.
  - unfold para_ok. simpl. now rewrite Ht.
  - cbn [forallb] in Hcs. apply andb_true_iff in Hcs. destruct Hcs as [Hc Hcs].
    unfold chunk_ok in Hc. apply andb_true_iff in Hc. destruct Hc as [Hc Hafter].
    apply andb_true_iff in Hc. destruct Hc as [Hbody Hplain].
    cbn [dissolve]. destruct (K (ckind c)).
    + apply IH; [|exact Hcs]. rewrite !plain_app, Ht, Hplain. reflexivity.
    + pose proof (IH (cafter c) Hplain Hcs) as Hp.
      unfold para_ok in Hp |- *. apply andb_true_iff in Hp. destruct Hp as [Hlead Hrest].
      cbn [lead chunks forallb]. rewrite Ht, Hrest. unfold chunk_ok. cbn [ckind cbody cafter].
      rewrite Hbody, Hlead.
      destruct (dissolve_lead K cs (cafter c)) as [->|[rest ->]];
        [now rewrite Hafter | now rewrite after_ok_undefined].
Qed.

Lemma fill_undefined (v : view) (k0 : kind) (mapping : list nat) :
  forall cs n,
    fill_segs (fill [] mapping) n (segs_chunks v k0 cs)
    = (flat_map (chunk_text (shown_as v) (fun k => kind_eqb k k0)) cs,
       n + length (occurrences k0 cs)).
Proof.
  induction cs as [|c cs IH]; intros n.
  - simpl. now rewrite Nat.add_0_r.
  - unfold segs_chunks, occurrences in *. cbn [flat_map seg_of app filter].
    unfold chunk_text at 1.
    destruct (kind_eqb (ckind c) k0) eqn:E; cbn [fill_segs fill map length].
    + rewrite (IH (S n)), pick_nil, <- app_assoc. f_equal. lia.
    + rewrite (IH n), <- app_assoc. reflexivity.
Qed.

(** One pass over a line, with nothing to pick from. *)
Lemma replace_tokens_undefined (k0 : kind) (p : para) (mapping : list nat) (n : nat) :
  para_ok p = true ->
  fst (replace_with (lit_of (placeholder k0)) (fill [] mapping) n (render (stage k0) p))
  = lead p ++ flat_map (chunk_text (shown_as (stage k0)) (fun k => kind_eqb k k0)) (chunks p).
Proof.
  intros Hp. rewrite <- (text_of_segs_of (stage k0) k0 p).
  rewrite replace_with_cut; [|apply (exec_nil (Token k0)) | now apply cut_token].
  unfold segs_of. cbn [fill_segs]. now rewrite fill_undefined.
Qed.

Lemma flat_map_chunk_text (g g' : kind -> jsstring -> jsstring) (K K' : kind -> bool)
      (cs : list chunk) :
  (forall k, K k = K' k) ->
  (forall k body, K k = false -> g k body = g' k body) ->
  flat_map (chunk_text g K) cs = flat_map (chunk_text g' K') cs.
Proof.
  intros HK Hg. apply flat_map_ext. intros c. unfold chunk_text.
  rewrite <- HK. destruct (K (ckind c)) eqn:E; [reflexivity|]. now rewrite Hg.
Qed.

Lemma populateLine_undefined (t : template) (st : counters) (p : para) :
  para_ok p = true ->
  fst (populateLine t [] [] [] st (render masked p)) = blank p.
Proof.
  intros Hp. unfold populateLine.
  change (lit "__MATH__") with (lit_of (placeholder Math)).
  change (lit "__GRAPHIE__") with (lit_of (placeholder Graphie)).
  change (lit "__WIDGET__") with (lit_of (placeholder Widget)).
  change masked with (stage Math).
  assert (Hlead : plain (lead p) = true /\ forallb chunk_ok (chunks p) = true)
    by (now apply andb_true_iff).
  destruct Hlead as [Hlead Hcs].
  (* math *)
  pose proof (replace_tokens_undefined Math p (mathMapping t) (mathIndex st) Hp) as H1.
  destruct (replace_with (lit_of (placeholder Math)) _ _ (render (stage Math) p)) as [l1 mi].
  simpl fst in H1.
  set (q1 := dissolve (fun k => kind_eqb k Math) (lead p) (chunks p)).
  assert (Hq1 : para_ok q1 = true) by (now apply para_ok_dissolve).
  assert (E1 : l1 = render (stage Graphie) q1).
  { rewrite H1, render_chunk_text. unfold q1. rewrite dissolve_text. f_equal.
    apply flat_map_chunk_text.
    - intros k. now rewrite orb_false_r.
    - intros [] body Hk; try discriminate; reflexivity. }
  (* graphies *)
  pose proof (replace_tokens_undefined Graphie q1 (graphieMapping t) (graphieIndex st) Hq1)
    as H2.
  rewrite E1.
  destruct (replace_with (lit_of (placeholder Graphie)) _ _ (render (stage Graphie) q1))
    as [l2 gi].
  simpl fst in H2.
  set (q2 := dissolve (fun k => kind_eqb k Math || kind_eqb k Graphie) (lead p) (chunks p)).
  assert (Hq2 : para_ok q2 = true) by (now apply para_ok_dissolve).
  assert (E2 : l2 = render (stage Widget) q2).
  { rewrite H2, render_chunk_text. unfold q1, q2. rewrite !dissolve_text. f_equal.
    apply flat_map_chunk_text.
    - intros k. now rewrite orb_false_r.
    - intros [] body Hk; try discriminate; reflexivity. }
  (* widgets *)
  pose proof (replace_tokens_undefined Widget q2 (widgetMapping t) (widgetIndex st) Hq2)
    as H3.
  rewrite E2.
  destruct (replace_with (lit_of (placeholder Widget)) _ _ (render (stage Widget) q2))
    as [l3 wi].
  simpl fst in H3. simpl fst. rewrite H3. unfold q2. rewrite dissolve_text.
  unfold blank. f_equal. apply flat_map_ext. intros c. unfold chunk_text.
  now destruct (ckind c).
Qed.

Lemma populateLines_undefined (t : template) :
  forall todo done englishLines st,
    lines t = map (render masked) (done ++ todo) ->
    length englishLines = length todo ->
    Forall (fun p => para_ok p = true) todo ->
    populateLines t [] [] [] englishLines (length done) st = Normal (map blank todo).
Proof.
  induction todo as [|p todo IH]; intros done englishLines st Hlines Hlen Hok.
  - destruct englishLines; [reflexivity | discriminate].
  - destruct englishLines as [|e englishLines]; [discriminate|].
    inversion Hok as [|? ? Hp Hok']; subst. cbn [populateLines].
    assert (Hnth : nth_error (lines t) (length done) = Some (render masked p)).
    { rewrite Hlines, map_app, nth_error_app2; rewrite length_map; [|lia].
      now rewrite Nat.sub_diag. }
    rewrite Hnth.
    pose proof (@populateLine_undefined t st p Hp) as Hl.
    destruct (populateLine t [] [] [] st (render masked p)) as [l st']. simpl in Hl.
    replace (S (length done)) with (length (done ++ [p])) by (rewrite length_app; simpl; lia).
    rewrite (IH (done ++ [p]) englishLines st').
    + simpl. now rewrite Hl.
    + now rewrite <- app_assoc.
    + simpl in Hlen. lia.
    + exact Hok'.
Qed.

(** A missing occurrence is no error: for an English string that holds no
    Math, Graphie or Widget occurrence, [populateTemplate] returns the
    reference translation with the text [undefined] in the place of every
    occurrence. *)
Theorem populateTemplate_undefined
        (ps : list para) (englishStr translatedStr lang : jsstring) (t : template)
        (newEnglishStr lang' : jsstring) :
  createTemplate englishStr translatedStr lang = inl t ->
  split LINE_BREAK translatedStr = map source ps ->
  Forall (fun p => para_ok p = true) ps ->
  paragraphs newEnglishStr = paragraphs translatedStr ->
  (forall k, matches (regex_of k) newEnglishStr = []) ->
  populateTemplate t newEnglishStr lang' = Normal (join LINE_BREAK (map blank ps)).
Proof.
  intros Hc Hsplit Hok Hpar Hnone.
  assert (Hweak : Forall (fun p => para_weak p = true) ps)
    by (revert Hok; apply Forall_impl; intros p; apply para_ok_weak).
  pose proof (@createTemplate_lines ps _ _ _ _ Hc Hsplit Hweak) as Hlines.
  unfold populateTemplate.
  pose proof (Hnone Math) as HM. pose proof (Hnone Graphie) as HG.
  pose proof (Hnone Widget) as HW. simpl in HM, HG, HW. rewrite HM, HG, HW.
  cbn [map_indexed].
  rewrite (@populateLines_undefined t ps [] (split LINE_BREAK newEnglishStr) _ Hlines).
  - reflexivity.
  - unfold paragraphs in Hpar. now rewrite Hpar, Hsplit, length_map.
  - exact Hok.
Qed.

Lemma populateTemplate_undefined_witness :
  populateTemplate reference_template (str "hello" ++ LINE_BREAK ++ str "world") PT
  = Normal (str "simplifique undefined" ++ LINE_BREAK
            ++ str "pista: o denominador " ++ [233%N] ++ str " undefined").
Proof.
  apply (@populateTemplate_undefined reference_paras english_ref translated_ref PT).
  - vm_compute; reflexivity.
  - vm_compute; reflexivity.
  - repeat constructor.
  - vm_compute; reflexivity.
  - intros []; vm_compute; reflexivity.
Defined.

(** ** getMapping: Portuguese math *)

(** A Portuguese translation whose math is what [translateMath] makes of
    math of the English string is accepted: [getMapping] finds every
    occurrence and returns a mapping. *)
Theorem getMapping_accepts_translateMath (englishStr translatedStr : jsstring) :
  (forall output, In output (matches MATH_REGEX translatedStr) ->
     exists math, In math (matches MATH_REGEX englishStr) /\
                  indexOf SEN math = None /\
                  output = translateMath math (VStr PT)) ->
  exists mapping, getMapping englishStr translatedStr PT MATH_REGEX = Normal mapping.
Proof.
  intros H. unfold getMapping. apply mapOutputs_found.
  intros o Ho. destruct (H o Ho) as (m & Hm & Hsen & ->).
  replace (rewrite_output PT (translateMath m (VStr PT))) with m; [exact Hm|].
  symmetry. unfold rewrite_output, translateMath. simpl.
  apply (@replace_back (str "sin") (str "operatorname{sen}")); [reflexivity | exact Hsen].
Qed.

Lemma getMapping_accepts_translateMath_witness :
  exists mapping,
    getMapping (str "find $\sin x$") (str "ache $\operatorname{sen} x$") PT MATH_REGEX
    = Normal mapping.
Proof.
  apply getMapping_accepts_translateMath.
  intros output Ho. vm_compute in Ho. destruct Ho as [<-|[]].
  exists (str "$\sin x$"). repeat split; vm_compute; auto.
Defined.

(** ** normalizeString: plain strings are normalized once *)

Lemma none_of_join (cs : list char) (ls : list jsstring) :
  none_of cs LINE_BREAK = true ->
  Forall (fun l => none_of cs l = true) ls -> none_of cs (join LINE_BREAK ls) = true.
Proof.
  intros Hlb. induction 1 as [|l ls Hl Hls IH]; [reflexivity|].
  destruct ls as [|l' ls]; [exact Hl|].
  change (join LINE_BREAK (l :: l' :: ls)) with (l ++ LINE_BREAK ++ join LINE_BREAK (l' :: ls)).
  now rewrite !none_of_app, Hl, Hlb, IH.
Qed.

Lemma none_of_pieces (cs : list char) (ls : list jsstring) :
  none_of cs (join LINE_BREAK ls) = true -> Forall (fun l => none_of cs l = true) ls.
Proof.
  induction ls as [|l ls IH]; intros H; [constructor|].
  destruct ls as [|l' ls]; [now repeat constructor|].
  change (join LINE_BREAK (l :: l' :: ls)) with (l ++ LINE_BREAK ++ join LINE_BREAK (l' :: ls))
    in H.
  rewrite !none_of_app in H. apply andb_true_iff in H. destruct H as [Hl H].
  apply andb_true_iff in H. destruct H as [_ H]. constructor; [exact Hl | now apply IH].
Qed.

Lemma none_of_rev (cs : list char) (s : jsstring) : none_of cs (rev s) = none_of cs s.
Proof.
  induction s as [|c s IH]; [reflexivity|]. simpl. rewrite none_of_app, IH. simpl.
  rewrite andb_true_r. apply andb_comm.
Qed.

Lemma none_of_trim_start (cs : list char) (s : jsstring) :
  none_of cs s = true -> none_of cs (trim_start s) = true.
Proof.
  induction s as [|c s IH]; [reflexivity|]. intros H. simpl.
  destruct (is_space c); [|exact H]. apply IH. simpl in H.
  apply andb_true_iff in H. tauto.
Qed.

Lemma none_of_trim (cs : list char) (s : jsstring) :
  none_of cs s = true -> none_of cs (trim s) = true.
Proof.
  intros H. unfold trim. rewrite none_of_rev. apply none_of_trim_start.
  rewrite none_of_rev. now apply none_of_trim_start.
Qed.

(** On a string that holds none of [$], [[], [*] and [_] a second
    normalization changes nothing. *)
Theorem normalizeString_plain_idempotent (s : jsstring) :
  none_of [36; 91; 42; 95]%N s = true ->
  normalizeString (normalizeString s) = normalizeString s.
Proof.
  intros Hs.
  assert (Hn : normalizeString s = join LINE_BREAK (map trim (split LINE_BREAK s)))
    by (now apply settled_fixed, plain_settled).
  assert (Hplain : none_of [36; 91; 42; 95]%N (normalizeString s) = true).
  { rewrite Hn. apply none_of_join; [reflexivity|].
    rewrite Forall_map. rewrite <- (join_split s) in Hs. apply none_of_pieces in Hs.
    revert Hs. apply Forall_impl. intros l. apply none_of_trim. }
  rewrite (settled_fixed (plain_settled _ Hplain)), Hn.
  assert (Hok : lines_ok (map trim (split LINE_BREAK s))).
  { apply closed_lines_ok.
    - pose proof (lines_ok_nonempty (split_lines_ok s)). now destruct (split LINE_BREAK s).
    - rewrite Forall_map. generalize (lines_ok_forall _ (split_lines_ok s)).
      apply Forall_impl. intros l. apply trim_closed. }
  rewrite (split_join _ Hok), map_map. f_equal.
  apply map_ext. intros l. apply trim_trim.
Qed.

Lemma normalizeString_plain_idempotent_witness :
  normalizeString (normalizeString (str "  hello, world!  "))
  = normalizeString (str "  hello, world!  ").
Proof. apply normalizeString_plain_idempotent. vm_compute; reflexivity. Defined.

(** ** normalizeString: bold markers and the space before a widget *)

(** A greedy star on a character class: it goes on over a code unit of
    the class and comes back to it when the rest fails. *)
Lemma rmatch_star_cls_cons (neg : bool) (cs : list char) (c : char) (s : jsstring) (k : cont) :
  xorb neg (existsb (N.eqb c) cs) = true ->
  rmatch (Star (Cls neg cs)) (c :: s) k
  = match rmatch (Star (Cls neg cs)) s k with
    | Some r => Some r
    | None => k (c :: s)
    end.
Proof.
  intros H. cbn [rmatch length star_loop]. rewrite H.
  replace (length s <? S (length s)) with true by (symmetry; apply Nat.ltb_lt; lia).
  reflexivity.
Qed.

Lemma rmatch_star_cls_stop (neg : bool) (cs : list char) (s : jsstring) (k : cont) :
  match s with
  | c :: _ => xorb neg (existsb (N.eqb c) cs) = false
  | [] => True
  end ->
  rmatch (Star (Cls neg cs)) s k = k s.
Proof.
  destruct s as [|c s]; intros H; [reflexivity|].
  cbn [rmatch length star_loop]. now rewrite H.
Qed.

Lemma rmatch_star_cls_none (neg : bool) (cs : list char) (k : cont) :
  forall s : jsstring, (forall s1 s2 : jsstring, s = s1 ++ s2 -> k s2 = None) ->
                       rmatch (Star (Cls neg cs)) s k = None.
Proof.
  induction s as [|c s IH]; intros H.
  - rewrite rmatch_star_cls_stop by exact I. now apply (H []).
  - destruct (xorb neg (existsb (N.eqb c) cs)) eqn:E.
    + rewrite rmatch_star_cls_cons by exact E. rewrite IH.
      * now apply (H []).
      * intros s1 s2 Es. apply (H (c :: s1)). now rewrite Es.
    + rewrite rmatch_star_cls_stop by exact E. now apply (H []).
Qed.

Lemma rmatch_star_cls_run (neg : bool) (cs : list char) (tail : jsstring) (k : cont)
      (y : jsstring) :
  rmatch (Star (Cls neg cs)) tail k = Some y ->
  forall body : jsstring,
    forallb (fun c : char => xorb neg (existsb (N.eqb c) cs)) body = true ->
    rmatch (Star (Cls neg cs)) (body ++ tail) k = Some y.
Proof.
  intros Ht. induction body as [|c body IH]; intros Hb; [exact Ht|].
  cbn [forallb] in Hb. apply andb_true_iff in Hb. destruct Hb as [Hc Hb].
  cbn [app]. rewrite rmatch_star_cls_cons by exact Hc. now rewrite IH.
Qed.

Lemma BOLD_REGEX_eq :
  BOLD_REGEX = Seq (Cls false [42%N]) (Seq (Cls false [42%N])
                 (Seq (Star (Cls true [10; 13; 8232; 8233]%N))
                      (Seq (Cls false [42%N]) (Cls false [42%N])))).
Proof. reflexivity. Qed.

Lemma none_of_head (x : char) (s : jsstring) :
  none_of [x] s = true ->
  match s with c :: _ => N.eqb c x = false | [] => True end.
Proof.
  destruct s as [|c s]; [trivial|]. simpl. rewrite orb_false_r.
  intros H. apply andb_true_iff in H. destruct H as [H _]. now apply negb_true_iff.
Qed.

Lemma none_of_suffix (cs : list char) (s1 s2 : jsstring) :
  none_of cs (s1 ++ s2) = true -> none_of cs s2 = true.
Proof. rewrite none_of_app. intros H. apply andb_true_iff in H. tauto. Qed.

(** A bold span on one line, with no asterisk inside and none after it, is
    the match found at its start. *)
Lemma exec_BOLD_hit (a post : jsstring) :
  none_of [10; 13; 8232; 8233]%N a = true ->
  none_of [42%N] post = true ->
  exec BOLD_REGEX (BOLD_MARK ++ a ++ BOLD_MARK ++ post)
  = Some (length (BOLD_MARK ++ a ++ BOLD_MARK)).
Proof.
  intros Ha Hpost. rewrite BOLD_REGEX_eq. unfold exec, BOLD_MARK. cbn [app].
  do 2 rewrite rmatch_chr_cons, N.eqb_refl. rewrite rmatch_seq.
  set (k := fun s' : jsstring => rmatch (Seq (Cls false [42%N]) (Cls false [42%N])) s' Some).
  assert (Hk : forall s1 s2, post = s1 ++ s2 -> k s2 = None).
  { intros s1 s2 E. rewrite E in Hpost. apply none_of_suffix in Hpost.
    apply none_of_head in Hpost. unfold k. destruct s2 as [|c s2]; [reflexivity|].
    now rewrite rmatch_chr_cons, Hpost. }
  assert (H1 : rmatch (Star (Cls true [10; 13; 8232; 8233]%N))
                       ((42%N : char) :: post) k = None).
  { rewrite rmatch_star_cls_cons by reflexivity.
    rewrite (@rmatch_star_cls_none _ _ k post Hk). unfold k.
    rewrite rmatch_chr_cons, N.eqb_refl.
    apply none_of_head in Hpost. destruct post as [|c post]; [reflexivity|].
    cbn [rmatch existsb xorb]. now rewrite orb_false_r, Hpost. }
  assert (H2 : rmatch (Star (Cls true [10; 13; 8232; 8233]%N))
                       ((42%N : char) :: (42%N : char) :: post) k
               = Some post).
  { rewrite rmatch_star_cls_cons by reflexivity. rewrite H1. unfold k.
    rewrite rmatch_chr_cons, N.eqb_refl. cbn [rmatch existsb xorb].
    now rewrite N.eqb_refl. }
  rewrite (@rmatch_star_cls_run _ _ _ k _ H2 a).
  - f_equal. cbn [length]. rewrite !length_app. cbn [length]. lia.
  - exact Ha.
Qed.

Lemma first_passes (s : jsstring) :
  none_of [36; 91; 95]%N s = true ->
  replace MATH_WIDGET_REGEX MATH_WIDGET_PH
    (replace WIDGET_REGEX WIDGET_PH
       (replace GRAPHIE_REGEX GRAPHIE_PH (replace MATH_REGEX MATH_PH s))) = s.
Proof.
  intros Hs.
  assert (H36 : none_of [36%N] s = true)
    by (revert Hs; apply none_of_weaken; intros x [<-|[]]; simpl; tauto).
  assert (H91 : none_of [91%N] s = true)
    by (revert Hs; apply none_of_weaken; intros x [<-|[]]; simpl; tauto).
  assert (H95 : none_of [95%N] s = true)
    by (revert Hs; apply none_of_weaken; intros x [<-|[]]; simpl; tauto).
  rewrite (@replace_none MATH_REGEX)
    by (rewrite MATH_REGEX_eq; now apply matches_none_first).
  rewrite (@replace_none GRAPHIE_REGEX).
  2:{ apply matches_none; [reflexivity|]. intros s1 c s2 E.
      rewrite GRAPHIE_REGEX_eq. apply exec_second.
      destruct s2 as [|c' s2]; [exact I|].
      assert (E' : s = (s1 ++ [c]) ++ c' :: s2) by (now rewrite <- app_assoc).
      rewrite E' in H91. apply none_of_at in H91.
      eapply existsb_eqb_false; [exact H91 | now left]. }
  rewrite (@replace_none WIDGET_REGEX)
    by (rewrite WIDGET_REGEX_eq; now apply matches_none_first).
  apply replace_none. now apply (@matches_none_nested 95%N).
Qed.

Lemma normalizeString_templateLine_bold (a b : jsstring) :
  replace_fn BOLD_REGEX (fun m => substring 2 (length m - 2) m)
    (replace MATH_WIDGET_REGEX MATH_WIDGET_PH
       (replace WIDGET_REGEX WIDGET_PH
          (replace GRAPHIE_REGEX GRAPHIE_PH (replace MATH_REGEX MATH_PH a))))
  = replace_fn BOLD_REGEX (fun m => substring 2 (length m - 2) m)
      (replace MATH_WIDGET_REGEX MATH_WIDGET_PH
         (replace WIDGET_REGEX WIDGET_PH
            (replace GRAPHIE_REGEX GRAPHIE_PH (replace MATH_REGEX MATH_PH b)))) ->
  normalizeString a = normalizeString b.
Proof. unfold normalizeString. now intros ->. Qed.

(** Bold markup is disregarded: a pair of bold markers around a span that
    lies on one line changes nothing in the normal form, in a string that
    holds none of [$], [[], [_] and no other asterisk. *)
Theorem normalizeString_drops_bold (pre a post : jsstring) :
  none_of [36; 91; 42; 95]%N pre = true ->
  none_of [36; 91; 42; 95]%N a = true ->
  none_of [36; 91; 42; 95]%N post = true ->
  none_of [10; 13; 8232; 8233]%N a = true ->
  normalizeString (pre ++ BOLD_MARK ++ a ++ BOLD_MARK ++ post)
  = normalizeString (pre ++ a ++ post).
Proof.
  intros Hpre Ha Hpost Hline.
  assert (Hw : forall x, none_of [36; 91; 42; 95]%N x = true -> none_of [36; 91; 95]%N x = true).
  { intros x. apply none_of_weaken. intros y [<-|[<-|[<-|[]]]]; simpl; tauto. }
  assert (Hs : none_of [36; 91; 95]%N (pre ++ BOLD_MARK ++ a ++ BOLD_MARK ++ post) = true).
  { rewrite !none_of_app, (Hw _ Hpre), (Hw _ Ha), (Hw _ Hpost). reflexivity. }
  assert (H42 : forall x, none_of [36; 91; 42; 95]%N x = true -> none_of [42%N] x = true).
  { intros x. apply none_of_weaken. intros y [<-|[]]; simpl; tauto. }
  apply normalizeString_templateLine_bold.
  rewrite first_passes by exact Hs.
  rewrite first_passes by (rewrite !none_of_app, (Hw _ Hpre), (Hw _ Ha), (Hw _ Hpost);
                           reflexivity).
  rewrite (@replace_fn_same BOLD_REGEX _ (pre ++ a ++ post)).
  2:{ intros m Hm. replace (matches BOLD_REGEX (pre ++ a ++ post)) with (@nil jsstring) in Hm;
        [destruct Hm|].
      symmetry. rewrite BOLD_REGEX_eq. apply matches_none_first.
      rewrite !none_of_app. apply andb_true_iff. split; [apply (H42 _ Hpre)|].
      apply andb_true_iff. split; [apply (H42 _ Ha) | apply (H42 _ Hpost)]. }
  unfold replace_fn.
  pose proof (@replace_with_cut unit BOLD_REGEX
                (fun (_ : unit) m => (substring 2 (length m - 2) m, tt)) tt
                [Plain pre; Special (BOLD_MARK ++ a ++ BOLD_MARK); Plain post] eq_refl) as Hcut.
  cbn [text_of fill_segs] in Hcut. rewrite app_nil_r, <- !app_assoc in Hcut.
  rewrite Hcut.
  - cbn [fst]. do 2 f_equal.
    unfold substring, BOLD_MARK. cbn [app length]. rewrite length_app. cbn [length].
    replace (S (S (length a + 2)) - 2) with (length a + 2) by lia.
    replace (Nat.min 2 (length a + 2)) with 2 by lia.
    replace (Nat.max 2 (length a + 2) - 2) with (length a) by lia.
    cbn [skipn]. now rewrite firstn_app, Nat.sub_diag, firstn_all, app_nil_r.
  - cbn [cut_by text_of]. repeat split.
    + intros s1 c s2 E. rewrite BOLD_REGEX_eq. apply exec_first.
      pose proof (H42 _ Hpre) as H. rewrite E in H. apply none_of_at in H.
      eapply existsb_eqb_false; [exact H | now left].
    + discriminate.
    + rewrite app_nil_r, <- !app_assoc. apply exec_BOLD_hit; [exact Hline | now apply H42].
    + intros s1 c s2 E. rewrite BOLD_REGEX_eq. apply exec_first.
      pose proof (H42 _ Hpost) as H. rewrite E in H. apply none_of_at in H.
      eapply existsb_eqb_false; [exact H | now left].
Qed.

Lemma normalizeString_drops_bold_witness :
  normalizeString (str "this is **really bold** text") = normalizeString (str "this is really bold text").
Proof.
  apply (@normalizeString_drops_bold (str "this is ") (str "really bold") (str " text"));
    vm_compute; reflexivity.
Defined.

Lemma only_of_class (cs : list char) (s : jsstring) :
  only_of cs s = true ->
  forallb (fun c : char => xorb false (existsb (N.eqb c) cs)) s = true.
Proof.
  induction s as [|c s IH]; [reflexivity|]. cbn [only_of forallb]. intros H.
  apply andb_true_iff in H. destruct H as [Hc H]. rewrite Hc. cbn [xorb andb].
  now apply IH.
Qed.

Lemma only_of_plain (ws : jsstring) : only_of [9; 32]%N ws = true -> plain ws = true.
Proof.
  induction ws as [|c ws IH]; [reflexivity|]. simpl. intros H.
  apply andb_true_iff in H. destruct H as [Hc H]. unfold plain in *. simpl.
  rewrite (IH H), andb_true_r. rewrite !orb_false_r in Hc.
  apply orb_true_iff in Hc. destruct Hc as [Hc|Hc]; apply N.eqb_eq in Hc; now subst.
Qed.

Lemma skipn_length_app (w r : jsstring) : skipn (length w) (w ++ r) = r.
Proof. now rewrite skipn_app, Nat.sub_diag, skipn_all. Qed.

(** A math placeholder, tabs and spaces, and a widget placeholder are one
    match of the respacing expression. *)
Lemma exec_MATH_WIDGET_hit (ws R : jsstring) :
  only_of [9; 32]%N ws = true ->
  exec MATH_WIDGET_REGEX (MATH_PH ++ ws ++ WIDGET_PH ++ R)
  = Some (length (MATH_PH ++ ws ++ WIDGET_PH)).
Proof.
  intros Hws. unfold exec, MATH_WIDGET_REGEX.
  change (lit "__MATH__") with (lit_of MATH_PH).
  change (lit "__WIDGET__") with (lit_of WIDGET_PH).
  rewrite rmatch_seq, rmatch_lit, starts_with_app, skipn_length_app, rmatch_seq.
  set (k := fun s' : jsstring => rmatch (lit_of WIDGET_PH) s' Some).
  assert (Ht : rmatch (Star (Cls false [9; 32]%N)) (WIDGET_PH ++ R) k = Some R).
  { rewrite rmatch_star_cls_stop by reflexivity. unfold k.
    now rewrite rmatch_lit, starts_with_app, skipn_length_app. }
  rewrite (@rmatch_star_cls_run _ _ _ k _ Ht ws (only_of_class _ _ Hws)).
  f_equal. rewrite !length_app. lia.
Qed.

Lemma exec_MATH_WIDGET_first (c : char) (s : jsstring) :
  N.eqb c 95 = false -> exec MATH_WIDGET_REGEX (c :: s) = None.
Proof.
  intros H. unfold exec, MATH_WIDGET_REGEX.
  change (lit "__MATH__") with (lit_of MATH_PH).
  rewrite rmatch_seq, rmatch_lit. cbn [MATH_PH starts_with].
  rewrite N.eqb_sym, H. reflexivity.
Qed.

Lemma respaced (pre b1 ws b2 post : jsstring) :
  plain pre = true -> body_ok Math b1 = true -> only_of [9; 32]%N ws = true ->
  body_ok Widget b2 = true -> plain post = true ->
  replace MATH_WIDGET_REGEX MATH_WIDGET_PH
    (templateLine_of (pre ++ wrap Math b1 ++ ws ++ wrap Widget b2 ++ post))
  = pre ++ MATH_WIDGET_PH ++ post.
Proof.
  intros Hpre Hb1 Hws Hb2 Hpost.
  set (p := {| lead := pre;
               chunks := [ {| ckind := Math; cbody := b1; cafter := ws |};
                           {| ckind := Widget; cbody := b2; cafter := post |} ] |}).
  assert (Hp : para_weak p = true).
  { unfold para_weak, chunk_weak. simpl.
    now rewrite Hpre, Hb1, Hb2, Hpost, (only_of_plain _ Hws). }
  assert (Hsrc : pre ++ wrap Math b1 ++ ws ++ wrap Widget b2 ++ post = source p).
  { unfold source, render, render_chunks, p. cbn [lead chunks flat_map shown hidden raw
      ckind cbody cafter phMath phWidget]. now rewrite app_nil_r, <- !app_assoc. }
  rewrite Hsrc, (templateLine_of_source _ Hp).
  assert (Hm : render masked p
               = text_of [Plain pre; Special (MATH_PH ++ ws ++ WIDGET_PH); Plain post]).
  { unfold render, render_chunks, p. cbn [lead chunks flat_map shown hidden masked
      ckind cbody cafter phMath phWidget placeholder text_of].
    now rewrite !app_nil_r, <- !app_assoc. }
  rewrite Hm, replace_cut; [|reflexivity|].
  - cbn [fill_segs fst]. now rewrite app_nil_r.
  - assert (H95 : forall x, plain x = true -> forall s1 c s2, x = s1 ++ c :: s2 ->
                                                N.eqb c 95 = false).
    { intros x Hx s1 c s2 E. apply plain_no_underscore in Hx. rewrite E in Hx.
      apply none_of_at in Hx. eapply existsb_eqb_false; [exact Hx | now left]. }
    cbn [cut_by text_of]. repeat split.
    + intros s1 c s2 E. apply exec_MATH_WIDGET_first. now apply (H95 pre Hpre s1 c s2).
    + discriminate.
    + rewrite app_nil_r, <- !app_assoc. now apply exec_MATH_WIDGET_hit.
    + intros s1 c s2 E. apply exec_MATH_WIDGET_first. now apply (H95 post Hpost s1 c s2).
Qed.

Lemma normalizeString_respaced (a b : jsstring) :
  replace MATH_WIDGET_REGEX MATH_WIDGET_PH (templateLine_of a)
  = replace MATH_WIDGET_REGEX MATH_WIDGET_PH (templateLine_of b) ->
  normalizeString a = normalizeString b.
Proof. unfold normalizeString, templateLine_of. now intros ->. Qed.

(** The tabs and spaces between a math and the widget that follows it have
    no part in the normal form: any run of them, the empty one included,
    gives the normal form of a single space. *)
Theorem normalizeString_respaces (pre b1 ws b2 post : jsstring) :
  plain pre = true -> body_ok Math b1 = true -> only_of [9; 32]%N ws = true ->
  body_ok Widget b2 = true -> plain post = true ->
  normalizeString (pre ++ wrap Math b1 ++ ws ++ wrap Widget b2 ++ post)
  = normalizeString (pre ++ wrap Math b1 ++ [32%N] ++ wrap Widget b2 ++ post).
Proof.
  intros Hpre Hb1 Hws Hb2 Hpost. apply normalizeString_respaced.
  rewrite (respaced _ _ _ _ _ Hpre Hb1 Hws Hb2 Hpost).
  symmetry. now apply respaced.
Qed.

Lemma normalizeString_respaces_witness :
  normalizeString (str "enter $x$" ++ [9; 32; 32]%N ++ str "[[" ++ snowman ++ str " input 1]] here")
  = normalizeString (str "enter $x$ [[" ++ snowman ++ str " input 1]] here").
Proof.
  apply (@normalizeString_respaces (str "enter ") (str "x") [9; 32; 32]%N
           (str " input 1") (str " here")); reflexivity.
Defined.

(** ** normalizeString: idempotence on laid-out strings *)



(** *** What the respacing expression matches *)





(** *** Where a match can start in a masked line *)











(** *** The respacing pass on a masked line *)












(** *** After the respacing pass every pair has a single space *)








(** *** Matches that survive the trimming of the paragraphs *)













(** *** The normal form of a laid-out string is settled *)









(** *** Occurrences that are placeholders already *)










